(** * Tile accelerator renderer core (guest/pvr/tr.c)

    A shallow embedding of the translation stage that turns a captured
    tile-accelerator context into surfaces, vertices and triangle indices,
    together with the properties of its decoders, surface commit, index
    generation, surface sort and render driver.

    Conventions of the embedding:
    - a C [int] is a [Z]; the counters stay far below 2^31, so no
      wrap-around is written for them;
    - a [float] is an IEEE-754 binary32 value ([spec_float] at precision 24,
      maximal exponent 128);
    - a fixed-size C array is a memory of cells indexed by [Z]; its capacity
      appears exactly where the source compares against [ARRAY_SIZE];
    - [CHECK], [CHECK_LT], [LOG_FATAL] abort the process: [Fatal];
      a float to integer cast outside the integer's range is [Undef]. *)

From Stdlib Require Import ZArith List Bool Lia Floats.SpecFloat.
From Stdlib Require Import Sorting.Sorted Sorting.Permutation.
Import ListNotations.
Local Open Scope Z_scope.

(** ** Outcome of fallible code *)

Inductive result (A : Type) : Type :=
| Ok (a : A)
| Fatal
| Undef.
Arguments Ok {A} a.
Arguments Fatal {A}.
Arguments Undef {A}.

Definition bind {A B : Type} (m : result A) (k : A -> result B) : result B :=
  match m with
  | Ok a => k a
  | Fatal => Fatal
  | Undef => Undef
  end.

Notation "x <- m ;; k" := (bind m (fun x => k))
  (at level 61, m at next level, right associativity).
Notation "' pat <- m ;; k" := (bind m (fun x => match x with pat => k end))
  (at level 61, pat pattern, m at next level, right associativity).

Definition check (b : bool) : result unit := if b then Ok tt else Fatal.

(** ** binary32 arithmetic *)

Module F32.

Definition prec : Z := 24.
Definition emax : Z := 128.

Definition float : Type := spec_float.

Definition of_Z_pow2 (m e : Z) : float := binary_normalize prec emax m e false.
Definition of_Z (m : Z) : float := of_Z_pow2 m 0.
Definition zero : float := S754_zero false.

Definition mul (x y : float) : float := SFmul prec emax x y.
Definition add (x y : float) : float := SFadd prec emax x y.
Definition sub (x y : float) : float := SFsub prec emax x y.
Definition div (x y : float) : float := SFdiv prec emax x y.
Definition sqrt (x : float) : float := SFsqrt prec emax x.

(** C comparison operators: every comparison with a NaN is false. *)
Definition eqb (x y : float) : bool := SFeqb x y.
Definition ltb (x y : float) : bool := SFltb x y.
Definition leb (x y : float) : bool := SFleb x y.

Definition is_nan (x : float) : bool :=
  match x with S754_nan => true | _ => false end.

(** [(int32_t)x]: the value is truncated toward zero; the cast is
    undefined when the truncated value does not fit, and for infinities
    and NaN. *)
Definition trunc (x : float) : option Z :=
  match x with
  | S754_zero _ => Some 0
  | S754_finite s m e =>
      let a := if 0 <=? e then Z.shiftl (Zpos m) e else Z.shiftr (Zpos m) (- e) in
      Some (if s then - a else a)
  | _ => None
  end.

Definition to_int32 (x : float) : result Z :=
  match trunc x with
  | Some v => if (- 2 ^ 31 <=? v) && (v <? 2 ^ 31) then Ok v else Undef
  | None => Undef
  end.

(** 32-bit pattern to float, for the bit patterns [PARSE_UV16] builds. *)
Definition of_bits (w : Z) : float :=
  let s := Z.testbit w 31 in
  let e := Z.land (Z.shiftr w 23) 255 in
  let m := Z.land w (2 ^ 23 - 1) in
  if e =? 255 then (if m =? 0 then S754_infinity s else S754_nan)
  else if e =? 0 then
    match m with
    | Zpos p => S754_finite s p (- 149)
    | _ => S754_zero s
    end
  else
    match m + 2 ^ 23 with
    | Zpos p => S754_finite s p (e - 150)
    | _ => S754_zero s
    end.

End F32.

Definition float : Type := F32.float.

(** ** Polygon parsing helpers *)

(** core/math.h, [MIN] and [MAX] on integers. *)
Definition MIN (a b : Z) : Z := if a <? b then a else b.
Definition MAX (a b : Z) : Z := if a >? b then a else b.

(** [(uint8_t)v]. *)
Definition to_u8 (v : Z) : Z := v mod 256.

(** [ftou8]: saturating floating point to uint8_t conversion. *)
Definition ftou8 (x : float) : result Z :=
  i <- F32.to_int32 (F32.mul x (F32.of_Z 255)) ;;
  Ok (to_u8 (MIN (MAX i 0) 255)).

(** [fmulu8]: fixed point multiply. *)
Definition fmulu8 (a b : Z) : Z := to_u8 ((a * b) / 255).

(** A packed colour as it lies in memory: four bytes [out[0..3]]. *)
Record color4 : Type := mkColor { c0 : Z; c1 : Z; c2 : Z; c3 : Z }.

Definition color_zero : color4 := mkColor 0 0 0 0.

(** Four float channels of a float colour field ([color##_r] ...). *)
Record fcolor : Type := mkFColor { f_r : float; f_g : float; f_b : float; f_a : float }.

Definition PARSE_FLOAT_COLOR (c : fcolor) : result color4 :=
  r <- ftou8 (f_r c) ;;
  g <- ftou8 (f_g c) ;;
  b <- ftou8 (f_b c) ;;
  a <- ftou8 (f_a c) ;;
  Ok (mkColor r g b a).

Definition PARSE_PACKED_COLOR (color : Z) : color4 :=
  mkColor (to_u8 (Z.shiftr (Z.land color 0x00ff0000) 16))
          (to_u8 (Z.shiftr (Z.land color 0x0000ff00) 8))
          (to_u8 (Z.land color 0x000000ff))
          (to_u8 (Z.shiftr (Z.land color 0xff000000) 24)).

Definition PARSE_INTENSITY (color : color4) (intensity : float) : result color4 :=
  i <- ftou8 intensity ;;
  Ok (mkColor (fmulu8 (c0 color) i) (fmulu8 (c1 color) i)
              (fmulu8 (c2 color) i) (c3 color)).

(** The inverse layout of [PARSE_PACKED_COLOR], following the words of the
    specification: bytes [R, G, B, A] are put back as [0xAARRGGBB]. *)
Definition serialize_packed_color (c : color4) : Z :=
  Z.lor (Z.lor (Z.shiftl (c3 c) 24) (Z.shiftl (c0 c) 16))
        (Z.lor (Z.shiftl (c1 c) 8) (c2 c)).

(** ** Data model *)

Record vec3 : Type := mkVec3 { v0 : float; v1 : float; v2 : float }.
Record vec2 : Type := mkVec2 { u0 : float; u1 : float }.

Definition vec3_zero : vec3 := mkVec3 F32.zero F32.zero F32.zero.
Definition vec2_zero : vec2 := mkVec2 F32.zero F32.zero.

(** Modelled from the spec: the enumerations of the render backend header,
    which is not part of the sources. The first constructor of each is the
    value a zeroed surface holds. *)
Inductive depth_func : Type :=
| DEPTH_NONE | DEPTH_NEVER | DEPTH_LESS | DEPTH_EQUAL | DEPTH_LEQUAL
| DEPTH_GREATER | DEPTH_NEQUAL | DEPTH_GEQUAL | DEPTH_ALWAYS.

Inductive cull_face : Type := CULL_NONE | CULL_FRONT | CULL_BACK.

Inductive blend_func : Type :=
| BLEND_NONE | BLEND_ZERO | BLEND_ONE
| BLEND_SRC_COLOR | BLEND_ONE_MINUS_SRC_COLOR
| BLEND_SRC_ALPHA | BLEND_ONE_MINUS_SRC_ALPHA
| BLEND_DST_ALPHA | BLEND_ONE_MINUS_DST_ALPHA
| BLEND_DST_COLOR | BLEND_ONE_MINUS_DST_COLOR.

Inductive shade_mode : Type :=
| SHADE_DECAL | SHADE_MODULATE | SHADE_DECAL_ALPHA | SHADE_MODULATE_ALPHA.

Inductive filter_mode : Type := FILTER_NEAREST | FILTER_BILINEAR.
Inductive wrap_mode : Type := WRAP_REPEAT | WRAP_CLAMP_TO_EDGE | WRAP_MIRRORED_REPEAT.

(** Modelled from the spec: list kinds, parameter tags and the vertex type
    sentinel of the front-end header. *)
Definition TA_LIST_OPAQUE : Z := 0.
Definition TA_LIST_OPAQUE_MODVOL : Z := 1.
Definition TA_LIST_TRANSLUCENT : Z := 2.
Definition TA_LIST_TRANSLUCENT_MODVOL : Z := 3.
Definition TA_LIST_PUNCH_THROUGH : Z := 4.
Definition TA_NUM_LISTS : Z := 5.
Definition TA_NUM_VERTS : Z := 18.

Definition TA_PARAM_END_OF_LIST : Z := 0.
Definition TA_PARAM_USER_TILE_CLIP : Z := 1.
Definition TA_PARAM_OBJ_LIST_SET : Z := 2.
Definition TA_PARAM_POLY_OR_VOL : Z := 4.
Definition TA_PARAM_SPRITE : Z := 5.
Definition TA_PARAM_VERTEX : Z := 7.

(** The surface state bits compared by [params.full]. *)
Record surf_params : Type := mkSurfParams {
  texture : Z;
  depth_write : bool;
  sp_depth_func : depth_func;
  cull : cull_face;
  src_blend : blend_func;
  dst_blend : blend_func;
  shade : shade_mode;
  ignore_alpha : bool;
  ignore_texture_alpha : bool;
  offset_color : bool;
  alpha_test : bool;
  alpha_ref : Z
}.

Record ta_surface : Type := mkSurface {
  params : surf_params;
  first_vert : Z;
  num_verts : Z;
  strip_offset : Z
}.

Record ta_vertex : Type := mkVertex {
  xyz : vec3;
  uv : vec2;
  color : color4;
  vx_offset_color : color4
}.

Record tr_list : Type := mkList {
  l_surfs : Z -> Z;
  l_num_surfs : Z;
  l_num_orig_surfs : Z
}.

Record tr_param : Type := mkTrParam {
  rp_offset : Z;
  rp_list_type : Z;
  rp_vert_type : Z;
  rp_last_surf : Z;
  rp_last_vert : Z
}.

Record tr_context : Type := mkContext {
  width : Z;
  height : Z;
  rc_params : Z -> tr_param;
  num_params : Z;
  surfs : Z -> ta_surface;
  num_surfs : Z;
  verts : Z -> ta_vertex;
  rc_num_verts : Z;
  indices : Z -> Z;
  num_indices : Z;
  lists : Z -> tr_list
}.

(** [a[i] = x] on a memory of cells. *)
Definition upd {A : Type} (a : Z -> A) (i : Z) (x : A) : Z -> A :=
  fun j => if j =? i then x else a j.

(** The zeroed surface and vertex that [memset] leaves. *)
Definition params_zero : surf_params :=
  mkSurfParams 0 false DEPTH_NONE CULL_NONE BLEND_NONE BLEND_NONE SHADE_DECAL
               false false false false 0.
Definition surf_zero : ta_surface := mkSurface params_zero 0 0 0.
Definition vert_zero : ta_vertex := mkVertex vec3_zero vec2_zero color_zero color_zero.

(** Field assignments. *)
Definition set_first_vert (s : ta_surface) (v : Z) : ta_surface :=
  mkSurface (params s) v (num_verts s) (strip_offset s).
Definition set_num_verts (s : ta_surface) (v : Z) : ta_surface :=
  mkSurface (params s) (first_vert s) v (strip_offset s).
Definition set_strip_offset (s : ta_surface) (v : Z) : ta_surface :=
  mkSurface (params s) (first_vert s) (num_verts s) v.
Definition set_params (s : ta_surface) (p : surf_params) : ta_surface :=
  mkSurface p (first_vert s) (num_verts s) (strip_offset s).

Definition set_surfs (rc : tr_context) (a : Z -> ta_surface) : tr_context :=
  mkContext (width rc) (height rc) (rc_params rc) (num_params rc) a (num_surfs rc)
            (verts rc) (rc_num_verts rc) (indices rc) (num_indices rc) (lists rc).
Definition set_num_surfs (rc : tr_context) (n : Z) : tr_context :=
  mkContext (width rc) (height rc) (rc_params rc) (num_params rc) (surfs rc) n
            (verts rc) (rc_num_verts rc) (indices rc) (num_indices rc) (lists rc).
Definition set_verts (rc : tr_context) (a : Z -> ta_vertex) : tr_context :=
  mkContext (width rc) (height rc) (rc_params rc) (num_params rc) (surfs rc)
            (num_surfs rc) a (rc_num_verts rc) (indices rc) (num_indices rc) (lists rc).
Definition set_rc_num_verts (rc : tr_context) (n : Z) : tr_context :=
  mkContext (width rc) (height rc) (rc_params rc) (num_params rc) (surfs rc)
            (num_surfs rc) (verts rc) n (indices rc) (num_indices rc) (lists rc).
Definition set_indices (rc : tr_context) (a : Z -> Z) : tr_context :=
  mkContext (width rc) (height rc) (rc_params rc) (num_params rc) (surfs rc)
            (num_surfs rc) (verts rc) (rc_num_verts rc) a (num_indices rc) (lists rc).
Definition set_num_indices (rc : tr_context) (n : Z) : tr_context :=
  mkContext (width rc) (height rc) (rc_params rc) (num_params rc) (surfs rc)
            (num_surfs rc) (verts rc) (rc_num_verts rc) (indices rc) n (lists rc).
Definition set_lists (rc : tr_context) (a : Z -> tr_list) : tr_context :=
  mkContext (width rc) (height rc) (rc_params rc) (num_params rc) (surfs rc)
            (num_surfs rc) (verts rc) (rc_num_verts rc) (indices rc) (num_indices rc) a.
Definition set_rc_params (rc : tr_context) (a : Z -> tr_param) (n : Z) : tr_context :=
  mkContext (width rc) (height rc) a n (surfs rc)
            (num_surfs rc) (verts rc) (rc_num_verts rc) (indices rc) (num_indices rc)
            (lists rc).
Definition set_size (rc : tr_context) (w h : Z) : tr_context :=
  mkContext w h (rc_params rc) (num_params rc) (surfs rc)
            (num_surfs rc) (verts rc) (rc_num_verts rc) (indices rc) (num_indices rc)
            (lists rc).

(** ** Input: the captured tile-accelerator context *)

(** The parameter control word, by the fields the renderer reads; [pcw_full]
    is the whole word, which the front-end's own decoders consult. *)
Record pcw : Type := mkPcw {
  pcw_full : Z;
  pcw_offset : bool;
  pcw_texture : bool;
  pcw_list_type : Z;
  para_type : Z;
  end_of_strip : bool
}.

Record isp : Type := mkIsp {
  isp_offset : bool;
  isp_texture : bool;
  z_write_disable : bool;
  depth_compare_mode : Z;
  culling_mode : Z
}.

Record tsp : Type := mkTsp {
  tsp_full : Z;
  src_alpha_instr : Z;
  dst_alpha_instr : Z;
  texture_shading_instr : Z;
  use_alpha : bool;
  ignore_tex_alpha : bool;
  tsp_filter_mode : Z;
  clamp_u : bool;
  clamp_v : bool;
  flip_u : bool;
  flip_v : bool
}.

Record tcw : Type := mkTcw {
  tcw_full : Z;
  pixel_fmt : Z
}.

(** [union poly_param] after the control word, one field per view the
    renderer reads. *)
Record poly_param : Type := mkPolyParam {
  pp_isp : isp;
  pp_tsp : tsp;
  pp_tcw : tcw;
  type1_face_color : fcolor;
  type2_face_color : fcolor;
  type2_face_offset_color : fcolor;
  sprite_base_color : Z;
  sprite_offset_color_w : Z
}.

(** A 16-bit texture coordinate pair [uint16_t uv[2]]. *)
Record uv16 : Type := mkUv16 { h0 : Z; h1 : Z }.

(** [union vert_param] after the control word, one field per view the
    renderer reads. *)
Record vert_param : Type := mkVertParam {
  type0_xyz : vec3;   type0_base_color : Z;
  type1_xyz : vec3;   type1_base_color : fcolor;
  type2_xyz : vec3;   type2_base_intensity : float;
  type3_xyz : vec3;   type3_uv : vec2;
  type3_base_color : Z;   type3_offset_color : Z;
  type4_xyz : vec3;   type4_uv : uv16;
  type4_base_color : Z;   type4_offset_color : Z;
  type5_xyz : vec3;   type5_uv : vec2;
  type5_base_color : fcolor;   type5_offset_color : fcolor;
  type6_xyz : vec3;   type6_uv : uv16;
  type6_base_color : fcolor;   type6_offset_color : fcolor;
  type7_xyz : vec3;   type7_uv : vec2;
  type7_base_intensity : float;   type7_offset_intensity : float;
  type8_xyz : vec3;   type8_uv : uv16;
  type8_base_intensity : float;   type8_offset_intensity : float;
  sprite1_xyz0 : vec3;   sprite1_xyz1 : vec3;   sprite1_xyz2 : vec3;
  sprite1_xyz3 : vec3;
  sprite1_uv0 : uv16;   sprite1_uv1 : uv16;   sprite1_uv2 : uv16
}.

(** One parameter of the command buffer: the control word every view
    starts with, and the bytes after it read as a polygon or as a vertex
    parameter. The buffer is the sequence of its parameters. *)
Record ta_param : Type := mkParam {
  p_pcw : pcw;
  p_poly : poly_param;
  p_vert : vert_param
}.

Record ta_context : Type := mkTaContext {
  autosort : bool;
  ctx_alpha_ref : Z;
  ctx_stride : Z;
  palette_fmt : Z;
  video_width : Z;
  video_height : Z;
  bg_isp : isp;
  bg_tsp : tsp;
  bg_tcw : tcw;
  bg_vertices : Z -> Z;       (* the 32-bit word at a byte offset *)
  ctx_params : list ta_param
}.

(** ** Texture cache and render backend *)

Record tr_texture : Type := mkTexture {
  tex_handle : Z;
  tex_dirty : bool;
  tex_filter : filter_mode;
  tex_wrap_u : wrap_mode;
  tex_wrap_v : wrap_mode;
  tex_format : Z;
  tex_width : Z;
  tex_height : Z;
  tex_palette : list Z;
  tex_texture : list Z
}.

Inductive backend_call : Type :=
| CreateTexture (filter : filter_mode) (wrap_u wrap_v : wrap_mode)
                (mipmaps w h : Z) (pixels : list Z)
| DestroyTexture (handle : Z)
| BeginTaSurfaces (w h : Z) (verts : Z -> ta_vertex) (num_verts : Z)
                  (indices : Z -> Z) (num_indices : Z)
| DrawTaSurface (surf : Z)
| EndTaSurfaces.

(** What lies outside the renderer: the texture cache reached through
    [find_texture] (keyed by the register pair; [None] is a null entry) and
    the calls made on the backend so far, most recent last. *)
Record world : Type := mkWorld {
  cache : Z -> Z -> option tr_texture;
  calls : list backend_call
}.

(** ** Transient renderer state *)

Record tr : Type := mkTr {
  last_vertex : option ta_param;
  list_type : Z;
  vert_type : Z;
  face_color : color4;
  face_offset_color : color4;
  sprite_color : color4;
  sprite_offset_color : color4
}.

Definition set_last_vertex (t : tr) (v : option ta_param) : tr :=
  mkTr v (list_type t) (vert_type t) (face_color t) (face_offset_color t)
       (sprite_color t) (sprite_offset_color t).
Definition set_list_type (t : tr) (l : Z) : tr :=
  mkTr (last_vertex t) l (vert_type t) (face_color t) (face_offset_color t)
       (sprite_color t) (sprite_offset_color t).
Definition set_vert_type (t : tr) (v : Z) : tr :=
  mkTr (last_vertex t) (list_type t) v (face_color t) (face_offset_color t)
       (sprite_color t) (sprite_offset_color t).
Definition set_face_color (t : tr) (c : color4) : tr :=
  mkTr (last_vertex t) (list_type t) (vert_type t) c (face_offset_color t)
       (sprite_color t) (sprite_offset_color t).
Definition set_face_offset_color (t : tr) (c : color4) : tr :=
  mkTr (last_vertex t) (list_type t) (vert_type t) (face_color t) c
       (sprite_color t) (sprite_offset_color t).
Definition set_sprite_colors (t : tr) (c oc : color4) : tr :=
  mkTr (last_vertex t) (list_type t) (vert_type t) (face_color t)
       (face_offset_color t) c oc.

(** ** Collaborators that are declared outside tr.c *)

(** The front-end contract (ta.h, tex.h) and the backend's choice of texture
    handles: taken as parameters of the development. *)
Record frontend : Type := mkFrontend {
  ta_vert_type : pcw -> Z;
  ta_poly_type : pcw -> Z;
  ta_pcw_list_type_valid : pcw -> Z -> bool;
  ta_param_size : pcw -> Z -> Z;
  ta_texture_format : tcw -> Z;
  ta_texture_mipmaps : tcw -> Z;
  ta_texture_width : tsp -> tcw -> Z;
  ta_texture_height : tsp -> tcw -> Z;
  ta_texture_stride : tsp -> tcw -> Z -> Z;
  pvr_tex_decode : list Z -> Z -> Z -> Z -> Z -> Z -> list Z -> Z -> list Z;
  r_create_texture : list backend_call -> Z
}.

(** The vector helpers of core/math.h, by their signatures;
    [vec3_normalize] returns the normalised vector and the length. *)
Record vecmath : Type := mkVecmath {
  vec3_add : vec3 -> vec3 -> vec3;
  vec3_sub : vec3 -> vec3 -> vec3;
  vec3_cross : vec3 -> vec3 -> vec3;
  vec3_dot : vec3 -> vec3 -> float;
  vec3_normalize : vec3 -> vec3 * float;
  vec2_add : vec2 -> vec2 -> vec2;
  vec2_sub : vec2 -> vec2 -> vec2
}.

(** ** Table translations *)

Definition translate_depth_func (mode : Z) : result depth_func :=
  match mode with
  | 0 => Ok DEPTH_NEVER | 1 => Ok DEPTH_GREATER
  | 2 => Ok DEPTH_EQUAL | 3 => Ok DEPTH_GEQUAL
  | 4 => Ok DEPTH_LESS | 5 => Ok DEPTH_NEQUAL
  | 6 => Ok DEPTH_LEQUAL | 7 => Ok DEPTH_ALWAYS
  | _ => Undef
  end.

Definition translate_cull (cull_mode : Z) : result cull_face :=
  match cull_mode with
  | 0 => Ok CULL_NONE | 1 => Ok CULL_NONE
  | 2 => Ok CULL_BACK | 3 => Ok CULL_FRONT
  | _ => Undef
  end.

Definition translate_src_blend_func (instr : Z) : result blend_func :=
  match instr with
  | 0 => Ok BLEND_ZERO | 1 => Ok BLEND_ONE
  | 2 => Ok BLEND_DST_COLOR | 3 => Ok BLEND_ONE_MINUS_DST_COLOR
  | 4 => Ok BLEND_SRC_ALPHA | 5 => Ok BLEND_ONE_MINUS_SRC_ALPHA
  | 6 => Ok BLEND_DST_ALPHA | 7 => Ok BLEND_ONE_MINUS_DST_ALPHA
  | _ => Undef
  end.

Definition translate_dst_blend_func (instr : Z) : result blend_func :=
  match instr with
  | 0 => Ok BLEND_ZERO | 1 => Ok BLEND_ONE
  | 2 => Ok BLEND_SRC_COLOR | 3 => Ok BLEND_ONE_MINUS_SRC_COLOR
  | 4 => Ok BLEND_SRC_ALPHA | 5 => Ok BLEND_ONE_MINUS_SRC_ALPHA
  | 6 => Ok BLEND_DST_ALPHA | 7 => Ok BLEND_ONE_MINUS_DST_ALPHA
  | _ => Undef
  end.

Definition translate_shade_mode (instr : Z) : result shade_mode :=
  match instr with
  | 0 => Ok SHADE_DECAL | 1 => Ok SHADE_MODULATE
  | 2 => Ok SHADE_DECAL_ALPHA | 3 => Ok SHADE_MODULATE_ALPHA
  | _ => Undef
  end.

(** ** Texture resolver *)

Definition tr_convert_texture (fe : frontend) (w : world) (ctx : ta_context)
    (tsp : tsp) (tcw : tcw) : result (world * Z) :=
  match cache w (tsp_full tsp) (tcw_full tcw) with
  | None => Fatal
  | Some entry =>
      if negb (tex_handle entry =? 0) && negb (tex_dirty entry) then
        Ok (w, tex_handle entry)
      else
        let calls1 :=
          if negb (tex_handle entry =? 0) && tex_dirty entry
          then calls w ++ [DestroyTexture (tex_handle entry)]
          else calls w in
        let texture_fmt := ta_texture_format fe tcw in
        let mipmaps := ta_texture_mipmaps fe tcw in
        let width := ta_texture_width fe tsp tcw in
        let height := ta_texture_height fe tsp tcw in
        let stride := ta_texture_stride fe tsp tcw (ctx_stride ctx) in
        let converted :=
          pvr_tex_decode fe (tex_texture entry) width height stride texture_fmt
                         (pixel_fmt tcw) (tex_palette entry) (palette_fmt ctx) in
        let filter :=
          if tsp_filter_mode tsp =? 0 then FILTER_NEAREST else FILTER_BILINEAR in
        let wrap_u :=
          if clamp_u tsp then WRAP_CLAMP_TO_EDGE
          else if flip_u tsp then WRAP_MIRRORED_REPEAT else WRAP_REPEAT in
        let wrap_v :=
          if clamp_v tsp then WRAP_CLAMP_TO_EDGE
          else if flip_v tsp then WRAP_MIRRORED_REPEAT else WRAP_REPEAT in
        let calls2 :=
          calls1 ++ [CreateTexture filter wrap_u wrap_v mipmaps width height converted] in
        let handle := r_create_texture fe calls2 in
        let entry' :=
          mkTexture handle false filter wrap_u wrap_v texture_fmt width height
                    (tex_palette entry) (tex_texture entry) in
        Ok (mkWorld (fun a b =>
                       if (a =? tsp_full tsp) && (b =? tcw_full tcw)
                       then Some entry' else cache w a b)
                    calls2,
            handle)
  end.

(** ** Reserving and committing surfaces *)

Section Capacities.

(** [ARRAY_SIZE] of the surface, vertex and index arrays of the render
    context. *)
Variables SURFS_SIZE VERTS_SIZE INDICES_SIZE : Z.

(** The reserved surface is [rc->surfs[rc->num_surfs]]. *)
Definition tr_reserve_surf (rc : tr_context) (copy_from_prev : bool)
    : result tr_context :=
  let surf_index := num_surfs rc in
  _ <- check (surf_index <? SURFS_SIZE) ;;
  surf <- (if copy_from_prev then
             _ <- check (negb (num_surfs rc =? 0)) ;;
             Ok (surfs rc (num_surfs rc - 1))
           else Ok surf_zero) ;;
  let surf := set_first_vert surf (rc_num_verts rc) in
  let surf := set_num_verts surf 0 in
  Ok (set_surfs rc (upd (surfs rc) surf_index surf)).

(** Returns the context and the index of the reserved vertex. *)
Definition tr_reserve_vert (rc : tr_context) : result (tr_context * Z) :=
  let curr_surf := surfs rc (num_surfs rc) in
  let vert_index := rc_num_verts rc + num_verts curr_surf in
  _ <- check (vert_index <? VERTS_SIZE) ;;
  let rc := set_verts rc (upd (verts rc) vert_index vert_zero) in
  let curr_surf := set_num_verts curr_surf (num_verts curr_surf + 1) in
  Ok (set_surfs rc (upd (surfs rc) (num_surfs rc) curr_surf), vert_index).

(** [list->surfs[list->num_surfs++] = rc->num_surfs] *)
Definition list_push (rc : tr_context) (lt : Z) : tr_context :=
  let list := lists rc lt in
  set_lists rc
    (upd (lists rc) lt
         (mkList (upd (l_surfs list) (l_num_surfs list) (num_surfs rc))
                 (l_num_surfs list + 1) (l_num_orig_surfs list))).

(** The per-triangle loop of [tr_commit_surf]: [n] iterations are left and
    [i] is the loop counter. *)
Fixpoint commit_tris (n : nat) (i : Z) (lt : Z) (rc : tr_context)
    : result tr_context :=
  match n with
  | O => Ok rc
  | S n' =>
      rc <- (if i =? 0 then Ok rc else tr_reserve_surf rc true) ;;
      let k := num_surfs rc in
      let surf := set_strip_offset (surfs rc k) i in
      let surf := set_first_vert surf (rc_num_verts rc) in
      let surf := set_num_verts surf 3 in
      let rc := set_surfs rc (upd (surfs rc) k surf) in
      let rc := list_push rc lt in
      let rc := set_rc_num_verts rc (rc_num_verts rc + 1) in
      let rc := set_num_surfs rc (num_surfs rc + 1) in
      commit_tris n' (i + 1) lt rc
  end.

Definition tr_commit_surf (t : tr) (rc : tr_context) : result tr_context :=
  let lt := list_type t in
  let new_surf := surfs rc (num_surfs rc) in
  let list := lists rc lt in
  let rc := set_lists rc
              (upd (lists rc) lt
                   (mkList (l_surfs list) (l_num_surfs list)
                           (l_num_orig_surfs list + 1))) in
  if (lt =? TA_LIST_TRANSLUCENT) || (lt =? TA_LIST_PUNCH_THROUGH) then
    let nv := num_verts new_surf in
    rc <- commit_tris (Z.to_nat (nv - 2)) 0 lt rc ;;
    Ok (set_rc_num_verts rc (rc_num_verts rc + 2))
  else
    let rc := list_push rc lt in
    let rc := set_rc_num_verts rc (rc_num_verts rc + num_verts new_surf) in
    Ok (set_num_surfs rc (num_surfs rc + 1)).

Variable fe : frontend.
Variable vm : vecmath.

(** ** Background parser *)

Definition PARSE_UV16 (uv : uv16) : vec2 :=
  let u := Z.shiftl (h1 uv) 16 mod 2 ^ 32 in
  let v := Z.shiftl (h0 uv) 16 mod 2 ^ 32 in
  mkVec2 (F32.of_bits u) (F32.of_bits v).

(** Reads one background vertex at byte [offset] into [v]; returns the
    advanced offset. *)
Definition tr_parse_bg_vert (ctx : ta_context) (offset : Z) (v : ta_vertex)
    : Z * ta_vertex :=
  let word o := bg_vertices ctx o in
  let xyz' := mkVec3 (F32.of_bits (word offset)) (F32.of_bits (word (offset + 4)))
                     (F32.of_bits (word (offset + 8))) in
  let offset := offset + 12 in
  let '(offset, uv') :=
    if isp_texture (bg_isp ctx)
    then (offset + 8,
          mkVec2 (F32.of_bits (word offset)) (F32.of_bits (word (offset + 4))))
    else (offset, uv v) in
  let base_color := word offset in
  let color' := PARSE_PACKED_COLOR base_color in
  let offset := offset + 4 in
  let '(offset, offset_color') :=
    if isp_offset (bg_isp ctx)
    then (offset + 4, PARSE_PACKED_COLOR (word offset))
    else (offset, vx_offset_color v) in
  (offset, mkVertex xyz' uv' color' offset_color').

Definition tr_parse_bg (w : world) (t : tr) (ctx : ta_context) (rc : tr_context)
    : result (world * tr * tr_context) :=
  let t := set_list_type t TA_LIST_OPAQUE in
  rc <- tr_reserve_surf rc false ;;
  '(w, tex) <- (if isp_texture (bg_isp ctx)
                then tr_convert_texture fe w ctx (bg_tsp ctx) (bg_tcw ctx)
                else Ok (w, 0)) ;;
  df <- translate_depth_func (depth_compare_mode (bg_isp ctx)) ;;
  cl <- translate_cull (culling_mode (bg_isp ctx)) ;;
  let surf := surfs rc (num_surfs rc) in
  let p := params surf in
  let p := mkSurfParams tex (negb (z_write_disable (bg_isp ctx))) df cl
                        BLEND_NONE BLEND_NONE (shade p) (ignore_alpha p)
                        (ignore_texture_alpha p) (offset_color p)
                        (alpha_test p) (alpha_ref p) in
  let rc := set_surfs rc (upd (surfs rc) (num_surfs rc) (set_params surf p)) in
  '(rc, ia) <- tr_reserve_vert rc ;;
  '(rc, ib) <- tr_reserve_vert rc ;;
  '(rc, ic) <- tr_reserve_vert rc ;;
  '(rc, id) <- tr_reserve_vert rc ;;
  let '(offset, va) := tr_parse_bg_vert ctx 0 (verts rc ia) in
  let rc := set_verts rc (upd (verts rc) ia va) in
  let '(offset, vb) := tr_parse_bg_vert ctx offset (verts rc ib) in
  let rc := set_verts rc (upd (verts rc) ib vb) in
  let '(offset, vc) := tr_parse_bg_vert ctx offset (verts rc ic) in
  let rc := set_verts rc (upd (verts rc) ic vc) in
  let va := verts rc ia in
  let vb := verts rc ib in
  let vc := verts rc ic in
  let xyz_ab := vec3_sub vm (xyz vb) (xyz va) in
  let xyz_ac := vec3_sub vm (xyz vc) (xyz va) in
  let xyz_d := vec3_add vm (vec3_add vm (xyz vb) xyz_ab) xyz_ac in
  let uv_ab := vec2_sub vm (uv vb) (uv va) in
  let uv_ac := vec2_sub vm (uv vc) (uv va) in
  let uv_d := vec2_add vm (vec2_add vm (uv vb) uv_ab) uv_ac in
  let vd := mkVertex xyz_d uv_d (color va) (vx_offset_color va) in
  let rc := set_verts rc (upd (verts rc) id vd) in
  rc <- tr_commit_surf t rc ;;
  Ok (w, set_list_type t TA_NUM_LISTS, rc).

(** ** Polygon parameter handler *)

(** The list-based overrides of [tr_parse_poly_param], as the source chains
    them: one [if], [else if], [else if]. *)
Definition poly_overrides (lt : Z) (ctx : ta_context) (p : surf_params)
    : surf_params :=
  if negb (lt =? TA_LIST_TRANSLUCENT) && negb (lt =? TA_LIST_TRANSLUCENT_MODVOL) then
    mkSurfParams (texture p) (depth_write p) (sp_depth_func p) (cull p)
                 BLEND_NONE BLEND_NONE (shade p) (ignore_alpha p)
                 (ignore_texture_alpha p) (offset_color p) (alpha_test p)
                 (alpha_ref p)
  else if ((lt =? TA_LIST_TRANSLUCENT) || (lt =? TA_LIST_TRANSLUCENT_MODVOL))
          && autosort ctx then
    mkSurfParams (texture p) (depth_write p) DEPTH_LEQUAL (cull p)
                 (src_blend p) (dst_blend p) (shade p) (ignore_alpha p)
                 (ignore_texture_alpha p) (offset_color p) (alpha_test p)
                 (alpha_ref p)
  else if lt =? TA_LIST_PUNCH_THROUGH then
    mkSurfParams (texture p) (depth_write p) DEPTH_GEQUAL (cull p)
                 (src_blend p) (dst_blend p) (shade p) (ignore_alpha p)
                 (ignore_texture_alpha p) (offset_color p) (alpha_test p)
                 (alpha_ref p)
  else p.

Definition tr_parse_poly_param (w : world) (t : tr) (ctx : ta_context)
    (rc : tr_context) (data : ta_param) : result (world * tr * tr_context) :=
  let param := p_poly data in
  let t := set_last_vertex t None in
  let t := set_vert_type t (ta_vert_type fe (p_pcw data)) in
  let poly_type := ta_poly_type fe (p_pcw data) in
  if poly_type =? 6 then Ok (w, t, rc)
  else
    t <- match poly_type with
         | 0 => Ok t
         | 1 =>
             c <- PARSE_FLOAT_COLOR (type1_face_color param) ;;
             Ok (set_face_color t c)
         | 2 =>
             c <- PARSE_FLOAT_COLOR (type2_face_color param) ;;
             oc <- PARSE_FLOAT_COLOR (type2_face_offset_color param) ;;
             Ok (set_face_offset_color (set_face_color t c) oc)
         | 5 =>
             Ok (set_sprite_colors t
                   (PARSE_PACKED_COLOR (sprite_base_color param))
                   (PARSE_PACKED_COLOR (sprite_offset_color_w param)))
         | _ => Fatal
         end ;;
    rc <- tr_reserve_surf rc false ;;
    df <- translate_depth_func (depth_compare_mode (pp_isp param)) ;;
    cl <- translate_cull (culling_mode (pp_isp param)) ;;
    sb <- translate_src_blend_func (src_alpha_instr (pp_tsp param)) ;;
    db <- translate_dst_blend_func (dst_alpha_instr (pp_tsp param)) ;;
    sh <- translate_shade_mode (texture_shading_instr (pp_tsp param)) ;;
    let surf := surfs rc (num_surfs rc) in
    let p :=
      mkSurfParams (texture (params surf))
                   (negb (z_write_disable (pp_isp param))) df cl sb db sh
                   (negb (use_alpha (pp_tsp param)))
                   (ignore_tex_alpha (pp_tsp param))
                   (pcw_offset (p_pcw data))
                   (list_type t =? TA_LIST_PUNCH_THROUGH)
                   (ctx_alpha_ref ctx) in
    let p := poly_overrides (list_type t) ctx p in
    '(w, tex) <- (if pcw_texture (p_pcw data)
                  then tr_convert_texture fe w ctx (pp_tsp param) (pp_tcw param)
                  else Ok (w, 0)) ;;
    let p :=
      mkSurfParams tex (depth_write p) (sp_depth_func p) (cull p) (src_blend p)
                   (dst_blend p) (shade p) (ignore_alpha p)
                   (ignore_texture_alpha p) (offset_color p) (alpha_test p)
                   (alpha_ref p) in
    Ok (w, t, set_surfs rc (upd (surfs rc) (num_surfs rc) (set_params surf p))).

(** ** Vertex parameter handler *)

Definition store_vert (rc : tr_context) (i : Z) (v : ta_vertex) : tr_context :=
  set_verts rc (upd (verts rc) i v).

(** Reserve a vertex and fill the fields a case writes; the others keep the
    zero [tr_reserve_vert] left. *)
Definition emit_vert (rc : tr_context) (v : ta_vertex) : result tr_context :=
  '(rc, i) <- tr_reserve_vert rc ;;
  Ok (store_vert rc i v).

(** The sprite case of the switch. The boolean is [false] on the early
    [return] of a degenerate quad, which skips the commit. *)
Definition parse_sprite (t : tr) (rc : tr_context) (data : ta_param)
    : result (tr_context * bool) :=
  let param := p_vert data in
  _ <- check (end_of_strip (p_pcw data)) ;;
  '(rc, ia) <- tr_reserve_vert rc ;;
  '(rc, ib) <- tr_reserve_vert rc ;;
  '(rc, id) <- tr_reserve_vert rc ;;
  '(rc, ic) <- tr_reserve_vert rc ;;
  let sc := sprite_color t in
  let soc := sprite_offset_color t in
  let va := mkVertex (sprite1_xyz0 param) (PARSE_UV16 (sprite1_uv0 param)) sc soc in
  let rc := store_vert rc ia va in
  let vb := mkVertex (sprite1_xyz1 param) (PARSE_UV16 (sprite1_uv1 param)) sc soc in
  let rc := store_vert rc ib vb in
  let vc := mkVertex (sprite1_xyz2 param) (PARSE_UV16 (sprite1_uv2 param)) sc soc in
  let rc := store_vert rc ic vc in
  let vd0 := verts rc id in
  let vd := mkVertex (mkVec3 (v0 (sprite1_xyz3 param)) (v1 (sprite1_xyz3 param))
                             (v2 (xyz vd0)))
                     (uv vd0) sc soc in
  let rc := store_vert rc id vd in
  let va := verts rc ia in
  let vb := verts rc ib in
  let vc := verts rc ic in
  let vd := verts rc id in
  let xyz_ba := vec3_sub vm (xyz va) (xyz vb) in
  let xyz_bc := vec3_sub vm (xyz vc) (xyz vb) in
  let '(n, len) := vec3_normalize vm (vec3_cross vm xyz_ba xyz_bc) in
  let d := vec3_dot vm n (xyz vb) in
  if F32.eqb len F32.zero || F32.eqb (v2 n) F32.zero then Ok (rc, false)
  else
    let z := F32.div (F32.sub (F32.sub d (F32.mul (v0 n) (v0 (xyz vd))))
                              (F32.mul (v1 n) (v1 (xyz vd))))
                     (v2 n) in
    let uv_ba := vec2_sub vm (uv va) (uv vb) in
    let uv_bc := vec2_sub vm (uv vc) (uv vb) in
    let uv_d := vec2_add vm (vec2_add vm (uv vb) uv_ba) uv_bc in
    let vd := mkVertex (mkVec3 (v0 (xyz vd)) (v1 (xyz vd)) z) uv_d
                       (color vd) (vx_offset_color vd) in
    Ok (store_vert rc id vd, true).

(** The switch over [tr->vert_type]; the boolean tells whether control
    reaches the end-of-strip test after the switch. *)
Definition parse_vert_switch (t : tr) (rc : tr_context) (data : ta_param)
    : result (tr_context * bool) :=
  let param := p_vert data in
  let continue (r : result tr_context) := rc <- r ;; Ok (rc, true) in
  match vert_type t with
  | 0 =>
      continue (emit_vert rc
        (mkVertex (type0_xyz param) vec2_zero
                  (PARSE_PACKED_COLOR (type0_base_color param)) color_zero))
  | 1 =>
      continue (
        c <- PARSE_FLOAT_COLOR (type1_base_color param) ;;
        emit_vert rc (mkVertex (type1_xyz param) vec2_zero c color_zero))
  | 2 =>
      continue (
        c <- PARSE_INTENSITY (face_color t) (type2_base_intensity param) ;;
        emit_vert rc (mkVertex (type2_xyz param) vec2_zero c color_zero))
  | 3 =>
      continue (emit_vert rc
        (mkVertex (type3_xyz param) (type3_uv param)
                  (PARSE_PACKED_COLOR (type3_base_color param))
                  (PARSE_PACKED_COLOR (type3_offset_color param))))
  | 4 =>
      continue (emit_vert rc
        (mkVertex (type4_xyz param) (PARSE_UV16 (type4_uv param))
                  (PARSE_PACKED_COLOR (type4_base_color param))
                  (PARSE_PACKED_COLOR (type4_offset_color param))))
  | 5 =>
      continue (
        c <- PARSE_FLOAT_COLOR (type5_base_color param) ;;
        oc <- PARSE_FLOAT_COLOR (type5_offset_color param) ;;
        emit_vert rc (mkVertex (type5_xyz param) (type5_uv param) c oc))
  | 6 =>
      continue (
        c <- PARSE_FLOAT_COLOR (type6_base_color param) ;;
        oc <- PARSE_FLOAT_COLOR (type6_offset_color param) ;;
        emit_vert rc (mkVertex (type6_xyz param) (PARSE_UV16 (type6_uv param)) c oc))
  | 7 =>
      continue (
        c <- PARSE_INTENSITY (face_color t) (type7_base_intensity param) ;;
        oc <- PARSE_INTENSITY (face_offset_color t) (type7_offset_intensity param) ;;
        emit_vert rc (mkVertex (type7_xyz param) (type7_uv param) c oc))
  | 8 =>
      continue (
        c <- PARSE_INTENSITY (face_color t) (type8_base_intensity param) ;;
        oc <- PARSE_INTENSITY (face_offset_color t) (type8_offset_intensity param) ;;
        emit_vert rc (mkVertex (type8_xyz param) (PARSE_UV16 (type8_uv param)) c oc))
  | 15 | 16 => parse_sprite t rc data
  | _ => Fatal
  end.

Definition tr_parse_vert_param (t : tr) (rc : tr_context) (data : ta_param)
    : result (tr * tr_context) :=
  if vert_type t =? 17 then Ok (t, rc)
  else
    rc <- match last_vertex t with
          | Some lv =>
              if end_of_strip (p_pcw lv) then tr_reserve_surf rc true else Ok rc
          | None => Ok rc
          end ;;
    let t := set_last_vertex t (Some data) in
    '(rc, reached_end) <- parse_vert_switch t rc data ;;
    if reached_end && end_of_strip (p_pcw data) then
      rc <- tr_commit_surf t rc ;;
      Ok (t, rc)
    else Ok (t, rc).

Definition tr_parse_eol (t : tr) : tr :=
  set_vert_type (set_list_type (set_last_vertex t None) TA_NUM_LISTS) TA_NUM_VERTS.

(** ** Index generator *)

Definition params_eq_dec (a b : surf_params) : {a = b} + {a <> b}.
Proof.
  decide equality;
    try apply Z.eq_dec; try apply Bool.bool_dec; decide equality.
Defined.

(** [a->params.full == b->params.full] *)
Definition tr_can_merge_surfs (a b : ta_surface) : bool :=
  if params_eq_dec (params a) (params b) then true else false.

(** [rc->indices[rc->num_indices++] = v] *)
Definition push_index (rc : tr_context) (v : Z) : tr_context :=
  set_num_indices (set_indices rc (upd (indices rc) (num_indices rc) v))
                  (num_indices rc + 1).

(** The innermost loop: the triangles of one strip, [n] iterations left at
    loop counter [j]. *)
Fixpoint emit_tris (n : nat) (j : Z) (surf : ta_surface) (rc : tr_context)
    : tr_context :=
  match n with
  | O => rc
  | S n' =>
      let strip_offset := strip_offset surf + j in
      let vertex_offset := first_vert surf + j in
      let rc :=
        if negb (Z.land strip_offset 1 =? 0) then
          push_index (push_index (push_index rc (vertex_offset + 0))
                                 (vertex_offset + 1)) (vertex_offset + 2)
        else
          push_index (push_index (push_index rc (vertex_offset + 0))
                                 (vertex_offset + 2)) (vertex_offset + 1) in
      emit_tris n' (j + 1) surf rc
  end.

(** The merging loop over [j]; [n] entries of the list are left. Returns the
    [j] the loop stopped at and the running [num_merged]. *)
Fixpoint merge_run (n : nat) (j : Z) (i : Z) (lt : Z) (num_merged : Z)
    (rc : tr_context) : result (Z * Z * tr_context) :=
  match n with
  | O => Ok (j, num_merged, rc)
  | S n' =>
      let list := lists rc lt in
      let root := surfs rc (l_surfs list i) in
      let surf := surfs rc (l_surfs list j) in
      let is_root := l_surfs list j =? l_surfs list i in
      if negb is_root && negb (tr_can_merge_surfs root surf) then
        Ok (j, num_merged, rc)
      else
        let num_merged := if is_root then num_merged else num_merged + 1 in
        let n_idx := (num_verts surf - 2) * 3 in
        _ <- check (num_indices rc + n_idx <? INDICES_SIZE) ;;
        let rc := emit_tris (Z.to_nat (num_verts surf - 2)) 0 surf rc in
        merge_run n' (j + 1) i lt num_merged rc
  end.

(** The outer loop over groups. Every round consumes at least the root, so
    [fuel] equal to the number of list entries is never exhausted. *)
Fixpoint generate_groups (fuel : nat) (i : Z) (lt : Z) (num_merged : Z)
    (rc : tr_context) : result (Z * tr_context) :=
  if i <? l_num_surfs (lists rc lt) then
    match fuel with
    | O => Undef
    | S fuel' =>
        let first_index := num_indices rc in
        '(j, num_merged, rc) <-
          merge_run (Z.to_nat (l_num_surfs (lists rc lt) - i)) i i lt num_merged rc ;;
        let list := lists rc lt in
        let ri := l_surfs list i in
        let root := surfs rc ri in
        let root := set_first_vert root first_index in
        let root := set_num_verts root (num_indices rc - first_index) in
        let rc := set_surfs rc (upd (surfs rc) ri root) in
        let list := mkList (upd (l_surfs list) (j - num_merged - 1) (l_surfs list i))
                           (l_num_surfs list) (l_num_orig_surfs list) in
        let rc := set_lists rc (upd (lists rc) lt list) in
        generate_groups fuel' j lt num_merged rc
    end
  else Ok (num_merged, rc).

Definition tr_generate_indices (rc : tr_context) (lt : Z) : result tr_context :=
  '(num_merged, rc) <-
    generate_groups (Z.to_nat (l_num_surfs (lists rc lt))) 0 lt 0 rc ;;
  let list := lists rc lt in
  Ok (set_lists rc
        (upd (lists rc) lt
             (mkList (l_surfs list) (l_num_surfs list - num_merged)
                     (l_num_orig_surfs list)))).

(** ** Surface sort *)

(** core/math.h, [MIN] on floats: [a < b ? a : b]. *)
Definition fMIN (a b : float) : float := if F32.ltb a b then a else b.

(** The first [n] cells of an array, and an array with its first cells
    replaced. *)
Definition read_array {A : Type} (a : Z -> A) (n : nat) : list A :=
  map (fun k => a (Z.of_nat k)) (seq 0 n).

Definition write_array {A : Type} (a : Z -> A) (l : list A) : Z -> A :=
  fun j =>
    if (0 <=? j) && (j <? Z.of_nat (length l))
    then nth (Z.to_nat j) l (a j) else a j.

(** Modelled from the spec: [msort_noalloc] of core/sort.h, which is not
    part of the sources. The specification asks for a stable merge sort with
    an auxiliary buffer; [cmp a b] tells that [a] may stay before [b]. *)
Fixpoint merge {A : Type} (cmp : A -> A -> bool) (l1 l2 : list A) : list A :=
  match l1 with
  | [] => l2
  | a1 :: l1' =>
      (fix merge_right (l2 : list A) : list A :=
         match l2 with
         | [] => l1
         | a2 :: l2' =>
             if cmp a1 a2 then a1 :: merge cmp l1' l2
             else a2 :: merge_right l2'
         end) l2
  end.

Fixpoint msort_halves {A : Type} (cmp : A -> A -> bool) (depth : nat)
    (l : list A) : list A :=
  match depth with
  | O => l
  | S depth' =>
      if (length l <? 2)%nat then l
      else
        let mid := Nat.div2 (length l) in
        merge cmp (msort_halves cmp depth' (firstn mid l))
                  (msort_halves cmp depth' (skipn mid l))
  end.

Definition msort {A : Type} (cmp : A -> A -> bool) (l : list A) : list A :=
  msort_halves cmp (length l) l.

Definition msort_noalloc (cmp : Z -> Z -> bool) (data : Z -> Z) (num : Z)
    : Z -> Z :=
  write_array data (msort cmp (read_array data (Z.to_nat num))).

(** [tr_compare_surf], over the global [sort_minz]. *)
Definition tr_compare_surf (sort_minz : Z -> float) (i j : Z) : bool :=
  F32.leb (sort_minz i) (sort_minz j).

(** The minimum depth of the triangle a surface holds. *)
Definition surf_minz (rc : tr_context) (surf : ta_surface) : float :=
  let z k := v2 (xyz (verts rc (first_vert surf + k))) in
  fMIN (fMIN (z 0) (z 1)) (z 2).

(** The loop filling [sort_minz], [n] entries left at counter [i]. *)
Fixpoint fill_minz (n : nat) (i : Z) (list : tr_list) (rc : tr_context)
    (sort_minz : Z -> float) : result (Z -> float) :=
  match n with
  | O => Ok sort_minz
  | S n' =>
      let surf_index := l_surfs list i in
      let surf := surfs rc surf_index in
      _ <- check (num_verts surf =? 3) ;;
      fill_minz n' (i + 1) list rc (upd sort_minz surf_index (surf_minz rc surf))
  end.

Definition tr_sort_surfaces (sort_minz : Z -> float) (rc : tr_context) (lt : Z)
    : result ((Z -> float) * tr_context) :=
  let list := lists rc lt in
  sort_minz <- fill_minz (Z.to_nat (l_num_surfs list)) 0 list rc sort_minz ;;
  let sorted :=
    msort_noalloc (tr_compare_surf sort_minz) (l_surfs list) (l_num_surfs list) in
  Ok (sort_minz,
      set_lists rc
        (upd (lists rc) lt
             (mkList sorted (l_num_surfs list) (l_num_orig_surfs list)))).

(** ** Reset *)

Definition tr_reset_state : tr :=
  mkTr None TA_NUM_LISTS TA_NUM_VERTS color_zero color_zero color_zero color_zero.

Definition reset_list (l : tr_list) : tr_list := mkList (l_surfs l) 0 0.

Definition tr_reset (rc : tr_context) : tr * tr_context :=
  (tr_reset_state,
   mkContext (width rc) (height rc) (rc_params rc) 0 (surfs rc) 0 (verts rc) 0
             (indices rc) 0
             (fun i =>
                if (0 <=? i) && (i <? TA_NUM_LISTS) then reset_list (lists rc i)
                else lists rc i)).

(** ** Render driver *)

(** The walk of [tr_render_list] over the entries that are left; returns
    the calls it makes and the [stopped] flag. *)
Fixpoint render_entries (entries : list Z) (end_surf : Z)
    : list backend_call * bool :=
  match entries with
  | [] => ([], false)
  | surf :: rest =>
      if surf =? end_surf then ([DrawTaSurface surf], true)
      else
        let '(cs, stopped) := render_entries rest end_surf in
        (DrawTaSurface surf :: cs, stopped)
  end.

Definition tr_render_list (rc : tr_context) (lt : Z) (end_surf : Z)
    (stopped : bool) : list backend_call * bool :=
  if stopped then ([], stopped)
  else
    let list := lists rc lt in
    render_entries (read_array (l_surfs list) (Z.to_nat (l_num_surfs list)))
                   end_surf.

Definition tr_render_context_until (rc : tr_context) (end_surf : Z)
    : list backend_call :=
  let stopped := false in
  let c0 := [BeginTaSurfaces (width rc) (height rc) (verts rc) (rc_num_verts rc)
                             (indices rc) (num_indices rc)] in
  let '(c1, stopped) := tr_render_list rc TA_LIST_OPAQUE end_surf stopped in
  let '(c2, stopped) := tr_render_list rc TA_LIST_PUNCH_THROUGH end_surf stopped in
  let '(c3, stopped) := tr_render_list rc TA_LIST_TRANSLUCENT end_surf stopped in
  c0 ++ c1 ++ c2 ++ c3 ++ [EndTaSurfaces].

Definition tr_render_context (rc : tr_context) : list backend_call :=
  tr_render_context_until rc (-1).

(** ** Stream driver *)

(** The main walk of [tr_convert_context]; [offset] is [data - ctx->params]. *)
Fixpoint walk_params (ps : list ta_param) (offset : Z) (w : world) (t : tr)
    (ctx : ta_context) (rc : tr_context) : result (world * tr * tr_context) :=
  match ps with
  | [] => Ok (w, t, rc)
  | data :: rest =>
      let pcw := p_pcw data in
      let t :=
        if ta_pcw_list_type_valid fe pcw (list_type t)
        then set_list_type t (pcw_list_type pcw) else t in
      '(w, t, rc) <-
        match para_type pcw with
        | 0 => Ok (w, tr_parse_eol t, rc)
        | 1 => Ok (w, t, rc)
        | 2 => Fatal
        | 4 | 5 => tr_parse_poly_param w t ctx rc data
        | 7 =>
            '(t, rc) <- tr_parse_vert_param t rc data ;;
            Ok (w, t, rc)
        | _ => Ok (w, t, rc)
        end ;;
      let rp := mkTrParam offset (list_type t) (vert_type t)
                          (num_surfs rc - 1) (rc_num_verts rc - 1) in
      let rc := set_rc_params rc (upd (rc_params rc) (num_params rc) rp)
                              (num_params rc + 1) in
      walk_params rest (offset + ta_param_size fe pcw (vert_type t)) w t ctx rc
  end.

(** The closing loop over the five lists. *)
Fixpoint generate_all (n : nat) (i : Z) (rc : tr_context) : result tr_context :=
  match n with
  | O => Ok rc
  | S n' =>
      rc <- tr_generate_indices rc i ;;
      generate_all n' (i + 1) rc
  end.

(** [sort_minz] is the global scratch array of the sort. *)
Definition tr_convert_context (w : world) (sort_minz : Z -> float)
    (ctx : ta_context) (rc : tr_context)
    : result (world * (Z -> float) * tr_context) :=
  let '(t, rc) := tr_reset rc in
  let rc := set_size rc (video_width ctx) (video_height ctx) in
  '(w, t, rc) <- tr_parse_bg w t ctx rc ;;
  '(w, t, rc) <- walk_params (ctx_params ctx) 0 w t ctx rc ;;
  '(sort_minz, rc) <-
    (if autosort ctx then
       '(sort_minz, rc) <- tr_sort_surfaces sort_minz rc TA_LIST_TRANSLUCENT ;;
       tr_sort_surfaces sort_minz rc TA_LIST_PUNCH_THROUGH
     else Ok (sort_minz, rc)) ;;
  rc <- generate_all (Z.to_nat TA_NUM_LISTS) 0 rc ;;
  Ok (w, sort_minz, rc).

End Capacities.

(** ** Definitions used to state the properties *)

(** Byte [k / 8] of a word. *)
Definition byte_at (w k : Z) : Z := Z.land (Z.shiftr w k) 255.


(** The three indices written from position [p] on. *)
Definition index_triple (rc : tr_context) (p : Z) : Z * Z * Z :=
  (indices rc p, indices rc (p + 1), indices rc (p + 2)).


(** The entries of a list of the render context, in order. *)
Definition list_entries (rc : tr_context) (lt : Z) : list Z :=
  read_array (l_surfs (lists rc lt)) (Z.to_nat (l_num_surfs (lists rc lt))).

(** The prefix of [l] up to and including the first occurrence of [e];
    all of [l] when [e] does not occur. *)
Fixpoint upto_incl (e : Z) (l : list Z) : list Z :=
  match l with
  | [] => []
  | x :: rest => if x =? e then [x] else x :: upto_incl e rest
  end.


(** ** Concrete inputs on which the properties are exercised *)

Definition ex_list_empty : tr_list := mkList (fun _ => 0) 0 0.

Definition ex_rc_blank : tr_context :=
  mkContext 0 0 (fun _ => mkTrParam 0 0 0 0 0) 0 (fun _ => surf_zero) 0
            (fun _ => vert_zero) 0 (fun _ => 0) 0 (fun _ => ex_list_empty).

(** One committed surface of four vertices and a staged strip of four. *)
Definition ex_rc_strip4 : tr_context :=
  set_rc_num_verts
    (set_num_surfs
       (set_surfs ex_rc_blank
                  (upd (surfs ex_rc_blank) 1 (mkSurface params_zero 4 4 0))) 1) 4.

Definition ex_tr (lt vt : Z) : tr :=
  mkTr None lt vt color_zero color_zero color_zero color_zero.


(** An instance of the front-end contract that follows the parameter
    format of the hardware: the colour type is bits 4-5 of the control
    word, bit 0 selects 16-bit texture coordinates and bit 6 two-volume
    parameters. It is used to run the renderer on concrete streams. *)
Definition hw_col_type (p : pcw) : Z := Z.land (Z.shiftr (pcw_full p) 4) 3.
Definition hw_uv_16bit (p : pcw) : bool := Z.testbit (pcw_full p) 0.
Definition hw_volume (p : pcw) : bool := Z.testbit (pcw_full p) 6.

Definition hw_is_modvol (p : pcw) : bool :=
  (pcw_list_type p =? TA_LIST_OPAQUE_MODVOL) ||
  (pcw_list_type p =? TA_LIST_TRANSLUCENT_MODVOL).

Definition hw_poly_type (p : pcw) : Z :=
  if hw_is_modvol p then 6
  else if para_type p =? TA_PARAM_SPRITE then 5
  else if hw_volume p then (if hw_col_type p =? 2 then 4 else 3)
  else if hw_col_type p =? 2 then
    (if pcw_texture p && pcw_offset p then 2 else 1)
  else 0.

Definition hw_vert_type (p : pcw) : Z :=
  if hw_is_modvol p then 17
  else if para_type p =? TA_PARAM_SPRITE then (if pcw_texture p then 16 else 15)
  else if hw_volume p then
    (if pcw_texture p then
       (if hw_uv_16bit p then (if hw_col_type p =? 0 then 12 else 14)
        else (if hw_col_type p =? 0 then 11 else 13))
     else (if hw_col_type p =? 0 then 9 else 10))
  else if pcw_texture p then
    (if hw_uv_16bit p then
       (if hw_col_type p =? 0 then 4 else if hw_col_type p =? 1 then 6 else 8)
     else
       (if hw_col_type p =? 0 then 3 else if hw_col_type p =? 1 then 5 else 7))
  else
    (if hw_col_type p =? 0 then 0 else if hw_col_type p =? 1 then 1 else 2).

Definition hw_list_type_valid (p : pcw) (current_list_type : Z) : bool :=
  (current_list_type =? TA_NUM_LISTS) &&
  ((para_type p =? TA_PARAM_OBJ_LIST_SET) ||
   (para_type p =? TA_PARAM_POLY_OR_VOL) ||
   (para_type p =? TA_PARAM_SPRITE)).

Definition hw_param_size (p : pcw) (vert_type : Z) : Z :=
  if (para_type p =? TA_PARAM_POLY_OR_VOL) || (para_type p =? TA_PARAM_SPRITE) then
    (if (hw_poly_type p =? 2) || (hw_poly_type p =? 4) then 64 else 32)
  else if para_type p =? TA_PARAM_VERTEX then
    (if (vert_type =? 5) || (vert_type =? 6) || ((11 <=? vert_type) && (vert_type <=? 17))
     then 64 else 32)
  else 32.

Definition hw_frontend : frontend :=
  mkFrontend hw_vert_type hw_poly_type hw_list_type_valid hw_param_size
             (fun c => pixel_fmt c) (fun _ => 0) (fun _ _ => 8) (fun _ _ => 8)
             (fun _ _ s => s) (fun _ _ _ _ _ _ _ _ => [])
             (fun cs => 1 + Z.of_nat (length cs)).

(** Modelled from the spec: the vector helpers of core/math.h, which is
    not part of the sources, in binary32 arithmetic: the cross product,
    the dot product and the length [|n|] that the specification names;
    [vec3_normalize] returns the length and divides by it when it is not
    zero. *)
Definition f32_vec3_add (a b : vec3) : vec3 :=
  mkVec3 (F32.add (v0 a) (v0 b)) (F32.add (v1 a) (v1 b)) (F32.add (v2 a) (v2 b)).
Definition f32_vec3_sub (a b : vec3) : vec3 :=
  mkVec3 (F32.sub (v0 a) (v0 b)) (F32.sub (v1 a) (v1 b)) (F32.sub (v2 a) (v2 b)).
Definition f32_vec3_cross (a b : vec3) : vec3 :=
  mkVec3 (F32.sub (F32.mul (v1 a) (v2 b)) (F32.mul (v2 a) (v1 b)))
         (F32.sub (F32.mul (v2 a) (v0 b)) (F32.mul (v0 a) (v2 b)))
         (F32.sub (F32.mul (v0 a) (v1 b)) (F32.mul (v1 a) (v0 b))).
Definition f32_vec3_dot (a b : vec3) : float :=
  F32.add (F32.add (F32.mul (v0 a) (v0 b)) (F32.mul (v1 a) (v1 b)))
          (F32.mul (v2 a) (v2 b)).
Definition f32_vec3_normalize (a : vec3) : vec3 * float :=
  let len := F32.sqrt (f32_vec3_dot a a) in
  if F32.eqb len F32.zero then (a, len)
  else (mkVec3 (F32.div (v0 a) len) (F32.div (v1 a) len) (F32.div (v2 a) len), len).
Definition f32_vec2_add (a b : vec2) : vec2 :=
  mkVec2 (F32.add (u0 a) (u0 b)) (F32.add (u1 a) (u1 b)).
Definition f32_vec2_sub (a b : vec2) : vec2 :=
  mkVec2 (F32.sub (u0 a) (u0 b)) (F32.sub (u1 a) (u1 b)).

Definition f32_vecmath : vecmath :=
  mkVecmath f32_vec3_add f32_vec3_sub f32_vec3_cross f32_vec3_dot
            f32_vec3_normalize f32_vec2_add f32_vec2_sub.

(** Parameters of a stream. *)
Definition ex_pcw (para lt : Z) (eos : bool) : pcw := mkPcw 0 false false lt para eos.

Definition ex_fcolor : fcolor := mkFColor F32.zero F32.zero F32.zero F32.zero.
Definition ex_uv16 : uv16 := mkUv16 0 0.
Definition ex_tsp : tsp := mkTsp 0 0 0 0 false false 0 false false false false.
Definition ex_tcw : tcw := mkTcw 0 0.
Definition ex_isp (depth_mode : Z) : isp := mkIsp false false false depth_mode 0.

Definition ex_poly (depth_mode : Z) : poly_param :=
  mkPolyParam (ex_isp depth_mode) ex_tsp ex_tcw ex_fcolor ex_fcolor ex_fcolor 0 0.

(** A vertex parameter whose views all hold the same position, packed
    colour and intensity; the sprite view holds the quad [a b c d]. *)
Definition ex_vert (p : vec3) (col : Z) (inten : float) (a b c d : vec3)
    : vert_param :=
  mkVertParam p col p ex_fcolor p inten
              p vec2_zero col col p ex_uv16 col col
              p vec2_zero ex_fcolor ex_fcolor p ex_uv16 ex_fcolor ex_fcolor
              p vec2_zero inten inten p ex_uv16 inten inten
              a b c d ex_uv16 ex_uv16 ex_uv16.

Definition ex_point (x y z : Z) : vec3 :=
  mkVec3 (F32.of_Z x) (F32.of_Z y) (F32.of_Z z).

Definition ex_poly_param (para lt : Z) (depth_mode : Z) : ta_param :=
  mkParam (ex_pcw para lt false) (ex_poly depth_mode)
          (ex_vert vec3_zero 0 F32.zero vec3_zero vec3_zero vec3_zero vec3_zero).

Definition ex_vert_param (eos : bool) (p : vec3) (col : Z) : ta_param :=
  mkParam (ex_pcw TA_PARAM_VERTEX 0 eos) (ex_poly 0)
          (ex_vert p col F32.zero vec3_zero vec3_zero vec3_zero vec3_zero).

Definition ex_world : world := mkWorld (fun _ _ => None) [].

Definition ex_ctx (autosort : bool) (ps : list ta_param) : ta_context :=
  mkTaContext autosort 0 0 0 640 480 (ex_isp 0) ex_tsp ex_tcw (fun _ => 0) ps.


(** ** Vocabulary of the vertex handler properties *)

(** The cell of [rc->verts] that the handler fills first: a strip that
    continues adds to the staged surface, a new strip starts a surface. *)
Definition next_vert_index (t : tr) (rc : tr_context) : Z :=
  match last_vertex t with
  | Some lv =>
      if end_of_strip (p_pcw lv) then rc_num_verts rc
      else rc_num_verts rc + num_verts (surfs rc (num_surfs rc))
  | None => rc_num_verts rc + num_verts (surfs rc (num_surfs rc))
  end.

(** The intensity fields of the vertex types 2, 7 and 8. *)
Definition base_intensity (vt : Z) (param : vert_param) : float :=
  if vt =? 2 then type2_base_intensity param
  else if vt =? 7 then type7_base_intensity param
  else type8_base_intensity param.

Definition offset_intensity (vt : Z) (param : vert_param) : float :=
  if vt =? 7 then type7_offset_intensity param
  else type8_offset_intensity param.

(** The channels of a [uint8_t[4]] are bytes. *)
Definition color_bytes (c : color4) : Prop :=
  0 <= c0 c <= 255 /\ 0 <= c1 c <= 255 /\ 0 <= c2 c <= 255 /\ 0 <= c3 c <= 255.

(** A transient state holding face colours. *)
Definition ex_tr_faces (lt vt : Z) (fc foc : color4) : tr :=
  mkTr None lt vt fc foc color_zero color_zero.

Definition ex_intensity_param (eos : bool) (inten : float) : ta_param :=
  mkParam (ex_pcw TA_PARAM_VERTEX 0 eos) (ex_poly 0)
          (ex_vert (ex_point 1 2 3) 0 inten vec3_zero vec3_zero vec3_zero vec3_zero).






(** ** Vocabulary of the sort properties *)

(** A rank of the floats that are not NaN, ordered lexicographically the
    way the comparison orders them. *)
Definition fkey (f : float) : Z * Z * Z :=
  match f with
  | S754_zero _ => (0, 0, 0)
  | S754_infinity s => (if s then -2 else 2, 0, 0)
  | S754_nan => (3, 0, 0)
  | S754_finite s m e => if s then (-1, - e, - Zpos m) else (1, e, Zpos m)
  end.

Definition lexle (a b : Z * Z * Z) : bool :=
  let '(a1, a2, a3) := a in
  let '(b1, b2, b3) := b in
  (a1 <? b1) || ((a1 =? b1) && ((a2 <? b2) || ((a2 =? b2) && (a3 <=? b3)))).

(** The depth by which an entry of a list is sorted. *)
Definition entry_minz (rc : tr_context) (e : Z) : float :=
  surf_minz rc (surfs rc e).

(** Adjacent entries of a list are in ascending depth order. *)
Definition sorted_adjacent (rc : tr_context) (lt : Z) : Prop :=
  forall k, 0 <= k -> k + 1 < l_num_surfs (lists rc lt) ->
    F32.leb (entry_minz rc (l_surfs (lists rc lt) k))
            (entry_minz rc (l_surfs (lists rc lt) (k + 1))) = true.

(** The entries of equal depth [x] keep their order: they form the same
    subsequence before ([rc]) and after ([rc']) the sort. *)
Definition ties_keep_order (rc rc' : tr_context) (lt : Z) : Prop :=
  forall x : float,
    filter (fun e => F32.eqb (entry_minz rc e) x) (list_entries rc' lt) =
    filter (fun e => F32.eqb (entry_minz rc e) x) (list_entries rc lt).

(** No entry of the list has a NaN depth. *)
Definition no_nan_minz (rc : tr_context) (lt : Z) : Prop :=
  forall e, In e (list_entries rc lt) -> F32.is_nan (entry_minz rc e) = false.

(** Every entry of the list is one triangle. *)
Definition all_triangles (rc : tr_context) (lt : Z) : Prop :=
  forall e, In e (list_entries rc lt) -> num_verts (surfs rc e) = 3.


(** Two translucent triangles, committed in the order 0, 1; the vertices of
    the first lie at depth [z0], those of the second at depth [z1]. *)
Definition ex_rc_two (z0 z1 : float) : tr_context :=
  mkContext 0 0 (fun _ => mkTrParam 0 0 0 0 0) 0
            (fun i => if i =? 0 then mkSurface params_zero 0 3 0
                      else mkSurface params_zero 3 3 0) 2
            (fun i => mkVertex (mkVec3 F32.zero F32.zero (if i <? 3 then z0 else z1))
                               vec2_zero color_zero color_zero) 6
            (fun _ => 0) 0
            (fun lt => if lt =? TA_LIST_TRANSLUCENT then mkList (fun k => k) 2 2
                       else ex_list_empty).


(** A render context left over from an earlier frame: other counters and
    other vertex contents than [ex_rc_blank]. *)
Definition ex_rc_prior : tr_context :=
  mkContext 320 240 (fun _ => mkTrParam 0 0 0 0 0) 9 (fun _ => surf_zero) 7
            (fun _ => mkVertex (ex_point 9 9 9) vec2_zero (mkColor 1 2 3 4) color_zero)
            40 (fun _ => 0) 33 (fun _ => mkList (fun _ => 0) 7 7).

(** A stream holding one translucent strip of a single vertex. *)
Definition ex_stream_short_strip : list ta_param :=
  [ex_poly_param TA_PARAM_POLY_OR_VOL TA_LIST_TRANSLUCENT 6;
   ex_vert_param true (ex_point 1 2 3) 0x11223344].


(** ** Vocabulary of the texture resolver properties *)

(** The sampler state the resolver derives from the [tsp] word. *)
Definition tsp_filter (s : tsp) : filter_mode :=
  if tsp_filter_mode s =? 0 then FILTER_NEAREST else FILTER_BILINEAR.

Definition tsp_wrap (clamp flip : bool) : wrap_mode :=
  if clamp then WRAP_CLAMP_TO_EDGE
  else if flip then WRAP_MIRRORED_REPEAT else WRAP_REPEAT.

(** A cache holding one entry, for the register pair (0, 0). *)
Definition ex_entry (handle : Z) (dirty : bool) : tr_texture :=
  mkTexture handle dirty FILTER_NEAREST WRAP_REPEAT WRAP_REPEAT 0 0 0 [] [].

Definition ex_world_entry (handle : Z) (dirty : bool) : world :=
  mkWorld (fun a b => if (a =? 0) && (b =? 0) then Some (ex_entry handle dirty)
                      else None) [].


(** The vertex types the handler decodes. *)
Definition supported_vert_type (vt : Z) : bool :=
  ((0 <=? vt) && (vt <=? 8)) || (vt =? 15) || (vt =? 16) || (vt =? 17).


(** The position field of the vertex types 0 to 8. *)
Definition vert_xyz (vt : Z) (param : vert_param) : vec3 :=
  match vt with
  | 0 => type0_xyz param | 1 => type1_xyz param | 2 => type2_xyz param
  | 3 => type3_xyz param | 4 => type4_xyz param | 5 => type5_xyz param
  | 6 => type6_xyz param | 7 => type7_xyz param | 8 => type8_xyz param
  | _ => vec3_zero
  end.

(** The previous vertex parameter closed its strip. *)
Definition starts_new_strip (t : tr) : bool :=
  match last_vertex t with
  | Some lv => end_of_strip (p_pcw lv)
  | None => false
  end.

(** A transient state whose last vertex closed a strip. *)
Definition ex_tr_after_strip (lt vt : Z) : tr :=
  mkTr (Some (ex_vert_param true (ex_point 0 0 1) 0)) lt vt
       color_zero color_zero color_zero color_zero.


(** The entries the render driver walks, in its order. *)
Definition drawn_entries (rc : tr_context) : list Z :=
  list_entries rc TA_LIST_OPAQUE ++ list_entries rc TA_LIST_PUNCH_THROUGH ++
  list_entries rc TA_LIST_TRANSLUCENT.

(** A context whose three drawn lists hold the entries 0; 1; 2. *)
Definition ex_rc_lists : tr_context :=
  mkContext 640 480 (fun _ => mkTrParam 0 0 0 0 0) 0 (fun _ => surf_zero) 3
            (fun _ => vert_zero) 0 (fun _ => 0) 0
            (fun lt => if lt =? TA_LIST_OPAQUE then mkList (fun _ => 0) 1 1
                       else if lt =? TA_LIST_PUNCH_THROUGH then mkList (fun _ => 1) 1 1
                       else if lt =? TA_LIST_TRANSLUCENT then mkList (fun _ => 2) 1 1
                       else ex_list_empty).


(** Two contexts with the same diagnostic trail. *)
Definition same_trail (rc rc' : tr_context) : Prop :=
  num_params rc' = num_params rc /\ rc_params rc' = rc_params rc.


(** ** Vocabulary of the index generator properties *)

(** The index ranges of the surfaces [roots], in order, tile [a, b): each
    starts where the previous one ends and holds whole triangles. *)
Fixpoint tiled (sf : Z -> ta_surface) (roots : list Z) (a b : Z) : Prop :=
  match roots with
  | [] => a = b
  | r :: rest =>
      first_vert (sf r) = a /\ 0 <= num_verts (sf r) /\
      num_verts (sf r) mod 3 = 0 /\
      tiled sf rest (a + num_verts (sf r)) b
  end.

(** Neighbours in [roots] differ in their state bits. *)
Fixpoint adjacent_differ (sf : Z -> ta_surface) (roots : list Z) : Prop :=
  match roots with
  | [] => True
  | r :: rest =>
      match rest with
      | [] => True
      | r' :: _ => params (sf r) <> params (sf r')
      end /\ adjacent_differ sf rest
  end.

(** The sum of the index counts of the surfaces [roots]. *)
Definition total_verts (sf : Z -> ta_surface) (roots : list Z) : Z :=
  fold_right (fun r acc => num_verts (sf r) + acc) 0 roots.

(** Two opaque strips with the same state followed by one with another. *)
Definition ex_rc_three : tr_context :=
  mkContext 0 0 (fun _ => mkTrParam 0 0 0 0 0) 0
            (fun i => if i =? 0 then mkSurface params_zero 0 4 0
                      else if i =? 1 then mkSurface params_zero 4 3 0
                      else mkSurface (mkSurfParams 7 false DEPTH_NONE CULL_NONE
                                        BLEND_NONE BLEND_NONE SHADE_DECAL false false
                                        false false 0) 7 3 0) 3
            (fun _ => vert_zero) 10 (fun _ => 0) 0
            (fun lt => if lt =? TA_LIST_OPAQUE then mkList (fun k => k) 3 3
                       else ex_list_empty).

(** The state of the outer loop of the index generator when it is at entry
    [i] with [nm] entries merged so far: [roots] are the surfaces that head
    the groups closed so far, [rc0] is the context the generator started
    from. *)
Definition group_inv (lt : Z) (rc0 : tr_context) (i nm : Z) (rc : tr_context)
    (roots : list Z) : Prop :=
  let N := l_num_surfs (lists rc0 lt) in
  let L0 k := l_surfs (lists rc0 lt) k in
  0 <= i <= N /\ 0 <= nm /\
  l_num_surfs (lists rc lt) = N /\
  l_num_orig_surfs (lists rc lt) = l_num_orig_surfs (lists rc0 lt) /\
  Z.of_nat (length roots) = i - nm /\
  (forall k, i <= k < N -> l_surfs (lists rc lt) k = L0 k) /\
  (forall q, (q < length roots)%nat ->
     l_surfs (lists rc lt) (Z.of_nat q) = nth q roots 0) /\
  (forall e, ~ In e roots -> surfs rc e = surfs rc0 e) /\
  (forall r, In r roots -> exists k, 0 <= k < i /\ r = L0 k) /\
  NoDup roots /\
  (forall r, In r roots -> params (surfs rc r) = params (surfs rc0 r)) /\
  tiled (surfs rc) roots (num_indices rc0) (num_indices rc) /\
  adjacent_differ (surfs rc0) roots /\
  (roots <> [] -> i < N ->
     params (surfs rc0 (last roots 0)) <> params (surfs rc0 (L0 i))) /\
  verts rc = verts rc0 /\ num_surfs rc = num_surfs rc0 /\
  rc_num_verts rc = rc_num_verts rc0 /\
  (forall o, o <> lt -> lists rc o = lists rc0 o).

(** The entries of the list are pairwise different surfaces. *)
Definition distinct_entries (rc : tr_context) (lt : Z) : Prop :=
  forall k1 k2,
    0 <= k1 < l_num_surfs (lists rc lt) -> 0 <= k2 < l_num_surfs (lists rc lt) ->
    l_surfs (lists rc lt) k1 = l_surfs (lists rc lt) k2 -> k1 = k2.

(** One round of the outer loop after its merging loop returned [j],
    [nm'] and [rc1]: the root is rewritten and the list is compacted. *)
Definition close_group (lt i j nm' first_index : Z) (rc1 : tr_context) : tr_context :=
  let list := lists rc1 lt in
  let ri := l_surfs list i in
  let root := surfs rc1 ri in
  let root := set_first_vert root first_index in
  let root := set_num_verts root (num_indices rc1 - first_index) in
  let rc := set_surfs rc1 (upd (surfs rc1) ri root) in
  let list := mkList (upd (l_surfs list) (j - nm' - 1) (l_surfs list i))
                     (l_num_surfs list) (l_num_orig_surfs list) in
  set_lists rc (upd (lists rc) lt list).


(** ** Vocabulary of the index generator properties, continued *)

(** The triangle at position [t] of strip [s], as the index generator has
    to emit it: with [v = s.first_vert + t] it is [(v, v+1, v+2)] when
    [s.strip_offset + t] is odd and [(v, v+2, v+1)] otherwise. *)
Definition winding_triple (s : ta_surface) (t : Z) : Z * Z * Z :=
  let v := first_vert s + t in
  if Z.odd (strip_offset s + t) then (v, v + 1, v + 2) else (v, v + 2, v + 1).

(** The number of triangles in a strip. *)
Definition strip_tris (s : ta_surface) : Z := Z.max 0 (num_verts s - 2).

(** The number of triangles in the strips of the first [k] entries of a
    list. *)
Fixpoint tris_upto (sf : Z -> ta_surface) (L : Z -> Z) (k : nat) : Z :=
  match k with
  | O => 0
  | S k' => tris_upto sf L k' + strip_tris (sf (L (Z.of_nat k')))
  end.

Definition tris_before (rc : tr_context) (lt k : Z) : Z :=
  tris_upto (surfs rc) (l_surfs (lists rc lt)) (Z.to_nat k).

(** The maximal runs of neighbouring entries with the same state bits. *)
Fixpoint runs (sf : Z -> ta_surface) (l : list Z) : list (list Z) :=
  match l with
  | [] => []
  | e :: rest =>
      match runs sf rest with
      | (h :: g) :: rs =>
          if params_eq_dec (params (sf e)) (params (sf h))
          then (e :: h :: g) :: rs else [e] :: (h :: g) :: rs
      | _ => [[e]]
      end
  end.

(** The number of triangles in the strips of the entries [g]. *)
Definition tris_of (sf : Z -> ta_surface) (g : list Z) : Z :=
  fold_right (fun e acc => strip_tris (sf e) + acc) 0 g.

(** The first entry of every group of [groups] is, in [sf'], the surface
    it was in [sf] rewritten to the range of the index array that holds the
    triangles of its group; the ranges follow one another from [a] to [b]. *)
Fixpoint group_ranges (sf' sf : Z -> ta_surface) (groups : list (list Z))
    (a b : Z) : Prop :=
  match groups with
  | [] => a = b
  | g :: rest =>
      sf' (hd 0 g) =
        set_num_verts (set_first_vert (sf (hd 0 g)) a) (3 * tris_of sf g) /\
      group_ranges sf' sf rest (a + 3 * tris_of sf g) b
  end.

(** The entries [i .. j-1] of an array. *)
Definition slice (a : Z -> Z) (i j : Z) : list Z :=
  map (fun k => a (i + Z.of_nat k)) (seq 0 (Z.to_nat (j - i))).

(** A group of entries that share the state bits of their first entry. *)
Definition same_state (sf : Z -> ta_surface) (g : list Z) : Prop :=
  g <> [] /\ forall e, In e g -> params (sf e) = params (sf (hd 0 g)).

(** What the outer loop of the index generator has established at entry
    [i]: the entries before [i] fall into [groups], whose first entries are
    the compacted list, and their triangles are in the index array. *)
Definition gen_inv (lt : Z) (rc0 : tr_context) (i nm : Z) (rc : tr_context)
    (groups : list (list Z)) : Prop :=
  let L0 k := l_surfs (lists rc0 lt) k in
  group_inv lt rc0 i nm rc (map (hd 0) groups) /\
  concat groups = read_array L0 (Z.to_nat i) /\
  Forall (same_state (surfs rc0)) groups /\
  group_ranges (surfs rc) (surfs rc0) groups (num_indices rc0) (num_indices rc) /\
  num_indices rc = num_indices rc0 + 3 * tris_before rc0 lt i /\
  (forall p, p < num_indices rc0 -> indices rc p = indices rc0 p) /\
  (forall k t, 0 <= k < i -> 0 <= t < num_verts (surfs rc0 (L0 k)) - 2 ->
     index_triple rc (num_indices rc0 + 3 * (tris_before rc0 lt k + t)) =
     winding_triple (surfs rc0 (L0 k)) t).

(** ** Vocabulary of the sort and sprite properties, continued *)

(** The depth of vertex [k] of the triangle that entry [e] holds. *)
Definition vertex_z (rc : tr_context) (e k : Z) : float :=
  v2 (xyz (verts rc (first_vert (surfs rc e) + k))).

(** [m] is the minimum of [a], [b] and [c]: it is one of them and no
    other is below it. *)
Definition is_min3 (m a b c : float) : Prop :=
  (m = a \/ m = b \/ m = c) /\
  F32.leb m a = true /\ F32.leb m b = true /\ F32.leb m c = true.

(** The depth by which every entry of the list is sorted is the minimum of
    the depths of its three vertices. *)
Definition minz_is_minimum (rc : tr_context) (lt : Z) : Prop :=
  forall e, In e (list_entries rc lt) ->
    is_min3 (entry_minz rc e) (vertex_z rc e 0) (vertex_z rc e 1) (vertex_z rc e 2).

(** No vertex of an entry of the list has a NaN depth. *)
Definition no_nan_depths (rc : tr_context) (lt : Z) : Prop :=
  forall e k, In e (list_entries rc lt) -> 0 <= k <= 2 ->
    F32.is_nan (vertex_z rc e k) = false.






(** ** Vocabulary of the commit properties *)

(** The lists of a render context refer to committed surfaces, each list
    to pairwise different ones. *)
Definition lists_wf (rc : tr_context) : Prop :=
  0 <= num_surfs rc /\
  forall lt, 0 <= lt < TA_NUM_LISTS ->
    0 <= l_num_surfs (lists rc lt) /\
    (forall k, 0 <= k < l_num_surfs (lists rc lt) ->
       0 <= l_surfs (lists rc lt) k < num_surfs rc) /\
    distinct_entries rc lt.

(** Two contexts with the same lists and the same surface count. *)
Definition same_lists (rc rc' : tr_context) : Prop :=
  lists rc' = lists rc /\ num_surfs rc' = num_surfs rc.

(** A stream holding one translucent strip of four vertices. *)
Definition ex_stream_quad : list ta_param :=
  [ex_poly_param TA_PARAM_POLY_OR_VOL TA_LIST_TRANSLUCENT 6;
   ex_vert_param false (ex_point 0 0 1) 0x11223344;
   ex_vert_param false (ex_point 0 1 1) 0x11223344;
   ex_vert_param false (ex_point 1 0 1) 0x11223344;
   ex_vert_param true (ex_point 1 1 1) 0x11223344].

(* ================================================================== *)
(** * Properties *)

(** ** Colour decoders *)

Lemma testbit_mask (k n : Z) : 0 <= k -> 0 <= n ->
  Z.testbit (Z.shiftl 255 k) n = (k <=? n) && (n <? k + 8).
Proof.
  intros Hk Hn. change 255 with (Z.ones 8).
  rewrite Z.shiftl_spec by lia.
  destruct (Z.leb_spec k n); cbn [andb].
  - rewrite Z.testbit_ones by lia.
    destruct (Z.leb_spec 0 (n - k)), (Z.ltb_spec (n - k) 8), (Z.ltb_spec n (k + 8));
      cbn [andb]; lia.
  - apply Z.testbit_neg_r. lia.
Qed.

Lemma to_u8_land (v : Z) : to_u8 v = Z.land v 255.
Proof.
  unfold to_u8. change 255 with (Z.ones 8).
  rewrite Z.land_ones by lia. reflexivity.
Qed.

Lemma to_u8_small (v : Z) : 0 <= v <= 255 -> to_u8 v = v.
Proof. intros H. unfold to_u8. apply Z.mod_small. lia. Qed.

Lemma byte_at_testbit (w k n : Z) : 0 <= k -> 0 <= n ->
  Z.testbit (byte_at w k) n = Z.testbit w (n + k) && (n <? 8).
Proof.
  intros Hk Hn. unfold byte_at. rewrite Z.land_spec, Z.shiftr_spec by lia.
  change 255 with (Z.ones 8). rewrite Z.testbit_ones by lia.
  destruct (Z.leb_spec 0 n); try lia. reflexivity.
Qed.

Lemma byte_at_range (w k : Z) : 0 <= byte_at w k <= 255.
Proof.
  unfold byte_at. change 255 with (Z.ones 8) at 1 2.
  rewrite Z.land_ones by lia.
  pose proof (Z.mod_pos_bound (Z.shiftr w k) (2 ^ 8) ltac:(lia)). lia.
Qed.

Lemma masked_byte (w k : Z) : 0 <= k ->
  to_u8 (Z.shiftr (Z.land w (Z.shiftl 255 k)) k) = byte_at w k.
Proof.
  intros Hk. rewrite to_u8_land. apply Z.bits_inj'. intros n Hn.
  rewrite byte_at_testbit by lia.
  rewrite Z.land_spec, Z.shiftr_spec, Z.land_spec, testbit_mask by lia.
  change 255 with (Z.ones 8). rewrite Z.testbit_ones by lia.
  destruct (Z.testbit w (n + k)), (Z.leb_spec k (n + k)),
    (Z.ltb_spec (n + k) (k + 8)), (Z.leb_spec 0 n), (Z.ltb_spec n 8);
    cbn [andb]; try reflexivity; lia.
Qed.

Lemma parse_packed_bytes (w : Z) :
  PARSE_PACKED_COLOR w =
  mkColor (byte_at w 16) (byte_at w 8) (byte_at w 0) (byte_at w 24).
Proof.
  unfold PARSE_PACKED_COLOR.
  change 0x00ff0000 with (Z.shiftl 255 16).
  change 0x0000ff00 with (Z.shiftl 255 8).
  change 0xff000000 with (Z.shiftl 255 24).
  rewrite !masked_byte by lia.
  replace (to_u8 (Z.land w 255)) with (byte_at w 0); [reflexivity |].
  unfold byte_at. rewrite Z.shiftr_0_r, to_u8_land, <- Z.land_assoc. reflexivity.
Qed.

Lemma testbit_byte_high (w k n : Z) : 0 <= k -> 8 <= n ->
  Z.testbit (byte_at w k) n = false.
Proof.
  intros Hk Hn. rewrite byte_at_testbit by lia.
  destruct (Z.ltb_spec n 8); [lia | apply andb_false_r].
Qed.

Lemma testbit_byte_low (w k n : Z) : 0 <= k -> 0 <= n < 8 ->
  Z.testbit (byte_at w k) n = Z.testbit w (n + k).
Proof.
  intros Hk Hn. rewrite byte_at_testbit by lia.
  destruct (Z.ltb_spec n 8); [apply andb_true_r | lia].
Qed.

Lemma testbit_above (w n : Z) : 0 <= w < 2 ^ 32 -> 32 <= n -> Z.testbit w n = false.
Proof.
  intros Hw Hn.
  destruct (Z.eq_dec w 0) as [-> | Hnz]; [apply Z.bits_0 |].
  apply Z.bits_above_log2; [lia |].
  assert (2 ^ 32 <= 2 ^ n) by (apply Z.pow_le_mono_r; lia).
  apply Z.log2_lt_pow2; lia.
Qed.

(** C9: a 32-bit packed colour [0xAARRGGBB] parses to the bytes
    [R, G, B, A], and putting those bytes back in the [0xAARRGGBB] layout
    gives the original word. *)
Theorem packed_color_roundtrip (w : Z) :
  0 <= w < 2 ^ 32 ->
  PARSE_PACKED_COLOR w =
    mkColor ((w / 2 ^ 16) mod 256) ((w / 2 ^ 8) mod 256) (w mod 256)
            ((w / 2 ^ 24) mod 256) /\
  serialize_packed_color (PARSE_PACKED_COLOR w) = w.
Proof.
  intros Hw. rewrite parse_packed_bytes. split.
  - unfold byte_at. change 255 with (Z.ones 8).
    rewrite !Z.land_ones, !Z.shiftr_div_pow2 by lia.
    change (2 ^ 0) with 1. rewrite Z.div_1_r. reflexivity.
  - unfold serialize_packed_color; cbn [c0 c1 c2 c3].
    apply Z.bits_inj'. intros n Hn.
    rewrite !Z.lor_spec, !Z.shiftl_spec by lia.
    destruct (Z.ltb_spec n 8);
      [| destruct (Z.ltb_spec n 16);
         [| destruct (Z.ltb_spec n 24); [| destruct (Z.ltb_spec n 32)]]].
    + rewrite (Z.testbit_neg_r _ (n - 24)), (Z.testbit_neg_r _ (n - 16)),
        (Z.testbit_neg_r _ (n - 8)) by lia.
      rewrite testbit_byte_low by lia. cbn [orb]. f_equal. lia.
    + rewrite (Z.testbit_neg_r _ (n - 24)), (Z.testbit_neg_r _ (n - 16)) by lia.
      rewrite testbit_byte_low, testbit_byte_high by lia.
      cbn [orb]. rewrite orb_false_r. f_equal. lia.
    + rewrite (Z.testbit_neg_r _ (n - 24)) by lia.
      rewrite testbit_byte_low, !testbit_byte_high by lia.
      cbn [orb]. rewrite !orb_false_r. f_equal. lia.
    + rewrite testbit_byte_low, !testbit_byte_high by lia.
      cbn [orb]. rewrite !orb_false_r. f_equal. lia.
    + rewrite !testbit_byte_high by lia. cbn [orb].
      symmetry. apply testbit_above; lia.
Qed.

Lemma packed_color_roundtrip_witness :
  PARSE_PACKED_COLOR 0x11223344 = mkColor 0x22 0x33 0x44 0x11 /\
  serialize_packed_color (PARSE_PACKED_COLOR 0x11223344) = 0x11223344.
Proof. apply (packed_color_roundtrip 0x11223344). lia. Defined.

Lemma clamp_u8 (v : Z) : to_u8 (MIN (MAX v 0) 255) = Z.min (Z.max v 0) 255.
Proof.
  unfold MIN, MAX.
  destruct (Z.gtb_spec v 0) as [Hv | Hv].
  - destruct (Z.ltb_spec v 255); rewrite to_u8_small by lia; lia.
  - destruct (Z.ltb_spec 0 255); rewrite to_u8_small by lia; lia.
Qed.

Lemma ftou8_range (x : float) (b : Z) : ftou8 x = Ok b -> 0 <= b <= 255.
Proof.
  unfold ftou8. destruct (F32.to_int32 _) as [i | |]; cbn [bind]; try discriminate.
  intros H. injection H as <-. rewrite clamp_u8. lia.
Qed.

(** C7: [ftou8] truncates [f * 255] toward zero and saturates the result to
    [0, 255]; in particular [ftou8(-1.0) = 0], [ftou8(2.0) = 255] and
    [ftou8(0.5) = 127]. *)
Theorem ftou8_saturating :
  ftou8 (F32.of_Z (-1)) = Ok 0 /\
  ftou8 (F32.of_Z 2) = Ok 255 /\
  ftou8 (F32.of_Z_pow2 1 (-1)) = Ok 127 /\
  forall (x : float) (v : Z),
    F32.trunc (F32.mul x (F32.of_Z 255)) = Some v ->
    - 2 ^ 31 <= v < 2 ^ 31 ->
    ftou8 x = Ok (Z.min (Z.max v 0) 255).
Proof.
  split; [vm_compute; reflexivity |].
  split; [vm_compute; reflexivity |].
  split; [vm_compute; reflexivity |].
  intros x v Ht Hv. unfold ftou8, F32.to_int32. rewrite Ht.
  destruct (Z.leb_spec (- 2 ^ 31) v), (Z.ltb_spec v (2 ^ 31)); try lia.
  cbn [andb bind]. rewrite clamp_u8. reflexivity.
Qed.

Lemma ftou8_saturating_witness :
  ftou8 (F32.of_Z_pow2 3 (-2)) = Ok 191.
Proof.
  apply (proj2 (proj2 (proj2 ftou8_saturating)) (F32.of_Z_pow2 3 (-2)) 191).
  - vm_compute. reflexivity.
  - lia.
Defined.

(** ** Index generation: the triangles of one strip *)

Lemma upd_same {A : Type} (a : Z -> A) (i : Z) (x : A) : upd a i x i = x.
Proof. unfold upd. rewrite Z.eqb_refl. reflexivity. Qed.

Lemma upd_other {A : Type} (a : Z -> A) (i j : Z) (x : A) :
  j <> i -> upd a i x j = a j.
Proof. intros H. unfold upd. destruct (Z.eqb_spec j i); [contradiction | reflexivity]. Qed.

Lemma land_1_odd (x : Z) : (Z.land x 1 =? 0) = negb (Z.odd x).
Proof.
  change 1 with (Z.ones 1). rewrite Z.land_ones by lia.
  change (2 ^ 1) with 2. rewrite Zmod_odd.
  destruct (Z.odd x); reflexivity.
Qed.

Lemma emit_tris_num_indices (n : nat) (j : Z) (surf : ta_surface) (rc : tr_context) :
  num_indices (emit_tris n j surf rc) = num_indices rc + 3 * Z.of_nat n.
Proof.
  revert j rc. induction n as [| n IH]; intros j rc; cbn [emit_tris].
  - lia.
  - rewrite IH. destruct (negb _); cbn [push_index set_num_indices num_indices]; lia.
Qed.

Lemma emit_tris_below (n : nat) (j : Z) (surf : ta_surface) (rc : tr_context) (p : Z) :
  p < num_indices rc -> indices (emit_tris n j surf rc) p = indices rc p.
Proof.
  revert j rc. induction n as [| n IH]; intros j rc Hp; cbn [emit_tris].
  - reflexivity.
  - rewrite IH.
    + destruct (negb _); cbn [push_index set_num_indices set_indices indices num_indices];
        rewrite !upd_other by lia; reflexivity.
    + destruct (negb _); cbn [push_index set_num_indices num_indices]; lia.
Qed.

Lemma push3_triple (rc : tr_context) (a b c : Z) :
  index_triple (push_index (push_index (push_index rc a) b) c) (num_indices rc) =
  (a, b, c).
Proof.
  unfold index_triple, push_index.
  cbn [set_num_indices set_indices indices num_indices].
  replace (num_indices rc + 1 + 1) with (num_indices rc + 2) by lia.
  rewrite upd_same.
  rewrite (upd_other _ _ (num_indices rc + 1)) by lia. rewrite upd_same.
  rewrite !(upd_other _ _ (num_indices rc)) by lia. rewrite upd_same.
  reflexivity.
Qed.

Lemma emit_tris_triple_below (n : nat) (j : Z) (surf : ta_surface) (rc : tr_context)
    (p : Z) :
  p + 2 < num_indices rc ->
  index_triple (emit_tris n j surf rc) p = index_triple rc p.
Proof.
  intros Hp. unfold index_triple. rewrite !emit_tris_below by lia. reflexivity.
Qed.

Lemma emit_tris_triple (n : nat) (j : Z) (surf : ta_surface) (rc : tr_context) (k : nat) :
  (k < n)%nat ->
  index_triple (emit_tris n j surf rc) (num_indices rc + 3 * Z.of_nat k) =
  let v := first_vert surf + (j + Z.of_nat k) in
  if Z.odd (strip_offset surf + (j + Z.of_nat k))
  then (v, v + 1, v + 2) else (v, v + 2, v + 1).
Proof.
  revert j rc k. induction n as [| n IH]; intros j rc k Hk; [lia |].
  cbn [emit_tris]. rewrite land_1_odd, negb_involutive. destruct k as [| k].
  - change (Z.of_nat 0) with 0. rewrite ?Z.mul_0_r, ?Z.add_0_r. cbv zeta.
    destruct (Z.odd (strip_offset surf + j));
      (rewrite emit_tris_triple_below
         by (cbn [push_index set_num_indices num_indices]; lia));
      apply push3_triple.
  - match goal with
    | |- index_triple (emit_tris _ _ _ ?rc1) _ = _ =>
        specialize (IH (j + 1) rc1 k ltac:(lia));
          replace (num_indices rc + 3 * Z.of_nat (S k))
            with (num_indices rc1 + 3 * Z.of_nat k)
            by (destruct (Z.odd (strip_offset surf + j));
                cbn [push_index set_num_indices num_indices]; lia)
    end.
    rewrite IH. cbv zeta.
    replace (j + 1 + Z.of_nat k) with (j + Z.of_nat (S k)) by lia.
    reflexivity.
Qed.

(** ** Render driver *)

Lemma render_entries_spec (l : list Z) (e : Z) :
  render_entries l e =
  (map DrawTaSurface (upto_incl e l), existsb (fun x => x =? e) l).
Proof.
  induction l as [| x l IH]; cbn [render_entries upto_incl existsb map].
  - reflexivity.
  - destruct (x =? e); cbn [orb map]; [reflexivity |].
    rewrite IH. reflexivity.
Qed.

Lemma upto_incl_app (e : Z) (l1 l2 : list Z) :
  upto_incl e (l1 ++ l2) =
  if existsb (fun x => x =? e) l1 then upto_incl e l1 else l1 ++ upto_incl e l2.
Proof.
  induction l1 as [| x l1 IH]; cbn [upto_incl existsb app].
  - reflexivity.
  - destruct (x =? e); cbn [orb]; [reflexivity |].
    rewrite IH. destruct (existsb _ l1); reflexivity.
Qed.

Lemma upto_incl_absent (e : Z) (l : list Z) :
  existsb (fun x => x =? e) l = false -> upto_incl e l = l.
Proof.
  induction l as [| x l IH]; cbn [upto_incl existsb]; [reflexivity |].
  destruct (x =? e); cbn [orb]; [discriminate |].
  intros H. rewrite IH by exact H. reflexivity.
Qed.

(** C5: [render_until(end_surf)] calls [begin], draws the entries of the
    OPAQUE, PUNCH_THROUGH and TRANSLUCENT lists in that order, stops right
    after the draw of the entry equal to [end_surf], and calls [end] in all
    cases; [render()] makes the calls of [render_until(-1)]. *)
Theorem render_until_call_sequence (rc : tr_context) (end_surf : Z) :
  tr_render_context_until rc end_surf =
    BeginTaSurfaces (width rc) (height rc) (verts rc) (rc_num_verts rc)
                    (indices rc) (num_indices rc)
    :: map DrawTaSurface
         (upto_incl end_surf
            (list_entries rc TA_LIST_OPAQUE ++
             list_entries rc TA_LIST_PUNCH_THROUGH ++
             list_entries rc TA_LIST_TRANSLUCENT))
    ++ [EndTaSurfaces] /\
  tr_render_context rc = tr_render_context_until rc (-1).
Proof.
  split; [| reflexivity].
  unfold tr_render_context_until, tr_render_list.
  fold (list_entries rc TA_LIST_OPAQUE).
  fold (list_entries rc TA_LIST_PUNCH_THROUGH).
  fold (list_entries rc TA_LIST_TRANSLUCENT).
  cbv zeta. rewrite !render_entries_spec, !upto_incl_app.
  destruct (existsb (fun x => x =? end_surf) (list_entries rc TA_LIST_OPAQUE))
    eqn:Ho.
  - cbn [app]. reflexivity.
  - rewrite (upto_incl_absent _ _ Ho).
    destruct (existsb (fun x => x =? end_surf)
                      (list_entries rc TA_LIST_PUNCH_THROUGH)) eqn:Hp.
    + cbn [app]. rewrite map_app, <- app_assoc. reflexivity.
    + rewrite (upto_incl_absent _ _ Hp).
      cbn [app]. rewrite !map_app, <- !app_assoc. reflexivity.
Qed.

(** ** Surface commit *)

Ltac rc_simpl :=
  cbn [num_surfs rc_num_verts surfs verts lists indices num_indices width height
       rc_params num_params
       set_surfs set_num_surfs set_rc_num_verts set_lists set_verts set_indices
       set_num_indices set_rc_params set_size list_push store_vert
       l_surfs l_num_surfs l_num_orig_surfs
       params first_vert num_verts strip_offset
       set_first_vert set_num_verts set_strip_offset set_params] in *.

Ltac upd_simpl := repeat (rewrite upd_same || rewrite upd_other by lia).

Section CommitProps.

Variable SURFS_SIZE : Z.

Lemma reserve_surf_copy (rc : tr_context) :
  1 <= num_surfs rc < SURFS_SIZE ->
  tr_reserve_surf SURFS_SIZE rc true =
  Ok (set_surfs rc
        (upd (surfs rc) (num_surfs rc)
             (mkSurface (params (surfs rc (num_surfs rc - 1))) (rc_num_verts rc) 0
                        (strip_offset (surfs rc (num_surfs rc - 1)))))).
Proof.
  intros H. unfold tr_reserve_surf, check.
  destruct (Z.ltb_spec (num_surfs rc) SURFS_SIZE); [| lia].
  destruct (Z.eqb_spec (num_surfs rc) 0); [lia |].
  reflexivity.
Qed.

Lemma reserve_surf_fresh (rc : tr_context) :
  num_surfs rc < SURFS_SIZE ->
  tr_reserve_surf SURFS_SIZE rc false =
  Ok (set_surfs rc
        (upd (surfs rc) (num_surfs rc)
             (mkSurface params_zero (rc_num_verts rc) 0 0))).
Proof.
  intros H. unfold tr_reserve_surf, check.
  destruct (Z.ltb_spec (num_surfs rc) SURFS_SIZE); [| lia].
  reflexivity.
Qed.

(** What the per-triangle loop leaves when it starts at a counter [i >= 1]. *)
Lemma commit_tris_spec (lt : Z) (k : nat) :
  forall (i : Z) (rc : tr_context),
    1 <= i ->
    1 <= num_surfs rc ->
    num_surfs rc + Z.of_nat k <= SURFS_SIZE ->
    exists rc',
      commit_tris SURFS_SIZE k i lt rc = Ok rc' /\
      num_surfs rc' = num_surfs rc + Z.of_nat k /\
      rc_num_verts rc' = rc_num_verts rc + Z.of_nat k /\
      (forall j, 0 <= j < Z.of_nat k ->
         surfs rc' (num_surfs rc + j) =
         mkSurface (params (surfs rc (num_surfs rc - 1))) (rc_num_verts rc + j) 3 (i + j)) /\
      (forall x, x < num_surfs rc -> surfs rc' x = surfs rc x) /\
      l_num_surfs (lists rc' lt) = l_num_surfs (lists rc lt) + Z.of_nat k /\
      l_num_orig_surfs (lists rc' lt) = l_num_orig_surfs (lists rc lt) /\
      (forall j, 0 <= j < Z.of_nat k ->
         l_surfs (lists rc' lt) (l_num_surfs (lists rc lt) + j) = num_surfs rc + j) /\
      (forall y, y < l_num_surfs (lists rc lt) ->
         l_surfs (lists rc' lt) y = l_surfs (lists rc lt) y) /\
      (forall o, o <> lt -> lists rc' o = lists rc o) /\
      verts rc' = verts rc /\
      indices rc' = indices rc /\
      num_indices rc' = num_indices rc.
Proof.
  induction k as [| k IH]; intros i rc Hi HS Hcap.
  - exists rc. cbn [commit_tris]. change (Z.of_nat 0) with 0.
    repeat split; try lia; try reflexivity; intros; lia.
  - cbn [commit_tris].
    destruct (Z.eqb_spec i 0); [lia |].
    rewrite reserve_surf_copy by lia. cbn [bind]. rc_simpl.
    rewrite !upd_same. rc_simpl.
    match goal with
    | |- exists rc', commit_tris _ _ _ _ ?rc1 = _ /\ _ =>
        destruct (IH (i + 1) rc1) as (rc' & Hrun & HnS & HnV & Hs & Hsb & HlN &
                                      HlO & Hl & Hlb & Hlo & Hv & Hix & Hni);
          [lia | rc_simpl; lia | rc_simpl; lia |]
    end.
    rc_simpl. rewrite !upd_same in *. rc_simpl.
    exists rc'. split; [exact Hrun |].
    split; [lia |]. split; [lia |].
    split.
    { intros j Hj. destruct (Z.eq_dec j 0) as [-> | Hj0].
      - rewrite Z.add_0_r. rewrite Hsb by lia.
        rewrite upd_same. rewrite !Z.add_0_r. reflexivity.
      - specialize (Hs (j - 1) ltac:(lia)).
        replace (num_surfs rc + 1 + (j - 1)) with (num_surfs rc + j) in Hs by lia.
        rewrite Hs. replace (num_surfs rc + 1 - 1) with (num_surfs rc) by lia.
        rewrite upd_same. cbn [params]. f_equal; lia. }
    split.
    { intros x Hx. rewrite Hsb by lia. upd_simpl. reflexivity. }
    split; [lia |]. split; [exact HlO |].
    split.
    { intros j Hj. destruct (Z.eq_dec j 0) as [-> | Hj0].
      - rewrite Z.add_0_r. rewrite Hlb by lia. rewrite upd_same. lia.
      - specialize (Hl (j - 1) ltac:(lia)).
        replace (l_num_surfs (lists rc lt) + 1 + (j - 1))
          with (l_num_surfs (lists rc lt) + j) in Hl by lia.
        rewrite Hl. lia. }
    split.
    { intros y Hy. rewrite Hlb by lia. upd_simpl. reflexivity. }
    split.
    { intros o Ho. rewrite Hlo by exact Ho. rewrite !upd_other by exact Ho. reflexivity. }
    repeat split; assumption.
Qed.

End CommitProps.

(** C2: committing a strip of [n >= 3] staged vertices in the TRANSLUCENT
    or PUNCH_THROUGH list yields [n - 2] surfaces of three vertices, the
    [i]-th with [strip_offset = i] and [first_vert] the vertex count at that
    step (one more per triangle, two more after the loop), and [n - 2] more
    list entries; in the OPAQUE and OPAQUE_MODVOL lists it yields the one
    staged surface with the whole strip. *)
Theorem commit_surf_per_list (SURFS_SIZE : Z) (t : tr) (rc : tr_context) :
  let staged := surfs rc (num_surfs rc) in
  let n := num_verts staged in
  let lt := list_type t in
  (lt = TA_LIST_TRANSLUCENT \/ lt = TA_LIST_PUNCH_THROUGH ->
   3 <= n -> 0 <= num_surfs rc -> num_surfs rc + (n - 2) <= SURFS_SIZE ->
   exists rc',
     tr_commit_surf SURFS_SIZE t rc = Ok rc' /\
     num_surfs rc' = num_surfs rc + (n - 2) /\
     rc_num_verts rc' = rc_num_verts rc + (n - 2) + 2 /\
     (forall i, 0 <= i < n - 2 ->
        let s := surfs rc' (num_surfs rc + i) in
        num_verts s = 3 /\ strip_offset s = i /\
        first_vert s = rc_num_verts rc + i /\ params s = params staged) /\
     l_num_surfs (lists rc' lt) = l_num_surfs (lists rc lt) + (n - 2) /\
     (forall i, 0 <= i < n - 2 ->
        l_surfs (lists rc' lt) (l_num_surfs (lists rc lt) + i) = num_surfs rc + i)) /\
  (lt = TA_LIST_OPAQUE \/ lt = TA_LIST_OPAQUE_MODVOL ->
   exists rc',
     tr_commit_surf SURFS_SIZE t rc = Ok rc' /\
     num_surfs rc' = num_surfs rc + 1 /\
     rc_num_verts rc' = rc_num_verts rc + n /\
     surfs rc' (num_surfs rc) = staged /\
     l_num_surfs (lists rc' lt) = l_num_surfs (lists rc lt) + 1 /\
     l_surfs (lists rc' lt) (l_num_surfs (lists rc lt)) = num_surfs rc).
Proof.
  intros staged n lt. split.
  - intros Hlt Hn HS Hcap.
    unfold tr_commit_surf. fold lt. fold staged. fold n.
    assert (Htest : (lt =? TA_LIST_TRANSLUCENT) || (lt =? TA_LIST_PUNCH_THROUGH) = true).
    { destruct Hlt as [-> | ->]; reflexivity. }
    rewrite Htest.
    destruct (Z.to_nat (n - 2)) as [| k] eqn:Hk; [lia |].
    cbn [commit_tris]. rewrite Z.eqb_refl. cbn [bind]. rc_simpl.
    match goal with
    | |- exists rc', bind (commit_tris _ _ ?c _ ?rc1) _ = _ /\ _ =>
        destruct (commit_tris_spec SURFS_SIZE lt k c rc1)
          as (rc' & Hrun & HnS & HnV & Hs & Hsb & HlN & HlO & Hl & Hlb & Hlo & _);
          [lia | rc_simpl; lia | rc_simpl; lia |]
    end.
    rewrite Hrun. cbn [bind].
    rc_simpl. rewrite !upd_same in *. rc_simpl.
    eexists. split; [reflexivity |]. rc_simpl.
    split; [lia |]. split; [lia |].
    split.
    { intros i Hi. cbv zeta. destruct (Z.eq_dec i 0) as [-> | Hi0].
      - rewrite Z.add_0_r. rewrite Hsb by lia. upd_simpl. rc_simpl.
        repeat split; try reflexivity; lia.
      - specialize (Hs (i - 1) ltac:(lia)).
        replace (num_surfs rc + 1 + (i - 1)) with (num_surfs rc + i) in Hs by lia.
        rewrite Hs. replace (num_surfs rc + 1 - 1) with (num_surfs rc) by lia.
        upd_simpl. rc_simpl. repeat split; try reflexivity; lia. }
    split; [lia |].
    intros i Hi. destruct (Z.eq_dec i 0) as [-> | Hi0].
    + rewrite Z.add_0_r. rewrite Hlb by lia. upd_simpl. lia.
    + specialize (Hl (i - 1) ltac:(lia)).
      replace (l_num_surfs (lists rc lt) + 1 + (i - 1))
        with (l_num_surfs (lists rc lt) + i) in Hl by lia.
      rewrite Hl. lia.
  - intros Hlt. unfold tr_commit_surf. fold lt. fold staged. fold n.
    assert (Htest : (lt =? TA_LIST_TRANSLUCENT) || (lt =? TA_LIST_PUNCH_THROUGH) = false).
    { destruct Hlt as [-> | ->]; reflexivity. }
    rewrite Htest. eexists. split; [reflexivity |]. rc_simpl.
    rewrite !upd_same. rc_simpl. rewrite !upd_same.
    repeat split; reflexivity.
Qed.

Lemma commit_surf_per_list_witness :
  exists rc',
    tr_commit_surf 8 (ex_tr TA_LIST_TRANSLUCENT 0) ex_rc_strip4 = Ok rc' /\
    num_surfs rc' = 3 /\
    rc_num_verts rc' = 8 /\
    (forall i, 0 <= i < 2 ->
       let s := surfs rc' (1 + i) in
       num_verts s = 3 /\ strip_offset s = i /\
       first_vert s = 4 + i /\ params s = params_zero) /\
    l_num_surfs (lists rc' TA_LIST_TRANSLUCENT) = 2 /\
    (forall i, 0 <= i < 2 -> l_surfs (lists rc' TA_LIST_TRANSLUCENT) (0 + i) = 1 + i).
Proof.
  apply (proj1 (commit_surf_per_list 8 (ex_tr TA_LIST_TRANSLUCENT 0) ex_rc_strip4)).
  - left. reflexivity.
  - cbn. lia.
  - cbn. lia.
  - cbn. lia.
Defined.

(** ** Polygon parameter handler *)

(** The override chain never reaches its PUNCH_THROUGH branch: the first
    branch takes every list that is not translucent. *)
Lemma poly_overrides_punch_through (ctx : ta_context) (p : surf_params) :
  poly_overrides TA_LIST_PUNCH_THROUGH ctx p =
  mkSurfParams (texture p) (depth_write p) (sp_depth_func p) (cull p)
               BLEND_NONE BLEND_NONE (shade p) (ignore_alpha p)
               (ignore_texture_alpha p) (offset_color p) (alpha_test p)
               (alpha_ref p).
Proof. reflexivity. Qed.

Ltac destruct_bind H :=
  match type of H with
  | bind ?m _ = Ok _ =>
      let E := fresh "E" in
      destruct m eqn:E; cbn [bind] in H; [| discriminate H | discriminate H]
  end.

(** C1: a polygon parameter parsed in the PUNCH_THROUGH list opens a
    surface with [alpha_test] set and [alpha_ref] taken from the context,
    with both blend factors forced to NONE; its [depth_func] is the table
    translation of the parameter's compare mode, which the handler does not
    replace by GEQUAL. *)
Theorem poly_param_punch_through (SURFS_SIZE : Z) (fe : frontend) (w : world)
    (t : tr) (ctx : ta_context) (rc : tr_context) (data : ta_param)
    (w' : world) (t' : tr) (rc' : tr_context) :
  list_type t = TA_LIST_PUNCH_THROUGH ->
  ta_poly_type fe (p_pcw data) <> 6 ->
  tr_parse_poly_param SURFS_SIZE fe w t ctx rc data = Ok (w', t', rc') ->
  let p := params (surfs rc' (num_surfs rc')) in
  alpha_test p = true /\
  alpha_ref p = ctx_alpha_ref ctx /\
  src_blend p = BLEND_NONE /\
  dst_blend p = BLEND_NONE /\
  translate_depth_func (depth_compare_mode (pp_isp (p_poly data))) =
    Ok (sp_depth_func p).
Proof.
  intros Hlt Hpt H. unfold tr_parse_poly_param in H.
  destruct (Z.eqb_spec (ta_poly_type fe (p_pcw data)) 6) as [| _]; [contradiction |].
  destruct_bind H.
  assert (Hlt' : list_type a = TA_LIST_PUNCH_THROUGH).
  { clear H Hpt. generalize dependent (ta_poly_type fe (p_pcw data)). intros pt E.
    repeat match type of E with
           | context [match ?q with _ => _ end] =>
               is_var q; destruct q; cbv beta iota in E; try discriminate E
           end;
      repeat destruct_bind E; injection E as <-; exact Hlt. }
  clear E.
  destruct_bind H. rename a0 into rc1.
  destruct_bind H. destruct_bind H. destruct_bind H. destruct_bind H.
  destruct_bind H.
  rewrite Hlt' in H. rewrite poly_overrides_punch_through in H.
  destruct_bind H. destruct a5 as [w1 tex]. injection H as <- <- <-.
  rc_simpl. upd_simpl. rc_simpl.
  cbn [alpha_test alpha_ref src_blend dst_blend sp_depth_func].
  repeat split; reflexivity.
Qed.

(** The handler run on a PUNCH_THROUGH polygon whose compare mode is 6: the
    surface keeps LEQUAL. *)
Lemma poly_param_punch_through_witness :
  exists w' t' rc',
    tr_parse_poly_param 8 hw_frontend ex_world
      (ex_tr TA_LIST_PUNCH_THROUGH TA_NUM_VERTS) (ex_ctx false []) ex_rc_blank
      (ex_poly_param TA_PARAM_POLY_OR_VOL TA_LIST_PUNCH_THROUGH 6)
    = Ok (w', t', rc') /\
    alpha_test (params (surfs rc' (num_surfs rc'))) = true /\
    sp_depth_func (params (surfs rc' (num_surfs rc'))) = DEPTH_LEQUAL /\
    sp_depth_func (params (surfs rc' (num_surfs rc'))) <> DEPTH_GEQUAL.
Proof.
  destruct (tr_parse_poly_param 8 hw_frontend ex_world
              (ex_tr TA_LIST_PUNCH_THROUGH TA_NUM_VERTS) (ex_ctx false [])
              ex_rc_blank
              (ex_poly_param TA_PARAM_POLY_OR_VOL TA_LIST_PUNCH_THROUGH 6))
    as [[[w' t'] rc'] | |] eqn:E;
    [| vm_compute in E; discriminate E | vm_compute in E; discriminate E].
  exists w', t', rc'. split; [reflexivity |].
  destruct (poly_param_punch_through 8 hw_frontend ex_world
              (ex_tr TA_LIST_PUNCH_THROUGH TA_NUM_VERTS) (ex_ctx false [])
              ex_rc_blank
              (ex_poly_param TA_PARAM_POLY_OR_VOL TA_LIST_PUNCH_THROUGH 6)
              w' t' rc' eq_refl ltac:(vm_compute; discriminate) E)
    as (Ha & _ & _ & _ & Hd).
  cbn in Hd. injection Hd as Hd.
  split; [exact Ha |]. split; [symmetry; exact Hd |].
  rewrite <- Hd. discriminate.
Defined.

(** ** Vertex parameter handler *)

Lemma fmulu8_bytes (a b : Z) :
  0 <= a <= 255 -> 0 <= b <= 255 -> fmulu8 a b = (a * b) ÷ 255.
Proof.
  intros Ha Hb. unfold fmulu8.
  assert (0 <= a * b <= 255 * 255) by nia.
  rewrite Z.quot_div_nonneg by lia.
  apply to_u8_small. split.
  - apply Z.div_pos; lia.
  - apply Z.div_le_upper_bound; lia.
Qed.

Section HandlerProps.

Variables SURFS_SIZE VERTS_SIZE : Z.
Variable vm : vecmath.

Lemma reserve_surf_frame (rc rc' : tr_context) (copy : bool) :
  tr_reserve_surf SURFS_SIZE rc copy = Ok rc' ->
  verts rc' = verts rc /\ rc_num_verts rc' = rc_num_verts rc /\
  num_surfs rc' = num_surfs rc /\ lists rc' = lists rc /\
  indices rc' = indices rc /\ num_indices rc' = num_indices rc /\
  num_verts (surfs rc' (num_surfs rc)) = 0 /\
  first_vert (surfs rc' (num_surfs rc)) = rc_num_verts rc /\
  (forall x, x <> num_surfs rc -> surfs rc' x = surfs rc x).
Proof.
  unfold tr_reserve_surf. intros H.
  destruct_bind H. destruct_bind H. injection H as <-.
  rc_simpl. upd_simpl. rc_simpl.
  repeat split; try reflexivity.
  intros x Hx. upd_simpl. reflexivity.
Qed.

Lemma commit_tris_frame (lt : Z) (k : nat) :
  forall (i : Z) (rc rc' : tr_context),
    commit_tris SURFS_SIZE k i lt rc = Ok rc' ->
    verts rc' = verts rc /\ indices rc' = indices rc /\
    num_indices rc' = num_indices rc /\
    (forall o, o <> lt -> lists rc' o = lists rc o).
Proof.
  induction k as [| k IH]; intros i rc rc' H; cbn [commit_tris] in H.
  - injection H as <-. repeat split; reflexivity.
  - destruct_bind H.
    assert (Hf : verts a = verts rc /\ indices a = indices rc /\
                 num_indices a = num_indices rc /\ lists a = lists rc).
    { destruct (i =? 0).
      - injection E as <-. repeat split; reflexivity.
      - apply reserve_surf_frame in E. tauto. }
    destruct Hf as (Hv & Hi & Hn & Hl).
    apply IH in H. rc_simpl. destruct H as (Hv' & Hi' & Hn' & Hl').
    rewrite Hv', Hi', Hn'. repeat split; try assumption.
    intros o Ho. rewrite Hl' by exact Ho. rewrite upd_other by exact Ho.
    rewrite Hl. reflexivity.
Qed.

Lemma commit_surf_frame (t : tr) (rc rc' : tr_context) :
  tr_commit_surf SURFS_SIZE t rc = Ok rc' ->
  verts rc' = verts rc /\ indices rc' = indices rc /\
  num_indices rc' = num_indices rc /\
  (forall o, o <> list_type t -> lists rc' o = lists rc o).
Proof.
  unfold tr_commit_surf. intros H.
  destruct ((list_type t =? TA_LIST_TRANSLUCENT) ||
            (list_type t =? TA_LIST_PUNCH_THROUGH)).
  - destruct_bind H. injection H as <-.
    apply commit_tris_frame in E. rc_simpl.
    destruct E as (Hv & Hi & Hn & Hl).
    repeat split; try assumption.
    intros o Ho. rewrite Hl by exact Ho. rewrite upd_other by exact Ho. reflexivity.
  - injection H as <-. rc_simpl. repeat split; try reflexivity.
    intros o Ho. rewrite !upd_other by exact Ho. reflexivity.
Qed.

Lemma reserve_vert_spec (rc rc' : tr_context) (i : Z) :
  tr_reserve_vert VERTS_SIZE rc = Ok (rc', i) ->
  i = rc_num_verts rc + num_verts (surfs rc (num_surfs rc)) /\
  i < VERTS_SIZE /\
  rc' = set_surfs (set_verts rc (upd (verts rc) i vert_zero))
          (upd (surfs rc) (num_surfs rc)
               (set_num_verts (surfs rc (num_surfs rc))
                              (num_verts (surfs rc (num_surfs rc)) + 1))).
Proof.
  unfold tr_reserve_vert, check. intros H.
  destruct (Z.ltb_spec (rc_num_verts rc + num_verts (surfs rc (num_surfs rc)))
                       VERTS_SIZE); cbn [bind] in H; [| discriminate H].
  injection H as <- <-. repeat split; try reflexivity; assumption.
Qed.

Lemma emit_vert_spec (rc rc' : tr_context) (v : ta_vertex) :
  emit_vert VERTS_SIZE rc v = Ok rc' ->
  let i := rc_num_verts rc + num_verts (surfs rc (num_surfs rc)) in
  verts rc' i = v /\
  (forall j, j <> i -> verts rc' j = verts rc j) /\
  surfs rc' = upd (surfs rc) (num_surfs rc)
                  (set_num_verts (surfs rc (num_surfs rc))
                                 (num_verts (surfs rc (num_surfs rc)) + 1)) /\
  num_surfs rc' = num_surfs rc /\ rc_num_verts rc' = rc_num_verts rc /\
  lists rc' = lists rc /\ indices rc' = indices rc /\
  num_indices rc' = num_indices rc.
Proof.
  unfold emit_vert. intros H. destruct_bind H. destruct a as [rc1 i1].
  apply reserve_vert_spec in E. destruct E as (-> & _ & ->).
  injection H as <-. cbv zeta. rc_simpl.
  split; [apply upd_same |].
  split; [intros j Hj; rewrite !upd_other by exact Hj; reflexivity |].
  repeat split; reflexivity.
Qed.

End HandlerProps.

Lemma parse_intensity_spec (fc : color4) (x : float) (c : color4) :
  color_bytes fc ->
  PARSE_INTENSITY fc x = Ok c ->
  exists i, ftou8 x = Ok i /\
    c = mkColor ((c0 fc * i) ÷ 255) ((c1 fc * i) ÷ 255) ((c2 fc * i) ÷ 255) (c3 fc).
Proof.
  intros (H0 & H1 & H2 & H3) H. unfold PARSE_INTENSITY in H.
  destruct (ftou8 x) as [i | |] eqn:E; cbn [bind] in H; try discriminate H.
  injection H as <-. exists i. split; [reflexivity |].
  pose proof (ftou8_range _ _ E).
  rewrite !fmulu8_bytes by lia. reflexivity.
Qed.

Lemma next_vert_after_reserve (SURFS_SIZE : Z) (t : tr) (rc rc1 : tr_context) :
  match last_vertex t with
  | Some lv =>
      if end_of_strip (p_pcw lv) then tr_reserve_surf SURFS_SIZE rc true else Ok rc
  | None => Ok rc
  end = Ok rc1 ->
  verts rc1 = verts rc /\
  rc_num_verts rc1 + num_verts (surfs rc1 (num_surfs rc1)) = next_vert_index t rc /\
  num_surfs rc1 = num_surfs rc /\ lists rc1 = lists rc.
Proof.
  unfold next_vert_index. intros H.
  destruct (last_vertex t) as [lv |]; [destruct (end_of_strip (p_pcw lv)) |].
  - apply reserve_surf_frame in H.
    destruct H as (Hv & Hn & HS & Hl & _ & _ & Hz & _).
    rewrite HS, Hz, Hn. repeat split; try assumption; lia.
  - injection H as <-. repeat split; reflexivity.
  - injection H as <-. repeat split; reflexivity.
Qed.

(** C8: a vertex of an intensity type (2, 7 or 8) gets, in each of its red,
    green and blue channels, the face colour channel times [ftou8] of the
    intensity, divided by 255 with truncation, and the face colour's alpha;
    for the types 7 and 8 the offset colour is computed the same way from
    the face offset colour. *)
Theorem intensity_vertex_color (SURFS_SIZE VERTS_SIZE : Z) (vm : vecmath)
    (t : tr) (rc : tr_context) (data : ta_param) (t' : tr) (rc' : tr_context) :
  vert_type t = 2 \/ vert_type t = 7 \/ vert_type t = 8 ->
  color_bytes (face_color t) ->
  color_bytes (face_offset_color t) ->
  tr_parse_vert_param SURFS_SIZE VERTS_SIZE vm t rc data = Ok (t', rc') ->
  let v := verts rc' (next_vert_index t rc) in
  let fc := face_color t in
  let foc := face_offset_color t in
  (exists i,
     ftou8 (base_intensity (vert_type t) (p_vert data)) = Ok i /\
     color v = mkColor ((c0 fc * i) ÷ 255) ((c1 fc * i) ÷ 255)
                       ((c2 fc * i) ÷ 255) (c3 fc)) /\
  (vert_type t <> 2 ->
   exists oi,
     ftou8 (offset_intensity (vert_type t) (p_vert data)) = Ok oi /\
     vx_offset_color v = mkColor ((c0 foc * oi) ÷ 255) ((c1 foc * oi) ÷ 255)
                                 ((c2 foc * oi) ÷ 255) (c3 foc)).
Proof.
  intros Hvt Hfc Hfoc H v fc foc. unfold tr_parse_vert_param in H.
  destruct (Z.eqb_spec (vert_type t) 17) as [H17 | _]; [lia |].
  destruct_bind H. rename a into rc1.
  apply next_vert_after_reserve in E. destruct E as (Hv1 & Hidx & _ & _).
  destruct_bind H. destruct a as [rc2 reached].
  assert (Hverts : verts rc' = verts rc2).
  { destruct (reached && end_of_strip (p_pcw data)).
    - destruct_bind H. injection H as _ <-.
      apply commit_surf_frame in E0. tauto.
    - injection H as _ <-. reflexivity. }
  clear H. subst v. rewrite Hverts, <- Hidx.
  unfold parse_vert_switch in E. cbn [vert_type set_last_vertex face_color
    face_offset_color] in E.
  unfold base_intensity, offset_intensity.
  destruct Hvt as [Hvt | [Hvt | Hvt]]; rewrite Hvt in *; cbv beta iota zeta in E;
    cbn [Z.eqb Pos.eqb].
  - destruct_bind E. destruct_bind E0.
    apply emit_vert_spec in E0. destruct E0 as (Hat & _).
    injection E as <- _. rewrite Hat. cbn [color vx_offset_color].
    split; [| intros Hne; contradiction Hne; reflexivity].
    apply parse_intensity_spec; assumption.
  - destruct_bind E. destruct_bind E0. destruct_bind E0.
    apply emit_vert_spec in E0. destruct E0 as (Hat & _).
    injection E as <- _. rewrite Hat. cbn [color vx_offset_color].
    split; [| intros _]; apply parse_intensity_spec; assumption.
  - destruct_bind E. destruct_bind E0. destruct_bind E0.
    apply emit_vert_spec in E0. destruct E0 as (Hat & _).
    injection E as <- _. rewrite Hat. cbn [color vx_offset_color].
    split; [| intros _]; apply parse_intensity_spec; assumption.
Qed.

Lemma intensity_vertex_color_witness :
  exists t' rc',
    tr_parse_vert_param 8 16 f32_vecmath
      (ex_tr_faces TA_LIST_OPAQUE 2 (mkColor 200 100 50 255) color_zero)
      ex_rc_blank (ex_intensity_param false (F32.of_Z_pow2 1 (-1)))
    = Ok (t', rc') /\
    color (verts rc' 0) = mkColor 99 49 24 255.
Proof.
  destruct (tr_parse_vert_param 8 16 f32_vecmath
              (ex_tr_faces TA_LIST_OPAQUE 2 (mkColor 200 100 50 255) color_zero)
              ex_rc_blank (ex_intensity_param false (F32.of_Z_pow2 1 (-1))))
    as [[t' rc'] | |] eqn:E;
    [| vm_compute in E; discriminate E | vm_compute in E; discriminate E].
  exists t', rc'. split; [reflexivity |].
  destruct (intensity_vertex_color 8 16 f32_vecmath
              (ex_tr_faces TA_LIST_OPAQUE 2 (mkColor 200 100 50 255) color_zero)
              ex_rc_blank (ex_intensity_param false (F32.of_Z_pow2 1 (-1)))
              t' rc' (or_introl eq_refl)
              ltac:(unfold color_bytes; cbn; lia)
              ltac:(unfold color_bytes; cbn; lia) E)
    as ((i & Hi & Hc) & _).
  vm_compute in Hi. injection Hi as <-.
  exact Hc.
Defined.


(** *** Sprites whose plane is degenerate *)








(** ** Surface sort *)

(** *** The float comparison is a total preorder away from NaN *)

Lemma SFleb_lexle (a b : float) :
  F32.is_nan a = false -> F32.is_nan b = false ->
  F32.leb a b = lexle (fkey a) (fkey b).
Proof.
  intros Ha Hb. unfold F32.leb, SFleb, SFcompare, lexle, fkey.
  destruct a as [sa | sa | | sa ma ea]; try discriminate Ha;
    destruct b as [sb | sb | | sb mb eb]; try discriminate Hb;
    try (destruct sa); try (destruct sb); try reflexivity.
  - (* both negative *)
    rewrite Pos.compare_cont_spec. cbn [Pos.switch_Eq].
    destruct (Z.compare_spec ea eb) as [He | He | He];
      destruct (Pos.compare_spec ma mb) as [Hm | Hm | Hm]; cbn [CompOpp];
      repeat match goal with
             | |- context [?x <? ?y] => destruct (Z.ltb_spec x y)
             | |- context [?x =? ?y] => destruct (Z.eqb_spec x y)
             | |- context [?x <=? ?y] => destruct (Z.leb_spec x y)
             end; cbn [andb orb]; try reflexivity; lia.
  - (* both positive *)
    rewrite Pos.compare_cont_spec. cbn [Pos.switch_Eq].
    destruct (Z.compare_spec ea eb) as [He | He | He];
      destruct (Pos.compare_spec ma mb) as [Hm | Hm | Hm];
      repeat match goal with
             | |- context [?x <? ?y] => destruct (Z.ltb_spec x y)
             | |- context [?x =? ?y] => destruct (Z.eqb_spec x y)
             | |- context [?x <=? ?y] => destruct (Z.leb_spec x y)
             end; cbn [andb orb]; try reflexivity; lia.
Qed.

Lemma lexle_spec (a1 a2 a3 b1 b2 b3 : Z) :
  lexle (a1, a2, a3) (b1, b2, b3) = true <->
  a1 < b1 \/ (a1 = b1 /\ (a2 < b2 \/ (a2 = b2 /\ a3 <= b3))).
Proof.
  unfold lexle.
  rewrite orb_true_iff, andb_true_iff, orb_true_iff, andb_true_iff.
  rewrite !Z.ltb_lt, !Z.eqb_eq, Z.leb_le. reflexivity.
Qed.

Lemma lexle_total (a b : Z * Z * Z) : lexle a b = false -> lexle b a = true.
Proof.
  destruct a as [[a1 a2] a3], b as [[b1 b2] b3]. intros H.
  apply lexle_spec. apply not_true_iff_false in H. rewrite lexle_spec in H. lia.
Qed.

Lemma lexle_trans (a b c : Z * Z * Z) :
  lexle a b = true -> lexle b c = true -> lexle a c = true.
Proof.
  destruct a as [[a1 a2] a3], b as [[b1 b2] b3], c as [[c1 c2] c3].
  rewrite !lexle_spec. lia.
Qed.

Lemma leb_total (a b : float) :
  F32.is_nan a = false -> F32.is_nan b = false ->
  F32.leb a b = false -> F32.leb b a = true.
Proof.
  intros Ha Hb. rewrite !SFleb_lexle by assumption. apply lexle_total.
Qed.

Lemma leb_trans (a b c : float) :
  F32.is_nan a = false -> F32.is_nan b = false -> F32.is_nan c = false ->
  F32.leb a b = true -> F32.leb b c = true -> F32.leb a c = true.
Proof.
  intros Ha Hb Hc. rewrite !SFleb_lexle by assumption. apply lexle_trans.
Qed.

Lemma compare_swap (a b : float) :
  SFcompare b a = option_map CompOpp (SFcompare a b).
Proof.
  unfold SFcompare.
  destruct a as [sa | sa | | sa ma ea], b as [sb | sb | | sb mb eb];
    try (destruct sa); try (destruct sb); try reflexivity; cbn [option_map];
    rewrite (Z.compare_antisym ea eb), !Pos.compare_cont_spec;
    cbn [Pos.switch_Eq]; rewrite (Pos.compare_antisym ma mb);
    destruct (ea ?= eb), (ma ?= mb)%positive; reflexivity.
Qed.

Lemma eqb_leb (a b : float) : F32.eqb a b = F32.leb a b && F32.leb b a.
Proof.
  unfold F32.eqb, F32.leb, SFeqb, SFleb. rewrite (compare_swap a b).
  destruct (SFcompare a b) as [[| |] |]; reflexivity.
Qed.

Lemma eqb_not_nan (a b : float) : F32.eqb a b = true -> F32.is_nan a = false.
Proof.
  unfold F32.eqb, SFeqb, SFcompare. destruct a; try reflexivity.
  discriminate.
Qed.

(** *** The merge sort *)

Section MergeSortProps.

Variable A : Type.
Variable cmp : A -> A -> bool.
Variable ok : A -> Prop.

Hypothesis cmp_total : forall a b, ok a -> ok b -> cmp a b = false -> cmp b a = true.
Hypothesis cmp_trans :
  forall a b c, ok a -> ok b -> ok c ->
    cmp a b = true -> cmp b c = true -> cmp a c = true.

Let le (a b : A) : Prop := cmp a b = true.

Lemma merge_nil_r (l : list A) : merge cmp l [] = l.
Proof. destruct l; reflexivity. Qed.

Lemma merge_cons (a1 a2 : A) (l1 l2 : list A) :
  merge cmp (a1 :: l1) (a2 :: l2) =
  if cmp a1 a2 then a1 :: merge cmp l1 (a2 :: l2)
  else a2 :: merge cmp (a1 :: l1) l2.
Proof. reflexivity. Qed.

Lemma merge_perm (l1 l2 : list A) : Permutation (merge cmp l1 l2) (l1 ++ l2).
Proof.
  revert l2. induction l1 as [| a1 l1 IH1]; intros l2.
  - reflexivity.
  - induction l2 as [| a2 l2 IH2].
    + rewrite merge_nil_r, app_nil_r. reflexivity.
    + rewrite merge_cons. destruct (cmp a1 a2).
      * cbn [app]. apply perm_skip. apply IH1.
      * etransitivity; [apply perm_skip, IH2 |].
        apply (Permutation_middle (a1 :: l1) l2 a2).
Qed.

Lemma cmp_refl (a : A) : ok a -> cmp a a = true.
Proof.
  intros Ha. destruct (cmp a a) eqn:E; [reflexivity |].
  rewrite (cmp_total a a Ha Ha E) in E. discriminate E.
Qed.

Lemma merge_sorted (l1 l2 : list A) :
  Forall ok l1 -> Forall ok l2 ->
  StronglySorted le l1 -> StronglySorted le l2 ->
  StronglySorted le (merge cmp l1 l2).
Proof.
  revert l2. induction l1 as [| a1 l1 IH1]; intros l2 Hok1 Hok2 Hs1 Hs2.
  - exact Hs2.
  - induction l2 as [| a2 l2 IH2].
    + rewrite merge_nil_r. exact Hs1.
    + rewrite merge_cons.
      inversion Hok1 as [| ? ? Hoa1 Hol1]; subst.
      inversion Hok2 as [| ? ? Hoa2 Hol2]; subst.
      inversion Hs1 as [| ? ? Hsl1 Hle1]; subst.
      inversion Hs2 as [| ? ? Hsl2 Hle2]; subst.
      destruct (cmp a1 a2) eqn:E.
      * constructor; [apply IH1; assumption |].
        apply (Permutation_Forall (Permutation_sym (merge_perm l1 (a2 :: l2)))).
        apply Forall_app. split; [exact Hle1 |].
        constructor; [exact E |].
        rewrite Forall_forall in *. intros y Hy.
        apply (cmp_trans a1 a2 y); auto. apply Hle2. exact Hy.
      * assert (Hle21 : cmp a2 a1 = true) by (apply cmp_total; assumption).
        constructor; [apply IH2; assumption |].
        apply (Permutation_Forall (Permutation_sym (merge_perm (a1 :: l1) l2))).
        apply Forall_app. split; [| exact Hle2].
        constructor; [exact Hle21 |].
        rewrite Forall_forall in *. intros y Hy.
        apply (cmp_trans a2 a1 y); auto. apply Hle1. exact Hy.
Qed.

(** Stability of the merge, for a class [P] of mutually comparable
    elements. *)
Variable P : A -> bool.
Hypothesis P_tie :
  forall a b, ok a -> ok b -> P a = true -> P b = true -> cmp a b = true.

Lemma merge_filter (l1 l2 : list A) :
  Forall ok l1 -> Forall ok l2 -> StronglySorted le l1 ->
  filter P (merge cmp l1 l2) = filter P l1 ++ filter P l2.
Proof.
  revert l2. induction l1 as [| a1 l1 IH1]; intros l2 Hok1 Hok2 Hs1.
  - reflexivity.
  - induction l2 as [| a2 l2 IH2].
    + rewrite merge_nil_r. cbn [filter]. rewrite app_nil_r. reflexivity.
    + rewrite merge_cons.
      inversion Hok1 as [| ? ? Hoa1 Hol1]; subst.
      inversion Hok2 as [| ? ? Hoa2 Hol2]; subst.
      inversion Hs1 as [| ? ? Hsl1 Hle1]; subst.
      destruct (cmp a1 a2) eqn:E.
      * cbn [filter]. rewrite IH1 by assumption.
        destruct (P a1); reflexivity.
      * cbn [filter] in *. rewrite (IH2 Hol2).
        destruct (P a2) eqn:Pa2; [| reflexivity].
        assert (Hnone : (if P a1 then a1 :: filter P l1 else filter P l1) = []).
        { destruct (P a1) eqn:Pa1.
          - rewrite (P_tie a1 a2 Hoa1 Hoa2 Pa1 Pa2) in E. discriminate E.
          - destruct (filter P l1) as [| y r] eqn:Ef; [reflexivity |].
            assert (Hy : In y (filter P l1)) by (rewrite Ef; left; reflexivity).
            apply filter_In in Hy. destruct Hy as [Hy HPy].
            rewrite Forall_forall in Hol1, Hle1.
            rewrite (cmp_trans a1 y a2 Hoa1 (Hol1 y Hy) Hoa2 (Hle1 y Hy)
                       (P_tie y a2 (Hol1 y Hy) Hoa2 HPy Pa2)) in E.
            discriminate E. }
        rewrite Hnone. reflexivity.
Qed.

Lemma msort_halves_perm (depth : nat) (l : list A) :
  Permutation (msort_halves cmp depth l) l.
Proof.
  revert l. induction depth as [| d IH]; intros l; cbn [msort_halves].
  - reflexivity.
  - destruct (length l <? 2)%nat; [reflexivity |].
    etransitivity; [apply merge_perm |].
    transitivity (firstn (Nat.div2 (length l)) l ++ skipn (Nat.div2 (length l)) l).
    + apply Permutation_app; apply IH.
    + rewrite firstn_skipn. reflexivity.
Qed.

Lemma msort_halves_filter (depth : nat) (l : list A) :
  Forall ok l -> (length l <= S depth)%nat ->
  StronglySorted le (msort_halves cmp depth l) /\
  filter P (msort_halves cmp depth l) = filter P l.
Proof.
  revert l. induction depth as [| d IH]; intros l Hok Hlen; cbn [msort_halves].
  - split; [| reflexivity].
    destruct l as [| a [| b l]]; cbn [length] in Hlen; try lia;
      repeat constructor.
  - destruct (Nat.ltb_spec (length l) 2) as [Hlt | Hge].
    + split; [| reflexivity].
      destruct l as [| a [| b l]]; cbn [length] in Hlt; try lia;
        repeat constructor.
    + assert (Hmid : (1 <= Nat.div2 (length l) < length l)%nat).
      { rewrite Nat.div2_div. split.
        - apply Nat.div_le_lower_bound; lia.
        - apply Nat.div_lt; lia. }
      assert (Hok1 : Forall ok (firstn (Nat.div2 (length l)) l)).
      { rewrite <- (firstn_skipn (Nat.div2 (length l)) l) in Hok.
        apply Forall_app in Hok. tauto. }
      assert (Hok2 : Forall ok (skipn (Nat.div2 (length l)) l)).
      { rewrite <- (firstn_skipn (Nat.div2 (length l)) l) in Hok.
        apply Forall_app in Hok. tauto. }
      destruct (IH _ Hok1) as [Hs1 Hf1]; [rewrite length_firstn; lia |].
      destruct (IH _ Hok2) as [Hs2 Hf2]; [rewrite length_skipn; lia |].
      assert (Hp1 := msort_halves_perm d (firstn (Nat.div2 (length l)) l)).
      assert (Hp2 := msort_halves_perm d (skipn (Nat.div2 (length l)) l)).
      split.
      * apply merge_sorted; try assumption.
        -- apply (Permutation_Forall (Permutation_sym Hp1)). exact Hok1.
        -- apply (Permutation_Forall (Permutation_sym Hp2)). exact Hok2.
      * rewrite merge_filter; try assumption.
        -- rewrite Hf1, Hf2, <- filter_app, firstn_skipn. reflexivity.
        -- apply (Permutation_Forall (Permutation_sym Hp1)). exact Hok1.
        -- apply (Permutation_Forall (Permutation_sym Hp2)). exact Hok2.
Qed.

End MergeSortProps.

(** *** Arrays read and written as lists *)

Lemma read_array_length {A : Type} (a : Z -> A) (n : nat) :
  length (read_array a n) = n.
Proof. unfold read_array. rewrite length_map, length_seq. reflexivity. Qed.

Lemma read_array_nth {A : Type} (a : Z -> A) (n k : nat) (d : A) :
  (k < n)%nat -> nth k (read_array a n) d = a (Z.of_nat k).
Proof.
  intros Hk. unfold read_array.
  rewrite (nth_indep _ d (a (Z.of_nat 0))) by (rewrite length_map, length_seq; exact Hk).
  rewrite (map_nth (fun k => a (Z.of_nat k)) (seq 0 n) 0%nat k).
  rewrite seq_nth by exact Hk. reflexivity.
Qed.

Lemma read_array_In {A : Type} (a : Z -> A) (n : nat) (e : A) :
  In e (read_array a n) <-> exists k, 0 <= k < Z.of_nat n /\ a k = e.
Proof.
  unfold read_array. rewrite in_map_iff. split.
  - intros (k & <- & Hk). apply in_seq in Hk. exists (Z.of_nat k). split; [lia | reflexivity].
  - intros (k & Hk & <-). exists (Z.to_nat k). split.
    + rewrite Z2Nat.id by lia. reflexivity.
    + apply in_seq. lia.
Qed.

Lemma write_array_nth {A : Type} (a : Z -> A) (l : list A) (k : nat) (d : A) :
  (k < length l)%nat -> write_array a l (Z.of_nat k) = nth k l d.
Proof.
  intros Hk. unfold write_array.
  destruct (Z.leb_spec 0 (Z.of_nat k)); [| lia].
  destruct (Z.ltb_spec (Z.of_nat k) (Z.of_nat (length l))); [| lia].
  cbn [andb]. rewrite Nat2Z.id. apply nth_indep. exact Hk.
Qed.

Lemma read_write_array {A : Type} (a : Z -> A) (l : list A) :
  read_array (write_array a l) (length l) = l.
Proof.
  destruct l as [| d l']; [reflexivity |].
  apply (nth_ext _ _ d d).
  - apply read_array_length.
  - intros k Hk. rewrite read_array_length in Hk.
    rewrite read_array_nth by exact Hk.
    apply write_array_nth. exact Hk.
Qed.

Lemma strongly_sorted_nth {A : Type} (R : A -> A -> Prop) (l : list A) (d : A) :
  StronglySorted R l ->
  forall i j, (i < j < length l)%nat -> R (nth i l d) (nth j l d).
Proof.
  induction 1 as [| a l Hs IH Hall]; intros i j Hij; cbn [length] in Hij; [lia |].
  destruct j as [| j]; [lia |]. destruct i as [| i]; cbn [nth].
  - rewrite Forall_forall in Hall. apply Hall. apply nth_In. lia.
  - apply IH. lia.
Qed.

(** *** Filling the depth table *)

Lemma fill_minz_spec (list : tr_list) (rc : tr_context) (n : nat) :
  forall (i : Z) (mz : Z -> float),
    (forall k, i <= k < i + Z.of_nat n -> num_verts (surfs rc (l_surfs list k)) = 3) ->
    exists mz',
      fill_minz n i list rc mz = Ok mz' /\
      (forall k, i <= k < i + Z.of_nat n ->
         mz' (l_surfs list k) = entry_minz rc (l_surfs list k)) /\
      (forall e, mz e = entry_minz rc e -> mz' e = entry_minz rc e).
Proof.
  induction n as [| n IH]; intros i mz Htri.
  - exists mz. cbn [fill_minz]. split; [reflexivity |].
    split; [intros k Hk; lia | auto].
  - cbn [fill_minz]. unfold check.
    rewrite (Htri i) by lia. cbn [Z.eqb Pos.eqb bind].
    destruct (IH (i + 1)
                 (upd mz (l_surfs list i) (surf_minz rc (surfs rc (l_surfs list i)))))
      as (mz' & Hrun & Hin & Hkeep).
    { intros k Hk. apply Htri. lia. }
    exists mz'. split; [exact Hrun |]. split.
    + intros k Hk. destruct (Z.eq_dec k i) as [-> | Hne].
      * apply Hkeep. apply upd_same.
      * apply Hin. lia.
    + intros e He. apply Hkeep. unfold upd.
      destruct (Z.eqb_spec e (l_surfs list i)) as [-> | _]; [reflexivity | exact He].
Qed.

(** *** The sort of a list *)

Lemma sort_entries (mz : Z -> float) (rc : tr_context) (lt : Z) :
  let list := lists rc lt in
  let rc' :=
    set_lists rc
      (upd (lists rc) lt
           (mkList (msort_noalloc (tr_compare_surf mz) (l_surfs list)
                                  (l_num_surfs list))
                   (l_num_surfs list) (l_num_orig_surfs list))) in
  list_entries rc' lt = msort (tr_compare_surf mz) (list_entries rc lt).
Proof.
  intros list rc'. unfold list_entries. subst rc'. rc_simpl. upd_simpl.
  rc_simpl. unfold msort_noalloc. fold list.
  set (s := msort (tr_compare_surf mz) _).
  assert (Hlen : length s = Z.to_nat (l_num_surfs list)).
  { unfold s, msort. rewrite (Permutation_length (msort_halves_perm _ _ _ _)).
    apply read_array_length. }
  rewrite <- Hlen. apply read_write_array.
Qed.

(** When every entry of the list is a triangle and no entry has a NaN sort
    key, [tr_sort_surfaces] returns, the list holds the same entries,
    adjacent entries are in ascending key order and entries of equal key
    keep their order. *)
Lemma sort_sorted_by_key (sort_minz : Z -> float) (rc : tr_context)
    (lt : Z) :
  all_triangles rc lt ->
  no_nan_minz rc lt ->
  exists mz rc',
    tr_sort_surfaces sort_minz rc lt = Ok (mz, rc') /\
    surfs rc' = surfs rc /\ verts rc' = verts rc /\
    l_num_surfs (lists rc' lt) = l_num_surfs (lists rc lt) /\
    Permutation (list_entries rc' lt) (list_entries rc lt) /\
    sorted_adjacent rc' lt /\
    ties_keep_order rc rc' lt.
Proof.
  intros Htri Hnan. unfold tr_sort_surfaces.
  destruct (fill_minz_spec (lists rc lt) rc (Z.to_nat (l_num_surfs (lists rc lt)))
              0 sort_minz) as (mz & Hrun & Hin & _).
  { intros k Hk. apply Htri. unfold list_entries. apply read_array_In.
    exists k. split; [lia | reflexivity]. }
  rewrite Hrun. cbn [bind]. eexists. eexists. split; [reflexivity |].
  pose proof (sort_entries mz rc lt) as Hent. cbv zeta in Hent.
  set (rc' := set_lists rc _) in *.
  set (l := list_entries rc lt) in *.
  set (ok := fun e : Z => mz e = entry_minz rc e /\
                          F32.is_nan (entry_minz rc e) = false).
  assert (Hok : Forall ok l).
  { apply Forall_forall. intros e He. split; [| apply Hnan; exact He].
    unfold l, list_entries in He. apply read_array_In in He.
    destruct He as (k & Hk & <-). apply Hin. lia. }
  assert (Htot : forall a b, ok a -> ok b ->
                   tr_compare_surf mz a b = false -> tr_compare_surf mz b a = true).
  { intros a b [Ha Hna] [Hb Hnb]. unfold tr_compare_surf. rewrite Ha, Hb.
    apply leb_total; assumption. }
  assert (Htrans : forall a b c, ok a -> ok b -> ok c ->
                     tr_compare_surf mz a b = true -> tr_compare_surf mz b c = true ->
                     tr_compare_surf mz a c = true).
  { intros a b c [Ha Hna] [Hb Hnb] [Hc Hnc]. unfold tr_compare_surf.
    rewrite Ha, Hb, Hc. apply leb_trans; assumption. }
  assert (Hsorted : forall x,
            StronglySorted (fun a b => tr_compare_surf mz a b = true)
                           (msort (tr_compare_surf mz) l) /\
            filter (fun e => F32.eqb (entry_minz rc e) x) (msort (tr_compare_surf mz) l) =
            filter (fun e => F32.eqb (entry_minz rc e) x) l).
  { intros x. unfold msort.
    apply (msort_halves_filter Z (tr_compare_surf mz) ok Htot Htrans); [| exact Hok | lia].
    intros a b [Ha Hna] [Hb Hnb] Pa Pb. unfold tr_compare_surf. rewrite Ha, Hb.
    rewrite eqb_leb in Pa, Pb.
    apply andb_true_iff in Pa. apply andb_true_iff in Pb.
    assert (Hnx : F32.is_nan x = false).
    { destruct x; try reflexivity. destruct Pa as [Pa _].
      unfold F32.leb, SFleb, SFcompare in Pa. destruct (entry_minz rc a); discriminate Pa. }
    apply (leb_trans _ x _); tauto. }
  assert (Hperm : Permutation (list_entries rc' lt) l).
  { rewrite Hent. apply msort_halves_perm. }
  assert (Hnum : l_num_surfs (lists rc' lt) = l_num_surfs (lists rc lt)).
  { unfold rc'. rc_simpl. upd_simpl. reflexivity. }
  split; [reflexivity |]. split; [reflexivity |].
  split; [exact Hnum |].
  split; [exact Hperm |].
  split.
  - intros k Hk0 Hk1.
    assert (Hn : l_num_surfs (lists rc' lt) = Z.of_nat (length (list_entries rc' lt))).
    { rewrite (Permutation_length Hperm). unfold l, list_entries.
      rewrite read_array_length. lia. }
    assert (Hnth : forall j, 0 <= j < l_num_surfs (lists rc' lt) ->
              l_surfs (lists rc' lt) j = nth (Z.to_nat j) (list_entries rc' lt) 0).
    { intros j Hj. unfold list_entries. rewrite read_array_nth by lia.
      rewrite Z2Nat.id by lia. reflexivity. }
    rewrite !Hnth by lia.
    destruct (Hsorted F32.zero) as [Hs _]. rewrite <- Hent in Hs.
    pose proof (strongly_sorted_nth _ _ 0 Hs (Z.to_nat k) (Z.to_nat (k + 1))
                  ltac:(lia)) as Hle.
    cbv beta in Hle. unfold tr_compare_surf in Hle.
    assert (Hokn : forall j, (j < length (list_entries rc' lt))%nat ->
              ok (nth j (list_entries rc' lt) 0)).
    { intros j Hj. rewrite Forall_forall in Hok. apply Hok.
      apply (Permutation_in _ Hperm). apply nth_In. exact Hj. }
    destruct (Hokn (Z.to_nat k) ltac:(lia)) as [E1 _].
    destruct (Hokn (Z.to_nat (k + 1)) ltac:(lia)) as [E2 _].
    rewrite E1, E2 in Hle. exact Hle.
  - intros x. rewrite Hent. apply (Hsorted x).
Qed.

(** C4, as stated, fails: with a NaN depth no order of the two entries puts
    every adjacent pair in [<=] order. *)
Lemma sort_surfaces_nan_counterexample :
  ~ (forall (sort_minz : Z -> float) (rc : tr_context) (lt : Z)
            (mz : Z -> float) (rc' : tr_context),
       tr_sort_surfaces sort_minz rc lt = Ok (mz, rc') ->
       sorted_adjacent rc' lt).
Proof.
  intros H.
  destruct (tr_sort_surfaces (fun _ => F32.zero) (ex_rc_two S754_nan (F32.of_Z 1))
                             TA_LIST_TRANSLUCENT)
    as [[mz rc'] | |] eqn:E;
    [| vm_compute in E; discriminate E | vm_compute in E; discriminate E].
  specialize (H _ _ _ _ _ E 0).
  unfold tr_sort_surfaces in E. cbn [bind ex_rc_two lists Z.eqb Pos.eqb TA_LIST_TRANSLUCENT
    l_num_surfs Z.to_nat Pos.to_nat Pos.iter_op Nat.add fill_minz] in E.
  vm_compute in E. injection E as _ <-.
  vm_compute in H.
  specialize (H ltac:(discriminate) ltac:(reflexivity)). discriminate H.
Qed.

(** *** The sort key is the minimum depth *)

Lemma leb_refl (a : float) : F32.is_nan a = false -> F32.leb a a = true.
Proof.
  intros Ha. destruct (F32.leb a a) eqn:E; [reflexivity |].
  rewrite <- E. apply leb_total; assumption.
Qed.

Lemma fMIN_min (a b : float) :
  F32.is_nan a = false -> F32.is_nan b = false ->
  (fMIN a b = a \/ fMIN a b = b) /\
  F32.leb (fMIN a b) a = true /\ F32.leb (fMIN a b) b = true.
Proof.
  intros Ha Hb. unfold fMIN. destruct (F32.ltb a b) eqn:E.
  - split; [left; reflexivity |]. split; [apply leb_refl; exact Ha |].
    unfold F32.ltb, SFltb in E. unfold F32.leb, SFleb.
    destruct (SFcompare a b) as [[| |] |]; try discriminate E; reflexivity.
  - split; [right; reflexivity |]. split; [| apply leb_refl; exact Hb].
    destruct (F32.leb b a) eqn:E2; [reflexivity |].
    pose proof (leb_total b a Hb Ha E2) as E3.
    unfold F32.ltb, SFltb in E. unfold F32.leb, SFleb in E2, E3.
    rewrite (compare_swap a b) in E2.
    destruct (SFcompare a b) as [[| |] |]; cbn in E2; discriminate.
Qed.

Lemma surf_minz_min (rc : tr_context) (e : Z) :
  (forall k, 0 <= k <= 2 -> F32.is_nan (vertex_z rc e k) = false) ->
  is_min3 (entry_minz rc e) (vertex_z rc e 0) (vertex_z rc e 1) (vertex_z rc e 2) /\
  F32.is_nan (entry_minz rc e) = false.
Proof.
  intros Hn. unfold entry_minz, surf_minz. cbv zeta.
  fold (vertex_z rc e 0). fold (vertex_z rc e 1). fold (vertex_z rc e 2).
  pose proof (Hn 0 ltac:(lia)) as H0. pose proof (Hn 1 ltac:(lia)) as H1.
  pose proof (Hn 2 ltac:(lia)) as H2.
  set (z0 := vertex_z rc e 0) in *. set (z1 := vertex_z rc e 1) in *.
  set (z2 := vertex_z rc e 2) in *.
  destruct (fMIN_min z0 z1 H0 H1) as (M1 & L10 & L11).
  assert (N1 : F32.is_nan (fMIN z0 z1) = false)
    by (destruct M1 as [-> | ->]; assumption).
  destruct (fMIN_min (fMIN z0 z1) z2 N1 H2) as (M2 & L20 & L22).
  assert (N2 : F32.is_nan (fMIN (fMIN z0 z1) z2) = false)
    by (destruct M2 as [-> | ->]; assumption).
  split; [| exact N2]. split.
  - destruct M2 as [-> | ->]; [| tauto]. destruct M1 as [-> | ->]; tauto.
  - split; [apply (leb_trans _ (fMIN z0 z1)); assumption |].
    split; [apply (leb_trans _ (fMIN z0 z1)); assumption | exact L22].
Qed.

(** A NaN depth at the second vertex makes the key the depth of the third
    vertex, whatever the first one is. *)
Lemma surf_minz_nan_second (rc : tr_context) (e : Z) :
  F32.is_nan (vertex_z rc e 1) = true ->
  entry_minz rc e = vertex_z rc e 2.
Proof.
  unfold entry_minz, surf_minz, vertex_z. cbv zeta. intros H.
  destruct (v2 (xyz (verts rc (first_vert (surfs rc e) + 1)))); try discriminate H.
  unfold fMIN, F32.ltb, SFltb.
  replace (SFcompare (v2 (xyz (verts rc (first_vert (surfs rc e) + 0)))) S754_nan)
    with (@None comparison)
    by (destruct (v2 (xyz (verts rc (first_vert (surfs rc e) + 0)))); reflexivity).
  reflexivity.
Qed.

(** C4, as amended: when every entry of a list is a triangle and no vertex
    of them has a NaN depth, [tr_sort_surfaces] returns and the list holds
    the same entries; the key [minz] of every entry is the minimum of the
    depths of its three vertices; for every adjacent pair [(s, t)] of the
    sorted list [minz(s) <= minz(t)]; and entries of equal [minz] keep their
    submission order. *)
Theorem sort_surfaces_sorted_stable (sort_minz : Z -> float) (rc : tr_context)
    (lt : Z) :
  all_triangles rc lt ->
  no_nan_depths rc lt ->
  exists mz rc',
    tr_sort_surfaces sort_minz rc lt = Ok (mz, rc') /\
    surfs rc' = surfs rc /\ verts rc' = verts rc /\
    l_num_surfs (lists rc' lt) = l_num_surfs (lists rc lt) /\
    Permutation (list_entries rc' lt) (list_entries rc lt) /\
    minz_is_minimum rc' lt /\
    sorted_adjacent rc' lt /\
    ties_keep_order rc rc' lt.
Proof.
  intros Htri Hnan.
  destruct (sort_sorted_by_key sort_minz rc lt Htri) as
    (mz & rc' & Hrun & Hs & Hv & Hn & Hperm & Hsorted & Hties).
  { intros e He. apply surf_minz_min. intros k Hk. apply Hnan; assumption. }
  exists mz, rc'. split; [exact Hrun |]. split; [exact Hs |]. split; [exact Hv |].
  split; [exact Hn |]. split; [exact Hperm |].
  split; [| split; assumption].
  intros e He.
  assert (He' : In e (list_entries rc lt)) by (apply (Permutation_in _ Hperm); exact He).
  unfold entry_minz, surf_minz, vertex_z. rewrite Hs, Hv.
  apply (surf_minz_min rc e). intros k Hk. apply Hnan; assumption.
Qed.

Lemma sort_surfaces_sorted_stable_witness :
  exists mz rc',
    tr_sort_surfaces (fun _ => F32.zero) (ex_rc_two (F32.of_Z 5) (F32.of_Z 1))
                     TA_LIST_TRANSLUCENT = Ok (mz, rc') /\
    list_entries rc' TA_LIST_TRANSLUCENT = [1; 0] /\
    minz_is_minimum rc' TA_LIST_TRANSLUCENT /\
    sorted_adjacent rc' TA_LIST_TRANSLUCENT.
Proof.
  destruct (sort_surfaces_sorted_stable (fun _ => F32.zero)
              (ex_rc_two (F32.of_Z 5) (F32.of_Z 1)) TA_LIST_TRANSLUCENT)
    as (mz & rc' & Hrun & _ & _ & _ & _ & Hmin & Hs & _).
  - intros e He. cbn in He. destruct He as [<- | [<- | []]]; reflexivity.
  - intros e k He Hk. cbn in He.
    assert (Hk' : k = 0 \/ k = 1 \/ k = 2) by lia.
    destruct He as [<- | [<- | []]]; destruct Hk' as [-> | [-> | ->]];
      vm_compute; reflexivity.
  - exists mz, rc'. split; [exact Hrun |]. split; [| split; [exact Hmin | exact Hs]].
    vm_compute in Hrun. injection Hrun as _ <-. vm_compute. reflexivity.
Defined.


(** ** Conversion and the prior contents of the render context *)

(** C10: the conversion of one fixed input into two render contexts with
    different prior contents gives the same counts, yet a vertex below
    [num_verts] differs: a translucent strip of a single vertex advances
    the vertex count by two, over a cell the conversion never writes. *)
Theorem convert_exposes_prior_vertex :
  let ctx := ex_ctx false ex_stream_short_strip in
  let convert := tr_convert_context 16 64 64 hw_frontend f32_vecmath ex_world
                                    (fun _ => F32.zero) ctx in
  exists w1 mz1 rc1 w2 mz2 rc2,
    convert ex_rc_blank = Ok (w1, mz1, rc1) /\
    convert ex_rc_prior = Ok (w2, mz2, rc2) /\
    num_surfs rc1 = 1 /\ num_surfs rc2 = 1 /\
    rc_num_verts rc1 = 6 /\ rc_num_verts rc2 = 6 /\
    num_indices rc1 = 6 /\ num_indices rc2 = 6 /\
    color (verts rc1 5) = color_zero /\
    color (verts rc2 5) = mkColor 1 2 3 4 /\
    verts rc1 5 <> verts rc2 5.
Proof.
  intros ctx convert.
  destruct (convert ex_rc_blank) as [[[w1 mz1] rc1] | |] eqn:E1;
    [| vm_compute in E1; discriminate E1 | vm_compute in E1; discriminate E1].
  destruct (convert ex_rc_prior) as [[[w2 mz2] rc2] | |] eqn:E2;
    [| vm_compute in E2; discriminate E2 | vm_compute in E2; discriminate E2].
  exists w1, mz1, rc1, w2, mz2, rc2.
  split; [reflexivity |]. split; [reflexivity |].
  vm_compute in E1. injection E1 as _ _ <-.
  vm_compute in E2. injection E2 as _ _ <-.
  repeat (split; [vm_compute; reflexivity |]).
  vm_compute. intros H. discriminate H.
Qed.

(* ================================================================== *)
(** * Further properties of the renderer *)

(** ** Colour arithmetic *)

(** X1: on bytes the fixed point multiply is commutative, has 255 as its
    unit and 0 as its zero, and never exceeds either operand. *)
Theorem fmulu8_algebra (a b : Z) :
  0 <= a <= 255 -> 0 <= b <= 255 ->
  fmulu8 a b = fmulu8 b a /\
  fmulu8 a 255 = a /\
  fmulu8 a 0 = 0 /\
  0 <= fmulu8 a b <= Z.min a b.
Proof.
  intros Ha Hb.
  assert (Hab : 0 <= a * b <= 255 * 255) by nia.
  assert (Hq : 0 <= a * b / 255 <= 255).
  { split; [apply Z.div_pos; lia | apply Z.div_le_upper_bound; lia]. }
  unfold fmulu8. split; [| split; [| split]].
  - rewrite (Z.mul_comm b a). reflexivity.
  - rewrite Z.div_mul by lia. apply to_u8_small. lia.
  - rewrite Z.mul_0_r. reflexivity.
  - rewrite to_u8_small by lia. split; [lia |].
    apply Z.min_glb; apply Z.div_le_upper_bound; nia.
Qed.

Lemma fmulu8_algebra_witness :
  fmulu8 200 127 = fmulu8 127 200 /\ fmulu8 200 255 = 200 /\
  fmulu8 200 0 = 0 /\ 0 <= fmulu8 200 127 <= Z.min 200 127.
Proof. apply (fmulu8_algebra 200 127); lia. Defined.

(** ** Texture resolver *)

(** X3: the resolver memoises. Once it has returned a live handle for a
    register pair, resolving the same pair again returns the same handle and
    leaves the cache and the backend as they are: no second upload. *)
Theorem convert_texture_memoized (fe : frontend) (w : world) (ctx : ta_context)
    (s : tsp) (c : tcw) (w1 : world) (h : Z) :
  tr_convert_texture fe w ctx s c = Ok (w1, h) ->
  h <> 0 ->
  tr_convert_texture fe w1 ctx s c = Ok (w1, h).
Proof.
  intros H Hh. unfold tr_convert_texture in H.
  destruct (cache w (tsp_full s) (tcw_full c)) as [entry |] eqn:Ec; [| discriminate H].
  destruct (negb (tex_handle entry =? 0) && negb (tex_dirty entry)) eqn:Ehit.
  - injection H as <- <-. unfold tr_convert_texture. rewrite Ec, Ehit. reflexivity.
  - injection H as <- <-. unfold tr_convert_texture. cbn [cache].
    rewrite !Z.eqb_refl. cbn [andb tex_handle tex_dirty negb].
    match goal with
    | |- (if negb (?x =? 0) && true then _ else _) = _ =>
        destruct (Z.eqb_spec x 0) as [E0 | _]; [contradiction | reflexivity]
    end.
Qed.

Lemma convert_texture_memoized_witness :
  exists w1 h,
    tr_convert_texture hw_frontend (ex_world_entry 0 false) (ex_ctx false [])
                       ex_tsp ex_tcw = Ok (w1, h) /\
    h = 2 /\
    tr_convert_texture hw_frontend w1 (ex_ctx false []) ex_tsp ex_tcw = Ok (w1, h).
Proof.
  destruct (tr_convert_texture hw_frontend (ex_world_entry 0 false) (ex_ctx false [])
                               ex_tsp ex_tcw) as [[w1 h] | |] eqn:E;
    [| vm_compute in E; discriminate E | vm_compute in E; discriminate E].
  assert (Hh : h = 2). { vm_compute in E. injection E as _ <-. reflexivity. }
  exists w1, h. split; [reflexivity |]. split; [exact Hh |].
  apply (convert_texture_memoized hw_frontend (ex_world_entry 0 false)
                                  (ex_ctx false []) ex_tsp ex_tcw w1 h E).
  rewrite Hh. discriminate.
Defined.

(** X4: a cache entry that is dirty, or has no handle yet, is uploaded
    again: a live dirty handle is destroyed first, then one texture is
    created with the sampler state derived from [tsp]; the entry is stored
    back clean with the new handle and no other entry changes. A null entry
    aborts. *)
Theorem convert_texture_refresh (fe : frontend) (w : world) (ctx : ta_context)
    (s : tsp) (c : tcw) :
  (cache w (tsp_full s) (tcw_full c) = None ->
   tr_convert_texture fe w ctx s c = Fatal) /\
  (forall entry,
     cache w (tsp_full s) (tcw_full c) = Some entry ->
     tex_handle entry = 0 \/ tex_dirty entry = true ->
     exists w1 h mipmaps wd ht pixels,
       tr_convert_texture fe w ctx s c = Ok (w1, h) /\
       calls w1 =
         calls w ++
         (if tex_handle entry =? 0 then [] else [DestroyTexture (tex_handle entry)]) ++
         [CreateTexture (tsp_filter s) (tsp_wrap (clamp_u s) (flip_u s))
                        (tsp_wrap (clamp_v s) (flip_v s)) mipmaps wd ht pixels] /\
       h = r_create_texture fe (calls w1) /\
       (exists e1, cache w1 (tsp_full s) (tcw_full c) = Some e1 /\
                   tex_handle e1 = h /\ tex_dirty e1 = false /\
                   tex_filter e1 = tsp_filter s) /\
       (forall a b, (a, b) <> (tsp_full s, tcw_full c) ->
                    cache w1 a b = cache w a b)).
Proof.
  split.
  - intros Hn. unfold tr_convert_texture. rewrite Hn. reflexivity.
  - intros entry Hc Hst. unfold tr_convert_texture. rewrite Hc.
    assert (Hmiss : negb (tex_handle entry =? 0) && negb (tex_dirty entry) = false).
    { destruct Hst as [-> | ->]; [reflexivity | apply andb_false_r]. }
    rewrite Hmiss.
    do 6 eexists. split; [reflexivity |]. cbn [calls cache].
    split.
    { fold (tsp_filter s). fold (tsp_wrap (clamp_u s) (flip_u s)).
      fold (tsp_wrap (clamp_v s) (flip_v s)).
      destruct (tex_handle entry =? 0) eqn:E0; cbn [negb andb app].
      - reflexivity.
      - destruct (tex_dirty entry) eqn:Ed.
        + rewrite <- app_assoc. reflexivity.
        + destruct Hst as [H0 | H1]; [| discriminate H1].
          rewrite H0 in E0. discriminate E0. }
    split; [reflexivity |].
    split.
    { eexists. rewrite !Z.eqb_refl. cbn [andb]. split; [reflexivity |].
      cbn [tex_handle tex_dirty tex_filter]. repeat split; reflexivity. }
    intros a b Hab.
    destruct (Z.eqb_spec a (tsp_full s)) as [-> | _];
      destruct (Z.eqb_spec b (tcw_full c)) as [-> | _]; cbn [andb];
      try reflexivity.
    contradiction Hab. reflexivity.
Qed.

Lemma convert_texture_refresh_witness :
  exists w1 h mipmaps wd ht pixels,
    tr_convert_texture hw_frontend (ex_world_entry 5 true) (ex_ctx false [])
                       ex_tsp ex_tcw = Ok (w1, h) /\
    calls w1 =
      [DestroyTexture 5;
       CreateTexture FILTER_NEAREST WRAP_REPEAT WRAP_REPEAT mipmaps wd ht pixels].
Proof.
  destruct (proj2 (convert_texture_refresh hw_frontend (ex_world_entry 5 true)
                     (ex_ctx false []) ex_tsp ex_tcw)
                  (ex_entry 5 true) eq_refl (or_intror eq_refl))
    as (w1 & h & mipmaps & wd & ht & pixels & Hrun & Hcalls & _).
  exists w1, h, mipmaps, wd, ht, pixels. split; [exact Hrun | exact Hcalls].
Defined.

(** ** Reserving and committing *)

(** X5: the capacity checks of the two reserve functions. Reserving a
    surface aborts exactly when the surface array is full, or when a copy
    of the previous surface is asked for and there is none; reserving a
    vertex aborts exactly when the cell after the staged strip is beyond
    the vertex array. Neither touches the counters of the context. *)
Theorem reserve_capacity_checks (SURFS_SIZE VERTS_SIZE : Z) (rc : tr_context)
    (copy : bool) :
  (tr_reserve_surf SURFS_SIZE rc copy = Fatal <->
   SURFS_SIZE <= num_surfs rc \/ (copy = true /\ num_surfs rc = 0)) /\
  (tr_reserve_vert VERTS_SIZE rc = Fatal <->
   VERTS_SIZE <= rc_num_verts rc + num_verts (surfs rc (num_surfs rc))) /\
  (forall rc', tr_reserve_surf SURFS_SIZE rc copy = Ok rc' ->
     num_surfs rc' = num_surfs rc /\ rc_num_verts rc' = rc_num_verts rc /\
     num_verts (surfs rc' (num_surfs rc)) = 0 /\
     first_vert (surfs rc' (num_surfs rc)) = rc_num_verts rc) /\
  (forall rc' i, tr_reserve_vert VERTS_SIZE rc = Ok (rc', i) ->
     num_surfs rc' = num_surfs rc /\ rc_num_verts rc' = rc_num_verts rc /\
     i < VERTS_SIZE /\ verts rc' i = vert_zero /\
     num_verts (surfs rc' (num_surfs rc)) =
       num_verts (surfs rc (num_surfs rc)) + 1).
Proof.
  split; [| split; [| split]].
  - unfold tr_reserve_surf, check.
    destruct (Z.ltb_spec (num_surfs rc) SURFS_SIZE); cbn [bind];
      destruct copy; cbn [bind];
      try (destruct (Z.eqb_spec (num_surfs rc) 0); cbn [negb bind]);
      (split;
       [ intros H'; try discriminate H';
         first [left; lia | right; split; [reflexivity | lia]]
       | intros [H' | [H1 H2]]; try reflexivity; try lia; try discriminate ]).
  - unfold tr_reserve_vert, check.
    destruct (Z.ltb_spec (rc_num_verts rc + num_verts (surfs rc (num_surfs rc)))
                         VERTS_SIZE); cbn [bind]; split; intros H';
      try discriminate H'; try reflexivity; lia.
  - intros rc' H. apply reserve_surf_frame in H. tauto.
  - intros rc' i H. apply reserve_vert_spec in H. destruct H as (-> & Hlt & ->).
    rc_simpl. upd_simpl. rc_simpl. repeat split; try reflexivity. exact Hlt.
Qed.

(** X6: committing a translucent or punch-through strip of fewer than three
    vertices emits no surface and no list entry, yet counts the strip in
    [num_orig_surfs] and advances the vertex count by two whatever the
    number of staged vertices. *)
Theorem commit_short_strip (SURFS_SIZE : Z) (t : tr) (rc : tr_context) :
  list_type t = TA_LIST_TRANSLUCENT \/ list_type t = TA_LIST_PUNCH_THROUGH ->
  num_verts (surfs rc (num_surfs rc)) <= 2 ->
  exists rc',
    tr_commit_surf SURFS_SIZE t rc = Ok rc' /\
    num_surfs rc' = num_surfs rc /\
    surfs rc' = surfs rc /\
    rc_num_verts rc' = rc_num_verts rc + 2 /\
    l_num_surfs (lists rc' (list_type t)) = l_num_surfs (lists rc (list_type t)) /\
    l_surfs (lists rc' (list_type t)) = l_surfs (lists rc (list_type t)) /\
    l_num_orig_surfs (lists rc' (list_type t)) =
      l_num_orig_surfs (lists rc (list_type t)) + 1.
Proof.
  intros Hlt Hn. unfold tr_commit_surf.
  assert (Htest : (list_type t =? TA_LIST_TRANSLUCENT) ||
                  (list_type t =? TA_LIST_PUNCH_THROUGH) = true).
  { destruct Hlt as [-> | ->]; reflexivity. }
  rewrite Htest.
  replace (Z.to_nat (num_verts (surfs rc (num_surfs rc)) - 2)) with 0%nat by lia.
  cbn [commit_tris bind]. eexists. split; [reflexivity |].
  rc_simpl. upd_simpl. rc_simpl. repeat split; reflexivity.
Qed.

Lemma commit_short_strip_witness :
  exists rc',
    tr_commit_surf 8 (ex_tr TA_LIST_TRANSLUCENT 0) ex_rc_blank = Ok rc' /\
    num_surfs rc' = 0 /\ rc_num_verts rc' = 2 /\
    l_num_orig_surfs (lists rc' TA_LIST_TRANSLUCENT) = 1.
Proof.
  destruct (commit_short_strip 8 (ex_tr TA_LIST_TRANSLUCENT 0) ex_rc_blank
              (or_introl eq_refl) ltac:(cbn; lia))
    as (rc' & Hrun & HS & _ & HV & _ & _ & HO).
  exists rc'. repeat split; assumption.
Defined.

Lemma reserve_surf_fresh_eq (SURFS_SIZE : Z) (rc : tr_context) :
  tr_reserve_surf SURFS_SIZE rc false =
  if num_surfs rc <? SURFS_SIZE
  then Ok (set_surfs rc (upd (surfs rc) (num_surfs rc)
                             (mkSurface params_zero (rc_num_verts rc) 0 0)))
  else Fatal.
Proof.
  unfold tr_reserve_surf, check. destruct (num_surfs rc <? SURFS_SIZE); reflexivity.
Qed.

Lemma reserve_vert_eq (VERTS_SIZE : Z) (rc : tr_context) :
  tr_reserve_vert VERTS_SIZE rc =
  let i := rc_num_verts rc + num_verts (surfs rc (num_surfs rc)) in
  if i <? VERTS_SIZE
  then Ok (set_surfs (set_verts rc (upd (verts rc) i vert_zero))
             (upd (surfs rc) (num_surfs rc)
                  (set_num_verts (surfs rc (num_surfs rc))
                                 (num_verts (surfs rc (num_surfs rc)) + 1))), i)
  else Fatal.
Proof.
  unfold tr_reserve_vert, check. cbv zeta.
  destruct (_ <? VERTS_SIZE); reflexivity.
Qed.

(** ** Polygon parameter handler, all lists *)

(** What a polygon parameter that opens a surface leaves behind. *)
Lemma poly_param_effect (SURFS_SIZE : Z) (fe : frontend) (w : world) (t : tr)
    (ctx : ta_context) (rc : tr_context) (data : ta_param)
    (w' : world) (t' : tr) (rc' : tr_context) :
  ta_poly_type fe (p_pcw data) <> 6 ->
  tr_parse_poly_param SURFS_SIZE fe w t ctx rc data = Ok (w', t', rc') ->
  exists df cl sb db sh tex,
    translate_depth_func (depth_compare_mode (pp_isp (p_poly data))) = Ok df /\
    translate_cull (culling_mode (pp_isp (p_poly data))) = Ok cl /\
    translate_src_blend_func (src_alpha_instr (pp_tsp (p_poly data))) = Ok sb /\
    translate_dst_blend_func (dst_alpha_instr (pp_tsp (p_poly data))) = Ok db /\
    translate_shade_mode (texture_shading_instr (pp_tsp (p_poly data))) = Ok sh /\
    (pcw_texture (p_pcw data) = false -> tex = 0 /\ w' = w) /\
    list_type t' = list_type t /\
    vert_type t' = ta_vert_type fe (p_pcw data) /\
    last_vertex t' = None /\
    num_surfs rc' = num_surfs rc /\ rc_num_verts rc' = rc_num_verts rc /\
    lists rc' = lists rc /\ verts rc' = verts rc /\
    first_vert (surfs rc' (num_surfs rc)) = rc_num_verts rc /\
    num_verts (surfs rc' (num_surfs rc)) = 0 /\
    (let q := poly_overrides (list_type t) ctx
                (mkSurfParams 0 (negb (z_write_disable (pp_isp (p_poly data))))
                   df cl sb db sh
                   (negb (use_alpha (pp_tsp (p_poly data))))
                   (ignore_tex_alpha (pp_tsp (p_poly data)))
                   (pcw_offset (p_pcw data))
                   (list_type t =? TA_LIST_PUNCH_THROUGH)
                   (ctx_alpha_ref ctx)) in
     params (surfs rc' (num_surfs rc)) =
     mkSurfParams tex (depth_write q) (sp_depth_func q) (cull q) (src_blend q)
                  (dst_blend q) (shade q) (ignore_alpha q)
                  (ignore_texture_alpha q) (offset_color q) (alpha_test q)
                  (alpha_ref q)).
Proof.
  intros Hpt H. unfold tr_parse_poly_param in H.
  destruct (Z.eqb_spec (ta_poly_type fe (p_pcw data)) 6) as [| _]; [contradiction |].
  destruct_bind H. rename a into t1.
  assert (Ht1 : list_type t1 = list_type t /\
                vert_type t1 = ta_vert_type fe (p_pcw data) /\
                last_vertex t1 = None).
  { clear H Hpt. generalize dependent (ta_poly_type fe (p_pcw data)). intros pt E.
    repeat match type of E with
           | context [match ?q with _ => _ end] =>
               is_var q; destruct q; cbv beta iota in E; try discriminate E
           end;
      repeat destruct_bind E; injection E as <-; repeat split; reflexivity. }
  destruct Ht1 as (Hl1 & Hv1 & Hlv1). clear E.
  destruct_bind H. rename a into rc1.
  rewrite reserve_surf_fresh_eq in E.
  destruct (num_surfs rc <? SURFS_SIZE); [| discriminate E]. injection E as <-.
  destruct_bind H. rename a into df. destruct_bind H. rename a into cl.
  destruct_bind H. rename a into sb. destruct_bind H. rename a into db.
  destruct_bind H. rename a into sh.
  destruct_bind H. destruct a as [w1 tex]. injection H as <- <- <-.
  exists df, cl, sb, db, sh, tex.
  repeat (split; [reflexivity || assumption |]).
  split.
  { intros Hno. rewrite Hno in E4. injection E4 as <- <-. split; reflexivity. }
  rc_simpl. upd_simpl. rc_simpl. rewrite Hl1.
  repeat (split; [reflexivity || assumption |]). reflexivity.
Qed.

(** X7: a polygon parameter parsed in a TRANSLUCENT or TRANSLUCENT_MODVOL
    list keeps the blend factors of the tables and no alpha test; its depth
    function is forced to LEQUAL when the context asks for autosort and is
    the table translation otherwise. *)
Theorem poly_param_translucent (SURFS_SIZE : Z) (fe : frontend) (w : world)
    (t : tr) (ctx : ta_context) (rc : tr_context) (data : ta_param)
    (w' : world) (t' : tr) (rc' : tr_context) :
  list_type t = TA_LIST_TRANSLUCENT \/ list_type t = TA_LIST_TRANSLUCENT_MODVOL ->
  ta_poly_type fe (p_pcw data) <> 6 ->
  tr_parse_poly_param SURFS_SIZE fe w t ctx rc data = Ok (w', t', rc') ->
  let p := params (surfs rc' (num_surfs rc')) in
  let tsp := pp_tsp (p_poly data) in
  alpha_test p = false /\
  translate_src_blend_func (src_alpha_instr tsp) = Ok (src_blend p) /\
  translate_dst_blend_func (dst_alpha_instr tsp) = Ok (dst_blend p) /\
  (autosort ctx = true -> sp_depth_func p = DEPTH_LEQUAL) /\
  (autosort ctx = false ->
   translate_depth_func (depth_compare_mode (pp_isp (p_poly data))) =
     Ok (sp_depth_func p)).
Proof.
  intros Hlt Hpt H.
  destruct (poly_param_effect _ _ _ _ _ _ _ _ _ _ Hpt H)
    as (df & cl & sb & db & sh & tex & Hdf & _ & Hsb & Hdb & _ & _ & _ & _ & _ &
        HS & _ & _ & _ & _ & _ & Hp).
  cbv zeta in *. rewrite HS, Hp.
  destruct Hlt as [Hlt | Hlt]; rewrite Hlt; unfold poly_overrides;
    cbn [Z.eqb Pos.eqb TA_LIST_TRANSLUCENT TA_LIST_TRANSLUCENT_MODVOL
         TA_LIST_PUNCH_THROUGH negb andb orb];
    destruct (autosort ctx);
    cbn [alpha_test src_blend dst_blend sp_depth_func];
    repeat split; try assumption; try reflexivity; intros Hx;
    first [discriminate Hx | assumption | reflexivity].
Qed.

(** X8: in every list that is not translucent (OPAQUE, OPAQUE_MODVOL,
    PUNCH_THROUGH) an opened surface has both blend factors NONE, the depth
    function of the table, and the alpha test set only for PUNCH_THROUGH;
    the handler leaves the surface count, the vertex count and the lists
    alone and stages an empty strip at the current vertex count. *)
Theorem poly_param_opaque (SURFS_SIZE : Z) (fe : frontend) (w : world)
    (t : tr) (ctx : ta_context) (rc : tr_context) (data : ta_param)
    (w' : world) (t' : tr) (rc' : tr_context) :
  list_type t <> TA_LIST_TRANSLUCENT ->
  list_type t <> TA_LIST_TRANSLUCENT_MODVOL ->
  ta_poly_type fe (p_pcw data) <> 6 ->
  tr_parse_poly_param SURFS_SIZE fe w t ctx rc data = Ok (w', t', rc') ->
  let s := surfs rc' (num_surfs rc') in
  src_blend (params s) = BLEND_NONE /\ dst_blend (params s) = BLEND_NONE /\
  translate_depth_func (depth_compare_mode (pp_isp (p_poly data))) =
    Ok (sp_depth_func (params s)) /\
  alpha_test (params s) = (list_type t =? TA_LIST_PUNCH_THROUGH) /\
  alpha_ref (params s) = ctx_alpha_ref ctx /\
  num_surfs rc' = num_surfs rc /\ rc_num_verts rc' = rc_num_verts rc /\
  lists rc' = lists rc /\
  first_vert s = rc_num_verts rc /\ num_verts s = 0.
Proof.
  intros Hn1 Hn2 Hpt H.
  destruct (poly_param_effect _ _ _ _ _ _ _ _ _ _ Hpt H)
    as (df & cl & sb & db & sh & tex & Hdf & _ & _ & _ & _ & _ & _ & _ & _ &
        HS & HV & HL & _ & Hfv & Hnv & Hp).
  cbv zeta in *. rewrite HS, Hp. unfold poly_overrides.
  destruct (Z.eqb_spec (list_type t) TA_LIST_TRANSLUCENT); [contradiction |].
  destruct (Z.eqb_spec (list_type t) TA_LIST_TRANSLUCENT_MODVOL); [contradiction |].
  cbn [negb andb alpha_test alpha_ref src_blend dst_blend sp_depth_func].
  repeat split; try assumption; reflexivity.
Qed.

(** X9: a modifier volume polygon (poly type 6) is skipped: it only resets
    the last vertex and adopts the vertex type of its control word, the
    render context and the backend are untouched. Any poly type other than
    0, 1, 2, 5 and 6 aborts. *)
Theorem poly_param_skipped_or_fatal (SURFS_SIZE : Z) (fe : frontend) (w : world)
    (t : tr) (ctx : ta_context) (rc : tr_context) (data : ta_param) :
  let pt := ta_poly_type fe (p_pcw data) in
  (pt = 6 ->
   tr_parse_poly_param SURFS_SIZE fe w t ctx rc data =
   Ok (w, set_vert_type (set_last_vertex t None) (ta_vert_type fe (p_pcw data)), rc)) /\
  (pt <> 0 -> pt <> 1 -> pt <> 2 -> pt <> 5 -> pt <> 6 ->
   tr_parse_poly_param SURFS_SIZE fe w t ctx rc data = Fatal).
Proof.
  intros pt. subst pt. unfold tr_parse_poly_param. split.
  - intros ->. reflexivity.
  - intros H0 H1 H2 H5 H6.
    destruct (Z.eqb_spec (ta_poly_type fe (p_pcw data)) 6) as [| _]; [contradiction |].
    generalize dependent (ta_poly_type fe (p_pcw data)). intros pt H0 H1 H2 H5 H6.
    destruct pt as [| q | q]; [contradiction H0; reflexivity | | reflexivity].
    destruct q as [[q | q |] | [q | q |] |]; try reflexivity;
      try (exfalso; lia);
      destruct q; try reflexivity; exfalso; lia.
Qed.

(** ** Vertex parameter handler: what aborts *)

Lemma reserve_surf_not_undef (SURFS_SIZE : Z) (rc : tr_context) (copy : bool) :
  tr_reserve_surf SURFS_SIZE rc copy <> Undef.
Proof.
  unfold tr_reserve_surf, check.
  destruct (num_surfs rc <? SURFS_SIZE); cbn [bind]; [| discriminate].
  destruct copy; cbn [bind]; [| discriminate].
  destruct (negb (num_surfs rc =? 0)); cbn [bind]; discriminate.
Qed.

Lemma vert_switch_unsupported (VERTS_SIZE : Z) (vm : vecmath) (t : tr)
    (rc : tr_context) (data : ta_param) :
  supported_vert_type (vert_type t) = false ->
  parse_vert_switch VERTS_SIZE vm t rc data = Fatal.
Proof.
  unfold supported_vert_type, parse_vert_switch. intros H.
  destruct (vert_type t) as [| q | q]; [discriminate H | | reflexivity].
  do 5 (try (destruct q as [q | q |]; try discriminate H; try reflexivity)).
Qed.

(** X10: the vertex handler aborts on a vertex type it does not decode (in
    particular on the vertex that follows an end-of-list, which leaves no
    vertex type), and on a sprite vertex without the end-of-strip flag. *)
Theorem vert_param_aborts (SURFS_SIZE VERTS_SIZE : Z) (vm : vecmath) (t : tr)
    (rc : tr_context) (data : ta_param) :
  (supported_vert_type (vert_type t) = false ->
   tr_parse_vert_param SURFS_SIZE VERTS_SIZE vm t rc data = Fatal) /\
  tr_parse_vert_param SURFS_SIZE VERTS_SIZE vm (tr_parse_eol t) rc data = Fatal /\
  (vert_type t = 15 \/ vert_type t = 16 ->
   end_of_strip (p_pcw data) = false ->
   tr_parse_vert_param SURFS_SIZE VERTS_SIZE vm t rc data = Fatal).
Proof.
  split; [| split].
  - intros H. unfold tr_parse_vert_param.
    destruct (Z.eqb_spec (vert_type t) 17) as [E | _].
    { rewrite E in H. discriminate H. }
    destruct (match last_vertex t with
              | Some lv => _
              | None => _
              end) as [rc1 | |] eqn:E; cbn [bind]; [| reflexivity |].
    + rewrite vert_switch_unsupported; [reflexivity |].
      cbn [vert_type set_last_vertex]. exact H.
    + destruct (last_vertex t) as [lv |]; [| discriminate E].
      destruct (end_of_strip (p_pcw lv)); [| discriminate E].
      contradiction (reserve_surf_not_undef _ _ _ E).
  - reflexivity.
  - intros Hvt Heos. unfold tr_parse_vert_param.
    destruct (Z.eqb_spec (vert_type t) 17) as [E | _]; [lia |].
    destruct (match last_vertex t with
              | Some lv => _
              | None => _
              end) as [rc1 | |] eqn:E; cbn [bind]; [| reflexivity |].
    + unfold parse_vert_switch. cbn [vert_type set_last_vertex].
      destruct Hvt as [-> | ->]; cbv beta iota; unfold parse_sprite, check;
        rewrite Heos; reflexivity.
    + destruct (last_vertex t) as [lv |]; [| discriminate E].
      destruct (end_of_strip (p_pcw lv)); [| discriminate E].
      contradiction (reserve_surf_not_undef _ _ _ E).
Qed.

(** ** Vertex parameter handler: strips *)

Lemma vert_switch_single (VERTS_SIZE : Z) (vm : vecmath) (t : tr)
    (rc rc2 : tr_context) (data : ta_param) (reached : bool) :
  0 <= vert_type t <= 8 ->
  parse_vert_switch VERTS_SIZE vm t rc data = Ok (rc2, reached) ->
  reached = true /\
  exists v, emit_vert VERTS_SIZE rc v = Ok rc2 /\
            xyz v = vert_xyz (vert_type t) (p_vert data).
Proof.
  intros Hvt H. unfold parse_vert_switch in H. unfold vert_xyz.
  assert (Hc : vert_type t = 0 \/ vert_type t = 1 \/ vert_type t = 2 \/
               vert_type t = 3 \/ vert_type t = 4 \/ vert_type t = 5 \/
               vert_type t = 6 \/ vert_type t = 7 \/ vert_type t = 8) by lia.
  repeat (destruct Hc as [Hc | Hc]);
    rewrite Hc in *; cbv beta iota zeta in H;
    repeat (destruct_bind H);
    injection H as <- <-; (split; [reflexivity |]);
    repeat match goal with
           | E : bind _ _ = Ok _ |- _ => destruct_bind E
           end;
    eexists; (split; [eassumption | reflexivity]).
Qed.

(** X11: strip boundaries. A vertex of type 0 to 8 that does not end its
    strip is stored at the next free cell and leaves the counters and the
    lists alone. When the previous vertex closed a strip, the handler first
    stages a new surface that inherits the parameters of the last committed
    one and starts at the current vertex count; otherwise the vertex joins
    the staged strip. *)
Theorem vert_param_strip_boundary (SURFS_SIZE VERTS_SIZE : Z) (vm : vecmath)
    (t : tr) (rc : tr_context) (data : ta_param) (t' : tr) (rc' : tr_context) :
  0 <= vert_type t <= 8 ->
  end_of_strip (p_pcw data) = false ->
  tr_parse_vert_param SURFS_SIZE VERTS_SIZE vm t rc data = Ok (t', rc') ->
  let s := surfs rc (num_surfs rc) in
  let s' := surfs rc' (num_surfs rc) in
  last_vertex t' = Some data /\
  num_surfs rc' = num_surfs rc /\ rc_num_verts rc' = rc_num_verts rc /\
  lists rc' = lists rc /\
  xyz (verts rc' (next_vert_index t rc)) = vert_xyz (vert_type t) (p_vert data) /\
  (starts_new_strip t = true ->
   params s' = params (surfs rc (num_surfs rc - 1)) /\
   first_vert s' = rc_num_verts rc /\ num_verts s' = 1) /\
  (starts_new_strip t = false ->
   s' = set_num_verts s (num_verts s + 1)).
Proof.
  intros Hvt Heos H s s'. unfold tr_parse_vert_param in H.
  destruct (Z.eqb_spec (vert_type t) 17) as [E | _]; [lia |].
  destruct_bind H. rename a into rc1.
  pose proof (next_vert_after_reserve _ _ _ _ E) as (Hv1 & Hidx & HS1 & HL1).
  destruct_bind H. destruct a as [rc2 reached].
  apply vert_switch_single in E0; [| cbn [vert_type set_last_vertex]; exact Hvt].
  destruct E0 as (-> & v & Hemit & Hxyz).
  rewrite Heos in H. cbn [andb] in H. injection H as <- <-.
  apply emit_vert_spec in Hemit. cbv zeta in Hemit.
  destruct Hemit as (Hat & _ & Hs2 & HS2 & HV2 & HL2 & _).
  subst s s'. cbn [last_vertex set_last_vertex vert_type] in *.
  rewrite HS2, HS1, HL2, HL1, <- Hidx, Hat, Hs2, HS1.
  assert (HV1 : rc_num_verts rc1 = rc_num_verts rc).
  { unfold starts_new_strip in *. destruct (last_vertex t) as [lv |];
      [destruct (end_of_strip (p_pcw lv)) |].
    - apply reserve_surf_frame in E. tauto.
    - injection E as <-. reflexivity.
    - injection E as <-. reflexivity. }
  rewrite HV2, HV1. upd_simpl.
  repeat (split; [reflexivity || assumption |]).
  unfold starts_new_strip. split.
  - intros Hnew. destruct (last_vertex t) as [lv |]; [| discriminate Hnew].
    rewrite Hnew in E.
    unfold tr_reserve_surf, check in E.
    destruct (Z.ltb_spec (num_surfs rc) SURFS_SIZE); cbn [bind] in E;
      [| discriminate E].
    destruct (Z.eqb_spec (num_surfs rc) 0); cbn [negb bind] in E;
      [discriminate E |].
    injection E as <-.
    rc_simpl. upd_simpl. rc_simpl. repeat split; reflexivity.
  - intros Hold.
    assert (rc1 = rc) as ->.
    { destruct (last_vertex t) as [lv |].
      - rewrite Hold in E. injection E as <-. reflexivity.
      - injection E as <-. reflexivity. }
    reflexivity.
Qed.

(** ** Render driver: complete walks *)

Lemma existsb_absent (e : Z) (l : list Z) :
  ~ In e l -> existsb (fun x => x =? e) l = false.
Proof.
  intros H. destruct (existsb (fun x => x =? e) l) eqn:E; [| reflexivity].
  apply existsb_exists in E. destruct E as (x & Hx & Hxe).
  apply Z.eqb_eq in Hxe. subst x. contradiction.
Qed.

(** X12: when [end_surf] is not an entry of the three drawn lists the walk
    is complete: every entry is drawn once, in list order, between [begin]
    and [end]. This is the case of [render()] as soon as no entry is
    negative, and the MODVOL lists are never drawn. *)
Theorem render_draws_everything (rc : tr_context) (end_surf : Z) :
  ~ In end_surf (drawn_entries rc) ->
  tr_render_context_until rc end_surf =
    BeginTaSurfaces (width rc) (height rc) (verts rc) (rc_num_verts rc)
                    (indices rc) (num_indices rc)
    :: map DrawTaSurface (drawn_entries rc) ++ [EndTaSurfaces] /\
  ((forall e, In e (drawn_entries rc) -> 0 <= e) ->
   tr_render_context rc = tr_render_context_until rc end_surf).
Proof.
  intros Hnot.
  assert (Hfull : forall e, ~ In e (drawn_entries rc) ->
            tr_render_context_until rc e =
            BeginTaSurfaces (width rc) (height rc) (verts rc) (rc_num_verts rc)
                            (indices rc) (num_indices rc)
            :: map DrawTaSurface (drawn_entries rc) ++ [EndTaSurfaces]).
  { intros e He. unfold tr_render_context_until, tr_render_list.
    fold (list_entries rc TA_LIST_OPAQUE).
    fold (list_entries rc TA_LIST_PUNCH_THROUGH).
    fold (list_entries rc TA_LIST_TRANSLUCENT).
    unfold drawn_entries in He. rewrite !in_app_iff in He.
    cbv zeta. rewrite !render_entries_spec.
    rewrite (existsb_absent e (list_entries rc TA_LIST_OPAQUE)) by tauto.
    rewrite ?render_entries_spec.
    rewrite (existsb_absent e (list_entries rc TA_LIST_PUNCH_THROUGH)) by tauto.
    rewrite ?render_entries_spec.
    rewrite !upto_incl_absent by (apply existsb_absent; tauto).
    unfold drawn_entries. cbn [app]. rewrite !map_app, <- !app_assoc. reflexivity. }
  split; [apply Hfull; exact Hnot |].
  intros Hpos. unfold tr_render_context. rewrite (Hfull end_surf Hnot).
  apply Hfull. intros Hin. apply Hpos in Hin. lia.
Qed.

Lemma render_draws_everything_witness :
  tr_render_context_until ex_rc_lists 7 =
    [BeginTaSurfaces 640 480 (verts ex_rc_lists) 0 (indices ex_rc_lists) 0;
     DrawTaSurface 0; DrawTaSurface 1; DrawTaSurface 2; EndTaSurfaces].
Proof.
  apply (proj1 (render_draws_everything ex_rc_lists 7
                  ltac:(cbn; intros [H | [H | [H | []]]]; discriminate H))).
Defined.

(** ** Surface sort: what holds for any depths *)

Lemma fill_minz_ok_inv (list : tr_list) (rc : tr_context) (n : nat) :
  forall (i : Z) (mz mz' : Z -> float),
    fill_minz n i list rc mz = Ok mz' ->
    forall k, i <= k < i + Z.of_nat n -> num_verts (surfs rc (l_surfs list k)) = 3.
Proof.
  induction n as [| n IH]; intros i mz mz' H k Hk; [lia |].
  cbn [fill_minz] in H. unfold check in H.
  destruct (Z.eqb_spec (num_verts (surfs rc (l_surfs list i))) 3) as [E3 | _];
    cbn [bind] in H; [| discriminate H].
  destruct (Z.eq_dec k i) as [-> | Hne]; [exact E3 |].
  apply (IH _ _ _ H). lia.
Qed.

(** X13: whatever the depths, NaN included, a sort that returns only
    permutes the entries of its list: the surfaces, the vertices, the counts
    and the other lists are untouched. The sort returns exactly when every
    entry of the list is a single triangle. *)
Theorem sort_surfaces_permutes (sort_minz : Z -> float) (rc : tr_context) (lt : Z) :
  ((exists mz rc', tr_sort_surfaces sort_minz rc lt = Ok (mz, rc')) <->
   all_triangles rc lt) /\
  (forall mz rc',
     tr_sort_surfaces sort_minz rc lt = Ok (mz, rc') ->
     Permutation (list_entries rc' lt) (list_entries rc lt) /\
     surfs rc' = surfs rc /\ verts rc' = verts rc /\
     num_surfs rc' = num_surfs rc /\ rc_num_verts rc' = rc_num_verts rc /\
     l_num_surfs (lists rc' lt) = l_num_surfs (lists rc lt) /\
     l_num_orig_surfs (lists rc' lt) = l_num_orig_surfs (lists rc lt) /\
     (forall o, o <> lt -> lists rc' o = lists rc o)).
Proof.
  split; [split |].
  - intros (mz & rc' & H). unfold tr_sort_surfaces in H. destruct_bind H.
    intros e He. unfold list_entries in He. apply read_array_In in He.
    destruct He as (k & Hk & <-).
    apply (fill_minz_ok_inv _ _ _ _ _ _ E). lia.
  - intros Htri. unfold tr_sort_surfaces.
    destruct (fill_minz_spec (lists rc lt) rc (Z.to_nat (l_num_surfs (lists rc lt)))
                0 sort_minz) as (mz & Hrun & _).
    { intros k Hk. apply Htri. unfold list_entries. apply read_array_In.
      exists k. split; [lia | reflexivity]. }
    rewrite Hrun. cbn [bind]. eexists. eexists. reflexivity.
  - intros mz rc' H. unfold tr_sort_surfaces in H. destruct_bind H.
    injection H as <- <-.
    split.
    { rewrite (sort_entries a rc lt). apply msort_halves_perm. }
    rc_simpl. upd_simpl. rc_simpl.
    repeat (split; [reflexivity |]).
    intros o Ho. rewrite upd_other by exact Ho. reflexivity.
Qed.

(** ** Index generation: counts and bounds *)

Lemma emit_tris_frame (m : nat) (j : Z) (surf : ta_surface) (rc : tr_context) :
  verts (emit_tris m j surf rc) = verts rc /\
  surfs (emit_tris m j surf rc) = surfs rc /\
  lists (emit_tris m j surf rc) = lists rc.
Proof.
  revert j rc. induction m as [| m IH]; intros j rc; cbn [emit_tris].
  - repeat split; reflexivity.
  - match goal with
    | |- verts (emit_tris _ _ _ ?rc1) = _ /\ _ =>
        destruct (IH (j + 1) rc1) as (Hv & Hs & Hl)
    end.
    rewrite Hv, Hs, Hl. destruct (negb _); repeat split; reflexivity.
Qed.

(** X14: the triangles of one strip of [n] vertices add [3 * (n - 2)]
    indices (none when [n < 3]), every one of them a vertex of the strip,
    and leave the indices written before untouched. *)
Theorem emit_tris_indices_in_range (surf : ta_surface) (rc : tr_context) :
  let n := num_verts surf in
  let rc' := emit_tris (Z.to_nat (n - 2)) 0 surf rc in
  num_indices rc' = num_indices rc + 3 * Z.max 0 (n - 2) /\
  (forall p, num_indices rc <= p < num_indices rc' ->
     first_vert surf <= indices rc' p < first_vert surf + n) /\
  (forall p, p < num_indices rc -> indices rc' p = indices rc p) /\
  verts rc' = verts rc /\ surfs rc' = surfs rc /\ lists rc' = lists rc.
Proof.
  intros n rc'.
  assert (Hn : num_indices rc' = num_indices rc + 3 * Z.max 0 (n - 2)).
  { subst rc'. rewrite emit_tris_num_indices. lia. }
  split; [exact Hn |]. split; [| split].
  - intros p Hp.
    pose proof (Z.div_mod (p - num_indices rc) 3 ltac:(lia)) as Hd.
    pose proof (Z.mod_pos_bound (p - num_indices rc) 3 ltac:(lia)) as Hm.
    remember ((p - num_indices rc) / 3) as k eqn:Ek in *.
    assert (Hk : 0 <= k < n - 2 /\ 0 <= p - num_indices rc - 3 * k < 3)
      by (clear Ek; clearbody rc' n; lia).
    destruct Hk as [Hk Hr].
    pose proof (emit_tris_triple (Z.to_nat (n - 2)) 0 surf rc (Z.to_nat k)
                  ltac:(lia)) as Htri.
    rewrite Z2Nat.id in Htri by lia. cbv zeta in Htri. fold rc' in Htri.
    unfold index_triple in Htri.
    assert (Hcase : p = num_indices rc + 3 * k \/ p = num_indices rc + 3 * k + 1 \/
                    p = num_indices rc + 3 * k + 2) by lia.
    pose proof (f_equal (fun x => fst (fst x)) Htri) as H0.
    pose proof (f_equal (fun x => snd (fst x)) Htri) as H1.
    pose proof (f_equal (fun x => snd x) Htri) as H2.
    clear Htri.
    destruct (Z.odd (strip_offset surf + (0 + k))); cbn [fst snd] in H0, H1, H2;
      destruct Hcase as [-> | [-> | ->]]; rewrite ?H0, ?H1, ?H2; lia.
  - intros p Hp. subst rc'. apply emit_tris_below. exact Hp.
  - subst rc'. apply emit_tris_frame.
Qed.

(** ** Stream driver: the diagnostic trail *)

Section TrailProps.

Variables SURFS_SIZE VERTS_SIZE : Z.
Variable fe : frontend.
Variable vm : vecmath.

Lemma same_trail_refl (rc : tr_context) : same_trail rc rc.
Proof. split; reflexivity. Qed.

Lemma same_trail_trans (a b c : tr_context) :
  same_trail a b -> same_trail b c -> same_trail a c.
Proof. intros [H1 H2] [H3 H4]. split; congruence. Qed.

Lemma reserve_surf_trail (rc rc' : tr_context) (copy : bool) :
  tr_reserve_surf SURFS_SIZE rc copy = Ok rc' -> same_trail rc rc'.
Proof.
  unfold tr_reserve_surf. intros H. destruct_bind H. destruct_bind H.
  injection H as <-. split; reflexivity.
Qed.

Lemma reserve_vert_trail (rc rc' : tr_context) (i : Z) :
  tr_reserve_vert VERTS_SIZE rc = Ok (rc', i) -> same_trail rc rc'.
Proof.
  intros H. apply reserve_vert_spec in H. destruct H as (_ & _ & ->).
  split; reflexivity.
Qed.

Lemma emit_vert_trail (rc rc' : tr_context) (v : ta_vertex) :
  emit_vert VERTS_SIZE rc v = Ok rc' -> same_trail rc rc'.
Proof.
  unfold emit_vert. intros H. destruct_bind H. destruct a as [rc1 i].
  apply reserve_vert_trail in E. injection H as <-.
  destruct E as [E1 E2]. split; [exact E1 | exact E2].
Qed.

Lemma commit_tris_trail (lt : Z) (k : nat) :
  forall (i : Z) (rc rc' : tr_context),
    commit_tris SURFS_SIZE k i lt rc = Ok rc' -> same_trail rc rc'.
Proof.
  induction k as [| k IH]; intros i rc rc' H; cbn [commit_tris] in H.
  - injection H as <-. apply same_trail_refl.
  - destruct_bind H.
    assert (Ha : same_trail rc a).
    { destruct (i =? 0).
      - injection E as <-. apply same_trail_refl.
      - apply reserve_surf_trail in E. exact E. }
    apply IH in H. destruct H as [H1 H2]. destruct Ha as [H3 H4].
    rc_simpl. split; congruence.
Qed.

Lemma commit_surf_trail (t : tr) (rc rc' : tr_context) :
  tr_commit_surf SURFS_SIZE t rc = Ok rc' -> same_trail rc rc'.
Proof.
  unfold tr_commit_surf. intros H.
  destruct ((list_type t =? TA_LIST_TRANSLUCENT) ||
            (list_type t =? TA_LIST_PUNCH_THROUGH)).
  - destruct_bind H. injection H as <-. apply commit_tris_trail in E.
    destruct E as [E1 E2]. rc_simpl. split; assumption.
  - injection H as <-. split; reflexivity.
Qed.

Lemma parse_sprite_trail (t : tr) (rc rc' : tr_context) (data : ta_param)
    (reached : bool) :
  parse_sprite VERTS_SIZE vm t rc data = Ok (rc', reached) -> same_trail rc rc'.
Proof.
  unfold parse_sprite. intros H.
  destruct_bind H.
  destruct_bind H. destruct a0 as [rc1 ia]. apply reserve_vert_trail in E0.
  destruct_bind H. destruct a0 as [rc2 ib]. apply reserve_vert_trail in E1.
  destruct_bind H. destruct a0 as [rc3 id]. apply reserve_vert_trail in E2.
  destruct_bind H. destruct a0 as [rc4 ic]. apply reserve_vert_trail in E3.
  assert (H4 : same_trail rc rc4).
  { eapply same_trail_trans; [exact E0 |].
    eapply same_trail_trans; [exact E1 |].
    eapply same_trail_trans; [exact E2 | exact E3]. }
  cbv zeta in H.
  destruct (vec3_normalize vm _) as [n len].
  destruct (_ || _); injection H as <- _; destruct H4 as [H5 H6];
    split; cbn [store_vert set_verts num_params rc_params]; assumption.
Qed.

Lemma vert_switch_trail (t : tr) (rc rc' : tr_context) (data : ta_param)
    (reached : bool) :
  parse_vert_switch VERTS_SIZE vm t rc data = Ok (rc', reached) -> same_trail rc rc'.
Proof.
  intros H.
  destruct (Z_le_dec 0 (vert_type t)) as [H0 | H0];
    [destruct (Z_le_dec (vert_type t) 8) as [H8 | H8] |].
  - apply vert_switch_single in H; [| lia].
    destruct H as (_ & v & Hv & _). apply emit_vert_trail in Hv. exact Hv.
  - destruct (Z.eq_dec (vert_type t) 15) as [E15 | N15].
    { unfold parse_vert_switch in H. rewrite E15 in H.
      apply parse_sprite_trail in H. exact H. }
    destruct (Z.eq_dec (vert_type t) 16) as [E16 | N16].
    { unfold parse_vert_switch in H. rewrite E16 in H.
      apply parse_sprite_trail in H. exact H. }
    destruct (Z.eq_dec (vert_type t) 17) as [E17 | N17].
    { unfold parse_vert_switch in H. rewrite E17 in H. discriminate H. }
    rewrite vert_switch_unsupported in H; [discriminate H |].
    unfold supported_vert_type.
    destruct (Z.leb_spec (vert_type t) 8); [lia |].
    destruct (Z.eqb_spec (vert_type t) 15); [lia |].
    destruct (Z.eqb_spec (vert_type t) 16); [lia |].
    destruct (Z.eqb_spec (vert_type t) 17); [lia |].
    rewrite andb_false_r. reflexivity.
  - rewrite vert_switch_unsupported in H; [discriminate H |].
    unfold supported_vert_type.
    destruct (Z.leb_spec 0 (vert_type t)); [lia |].
    destruct (Z.eqb_spec (vert_type t) 15); [lia |].
    destruct (Z.eqb_spec (vert_type t) 16); [lia |].
    destruct (Z.eqb_spec (vert_type t) 17); [lia |]. reflexivity.
Qed.

Lemma vert_param_trail (t t' : tr) (rc rc' : tr_context) (data : ta_param) :
  tr_parse_vert_param SURFS_SIZE VERTS_SIZE vm t rc data = Ok (t', rc') ->
  same_trail rc rc'.
Proof.
  unfold tr_parse_vert_param. intros H.
  destruct (vert_type t =? 17); [injection H as _ <-; apply same_trail_refl |].
  destruct_bind H. rename a into rc1.
  assert (H1 : same_trail rc rc1).
  { destruct (last_vertex t) as [lv |]; [destruct (end_of_strip (p_pcw lv)) |].
    - apply reserve_surf_trail in E. exact E.
    - injection E as <-. apply same_trail_refl.
    - injection E as <-. apply same_trail_refl. }
  destruct_bind H. destruct a as [rc2 reached].
  apply vert_switch_trail in E0.
  destruct (reached && end_of_strip (p_pcw data)).
  - destruct_bind H. injection H as _ <-. apply commit_surf_trail in E1.
    eapply same_trail_trans; [exact H1 |].
    eapply same_trail_trans; [exact E0 | exact E1].
  - injection H as _ <-. eapply same_trail_trans; [exact H1 | exact E0].
Qed.

Lemma poly_param_trail (w w' : world) (t t' : tr) (ctx : ta_context)
    (rc rc' : tr_context) (data : ta_param) :
  tr_parse_poly_param SURFS_SIZE fe w t ctx rc data = Ok (w', t', rc') ->
  same_trail rc rc'.
Proof.
  unfold tr_parse_poly_param. intros H.
  destruct (ta_poly_type fe (p_pcw data) =? 6);
    [injection H as _ _ <-; apply same_trail_refl |].
  destruct_bind H. destruct_bind H. rename a0 into rc1.
  apply reserve_surf_trail in E0.
  do 5 destruct_bind H. destruct_bind H. destruct a5 as [w1 tex].
  injection H as _ _ <-. destruct E0 as [H1 H2].
  split; cbn [set_surfs num_params rc_params]; assumption.
Qed.

End TrailProps.

(** X15: a walk of the stream that returns has recorded one diagnostic
    entry per parameter, after the entries that were there, and has met no
    OBJ_LIST_SET parameter; the first entry it records carries the offset
    the walk started at. *)
Theorem walk_params_trail (SURFS_SIZE VERTS_SIZE : Z) (fe : frontend)
    (vm : vecmath) (ps : list ta_param) :
  forall (offset : Z) (w : world) (t : tr) (ctx : ta_context) (rc : tr_context)
         (w' : world) (t' : tr) (rc' : tr_context),
    walk_params SURFS_SIZE VERTS_SIZE fe vm ps offset w t ctx rc = Ok (w', t', rc') ->
    num_params rc' = num_params rc + Z.of_nat (length ps) /\
    (forall i, i < num_params rc -> rc_params rc' i = rc_params rc i) /\
    Forall (fun d => para_type (p_pcw d) <> TA_PARAM_OBJ_LIST_SET) ps /\
    (ps <> [] -> rp_offset (rc_params rc' (num_params rc)) = offset).
Proof.
  induction ps as [| data rest IH]; intros offset w t ctx rc w' t' rc' H.
  - cbn [walk_params] in H. injection H as _ _ <-. cbn [length].
    repeat split; try lia; try constructor. intros Hne. contradiction Hne. reflexivity.
  - cbn [walk_params] in H. cbv zeta in H.
    destruct_bind H. destruct a as [[w1 t1] rc1].
    assert (Hstep : same_trail rc rc1 /\
                    para_type (p_pcw data) <> TA_PARAM_OBJ_LIST_SET).
    { split.
      - destruct (para_type (p_pcw data)) as [| q | q].
        + injection E as _ _ <-. apply same_trail_refl.
        + do 3 (try (destruct q as [q | q |]));
            try (injection E as _ _ <-; apply same_trail_refl);
            try discriminate E;
            try (apply poly_param_trail in E; exact E).
          destruct_bind E. destruct a as [t2 rc2]. injection E as _ _ <-.
          apply vert_param_trail in E0. exact E0.
        + injection E as _ _ <-. apply same_trail_refl.
      - intros Hobj. rewrite Hobj in E. discriminate E. }
    destruct Hstep as [[Hn Hp] Hobj]. clear E.
    apply IH in H. rc_simpl. destruct H as (Hcount & Hkeep & Hall & _).
    split; [cbn [length]; lia |].
    split.
    { intros i Hi. rewrite Hkeep by lia. rewrite upd_other by lia.
      rewrite Hp. reflexivity. }
    split; [constructor; assumption |].
    intros _. rewrite Hkeep by lia. rewrite Hn, upd_same. reflexivity.
Qed.

(** ** The properties above on concrete inputs *)

Lemma poly_param_translucent_witness :
  exists w' t' rc',
    tr_parse_poly_param 8 hw_frontend ex_world
      (ex_tr TA_LIST_TRANSLUCENT TA_NUM_VERTS) (ex_ctx true []) ex_rc_blank
      (ex_poly_param TA_PARAM_POLY_OR_VOL TA_LIST_TRANSLUCENT 3)
    = Ok (w', t', rc') /\
    sp_depth_func (params (surfs rc' (num_surfs rc'))) = DEPTH_LEQUAL /\
    src_blend (params (surfs rc' (num_surfs rc'))) = BLEND_ZERO.
Proof.
  destruct (tr_parse_poly_param 8 hw_frontend ex_world
              (ex_tr TA_LIST_TRANSLUCENT TA_NUM_VERTS) (ex_ctx true []) ex_rc_blank
              (ex_poly_param TA_PARAM_POLY_OR_VOL TA_LIST_TRANSLUCENT 3))
    as [[[w' t'] rc'] | |] eqn:E;
    [| vm_compute in E; discriminate E | vm_compute in E; discriminate E].
  exists w', t', rc'. split; [reflexivity |].
  destruct (poly_param_translucent 8 hw_frontend ex_world
              (ex_tr TA_LIST_TRANSLUCENT TA_NUM_VERTS) (ex_ctx true []) ex_rc_blank
              (ex_poly_param TA_PARAM_POLY_OR_VOL TA_LIST_TRANSLUCENT 3)
              w' t' rc' (or_introl eq_refl) ltac:(vm_compute; discriminate) E)
    as (_ & Hs & _ & Hd & _).
  split; [apply Hd; reflexivity |].
  cbn in Hs. injection Hs as Hs. symmetry. exact Hs.
Defined.

Lemma poly_param_opaque_witness :
  exists w' t' rc',
    tr_parse_poly_param 8 hw_frontend ex_world
      (ex_tr TA_LIST_OPAQUE TA_NUM_VERTS) (ex_ctx true []) ex_rc_strip4
      (ex_poly_param TA_PARAM_POLY_OR_VOL TA_LIST_OPAQUE 3)
    = Ok (w', t', rc') /\
    src_blend (params (surfs rc' (num_surfs rc'))) = BLEND_NONE /\
    first_vert (surfs rc' (num_surfs rc')) = 4.
Proof.
  destruct (tr_parse_poly_param 8 hw_frontend ex_world
              (ex_tr TA_LIST_OPAQUE TA_NUM_VERTS) (ex_ctx true []) ex_rc_strip4
              (ex_poly_param TA_PARAM_POLY_OR_VOL TA_LIST_OPAQUE 3))
    as [[[w' t'] rc'] | |] eqn:E;
    [| vm_compute in E; discriminate E | vm_compute in E; discriminate E].
  exists w', t', rc'. split; [reflexivity |].
  destruct (poly_param_opaque 8 hw_frontend ex_world
              (ex_tr TA_LIST_OPAQUE TA_NUM_VERTS) (ex_ctx true []) ex_rc_strip4
              (ex_poly_param TA_PARAM_POLY_OR_VOL TA_LIST_OPAQUE 3)
              w' t' rc' ltac:(vm_compute; discriminate)
              ltac:(vm_compute; discriminate) ltac:(vm_compute; discriminate) E)
    as (Hs & _ & _ & _ & _ & _ & _ & _ & Hf & _).
  split; [exact Hs | exact Hf].
Defined.

Lemma vert_param_strip_boundary_witness :
  exists t' rc',
    tr_parse_vert_param 8 16 f32_vecmath (ex_tr_after_strip TA_LIST_OPAQUE 0)
      ex_rc_strip4 (ex_vert_param false (ex_point 1 2 3) 0)
    = Ok (t', rc') /\
    first_vert (surfs rc' 1) = 4 /\ num_verts (surfs rc' 1) = 1 /\
    xyz (verts rc' 4) = ex_point 1 2 3.
Proof.
  destruct (tr_parse_vert_param 8 16 f32_vecmath (ex_tr_after_strip TA_LIST_OPAQUE 0)
              ex_rc_strip4 (ex_vert_param false (ex_point 1 2 3) 0))
    as [[t' rc'] | |] eqn:E;
    [| vm_compute in E; discriminate E | vm_compute in E; discriminate E].
  exists t', rc'. split; [reflexivity |].
  destruct (vert_param_strip_boundary 8 16 f32_vecmath
              (ex_tr_after_strip TA_LIST_OPAQUE 0) ex_rc_strip4
              (ex_vert_param false (ex_point 1 2 3) 0) t' rc'
              ltac:(cbn; lia) eq_refl E)
    as (_ & _ & _ & _ & Hx & Hnew & _).
  destruct (Hnew eq_refl) as (_ & Hf & Hn).
  split; [exact Hf |]. split; [exact Hn | exact Hx].
Defined.

Lemma walk_params_trail_witness :
  exists w' t' rc',
    walk_params 8 16 hw_frontend f32_vecmath ex_stream_short_strip 0 ex_world
                (ex_tr TA_NUM_LISTS TA_NUM_VERTS) (ex_ctx false []) ex_rc_blank
    = Ok (w', t', rc') /\
    num_params rc' = 2 /\ rp_offset (rc_params rc' 0) = 0.
Proof.
  destruct (walk_params 8 16 hw_frontend f32_vecmath ex_stream_short_strip 0 ex_world
              (ex_tr TA_NUM_LISTS TA_NUM_VERTS) (ex_ctx false []) ex_rc_blank)
    as [[[w' t'] rc'] | |] eqn:E;
    [| vm_compute in E; discriminate E | vm_compute in E; discriminate E].
  exists w', t', rc'. split; [reflexivity |].
  destruct (walk_params_trail 8 16 hw_frontend f32_vecmath ex_stream_short_strip
              0 ex_world (ex_tr TA_NUM_LISTS TA_NUM_VERTS) (ex_ctx false [])
              ex_rc_blank w' t' rc' E) as (Hn & _ & _ & Ho).
  split; [exact Hn |]. apply Ho. discriminate.
Defined.

(** ** Index generation: merging adjacent surfaces *)

Lemma emit_tris_counts (m : nat) (j : Z) (surf : ta_surface) (rc : tr_context) :
  num_surfs (emit_tris m j surf rc) = num_surfs rc /\
  rc_num_verts (emit_tris m j surf rc) = rc_num_verts rc.
Proof.
  revert j rc. induction m as [| m IH]; intros j rc; cbn [emit_tris].
  - split; reflexivity.
  - match goal with
    | |- num_surfs (emit_tris _ _ _ ?r) = _ /\ _ =>
        destruct (IH (j + 1) r) as [A B]; rewrite A, B
    end.
    destruct (negb _); split; reflexivity.
Qed.

Section MergeProps.

Variable INDICES_SIZE : Z.
Variable lt : Z.

Lemma can_merge_params (a b : ta_surface) :
  tr_can_merge_surfs a b = true <-> params a = params b.
Proof.
  unfold tr_can_merge_surfs. destruct (params_eq_dec (params a) (params b));
    split; intros H; try reflexivity; try assumption; try discriminate H.
  contradiction.
Qed.

Lemma merge_run_not_undef (n : nat) :
  forall (j i nm : Z) (rc : tr_context),
    merge_run INDICES_SIZE n j i lt nm rc <> Undef.
Proof.
  induction n as [| n IH]; intros j i nm rc; cbn [merge_run]; [discriminate |].
  destruct (_ && _); [discriminate |].
  unfold check. destruct (_ <? INDICES_SIZE); cbn [bind]; [apply IH | discriminate].
Qed.

End MergeProps.

(** ** Index generation: the groups of a list *)

Lemma tiled_ext (sf sf' : Z -> ta_surface) (roots : list Z) :
  forall a b, (forall r, In r roots -> sf' r = sf r) ->
              tiled sf roots a b -> tiled sf' roots a b.
Proof.
  induction roots as [| r rest IH]; intros a b Hext H; cbn [tiled] in *.
  - exact H.
  - destruct H as (H1 & H2 & H3 & H4).
    rewrite (Hext r (or_introl eq_refl)).
    repeat split; try assumption.
    apply IH; [| exact H4]. intros x Hx. apply Hext. right. exact Hx.
Qed.

Lemma tiled_snoc (sf : Z -> ta_surface) (roots : list Z) (e : Z) :
  forall a b, tiled sf roots a b ->
              first_vert (sf e) = b -> 0 <= num_verts (sf e) ->
              num_verts (sf e) mod 3 = 0 ->
              tiled sf (roots ++ [e]) a (b + num_verts (sf e)).
Proof.
  induction roots as [| r rest IH]; intros a b H Hf Hn Hm; cbn [tiled app] in *.
  - subst b. repeat split; assumption.
  - destruct H as (H1 & H2 & H3 & H4).
    repeat split; try assumption. apply IH; assumption.
Qed.

Lemma tiled_bounds (sf : Z -> ta_surface) (roots : list Z) :
  forall a b, tiled sf roots a b ->
    a <= b /\ total_verts sf roots = b - a /\
    (forall r, In r roots ->
       a <= first_vert (sf r) /\ first_vert (sf r) + num_verts (sf r) <= b /\
       0 <= num_verts (sf r) /\ num_verts (sf r) mod 3 = 0).
Proof.
  induction roots as [| r rest IH]; intros a b H; cbn [tiled total_verts fold_right] in *.
  - subst b. split; [lia |]. split; [lia |]. intros r [].
  - destruct H as (H1 & H2 & H3 & H4).
    destruct (IH _ _ H4) as (Hle & Hsum & Hin).
    fold (total_verts sf rest). rewrite Hsum.
    split; [lia |]. split; [lia |].
    intros x [<- | Hx].
    + repeat split; try assumption; lia.
    + destruct (Hin x Hx) as (A & B & C & D). repeat split; try assumption; lia.
Qed.

Lemma adjacent_differ_ext (sf sf' : Z -> ta_surface) (roots : list Z) :
  (forall r, In r roots -> params (sf' r) = params (sf r)) ->
  adjacent_differ sf roots -> adjacent_differ sf' roots.
Proof.
  induction roots as [| r rest IH]; intros Hext H; cbn [adjacent_differ] in *.
  - exact I.
  - destruct H as [H1 H2]. split.
    + destruct rest as [| r' rest']; [exact I |].
      rewrite (Hext r (or_introl eq_refl)).
      rewrite (Hext r' (or_intror (or_introl eq_refl))). exact H1.
    + apply IH; [| exact H2]. intros x Hx. apply Hext. right. exact Hx.
Qed.

Lemma adjacent_differ_snoc (sf : Z -> ta_surface) (roots : list Z) (e : Z) :
  adjacent_differ sf roots ->
  (roots <> [] -> params (sf (last roots 0)) <> params (sf e)) ->
  adjacent_differ sf (roots ++ [e]).
Proof.
  induction roots as [| r rest IH]; intros H Hl; cbn [adjacent_differ app] in *.
  - split; exact I.
  - destruct H as [H1 H2]. split.
    + destruct rest as [| r' rest']; cbn [app].
      * apply Hl. discriminate.
      * exact H1.
    + apply IH; [exact H2 |]. intros Hne. 
      destruct rest as [| r' rest']; [contradiction Hne; reflexivity |].
      apply Hl. discriminate.
Qed.

Lemma adjacent_differ_nth (sf : Z -> ta_surface) (roots : list Z) :
  adjacent_differ sf roots ->
  forall q, (S q < length roots)%nat ->
    params (sf (nth q roots 0)) <> params (sf (nth (S q) roots 0)).
Proof.
  induction roots as [| r rest IH]; intros H q Hq; cbn [length] in Hq; [lia |].
  cbn [adjacent_differ] in H. destruct H as [H1 H2].
  destruct q as [| q].
  - destruct rest as [| r' rest']; cbn [length] in Hq; [lia |]. exact H1.
  - cbn [nth]. apply IH; [exact H2 | lia].
Qed.

(** The merging loop: what it reads stays as it is, it stops at the first
    entry that is neither the root nor mergeable with it, and it only
    appends whole triangles. *)
Lemma merge_run_spec (INDICES_SIZE lt : Z) (n : nat) :
  forall (j i nm : Z) (rc : tr_context) (j' nm' : Z) (rc' : tr_context),
    merge_run INDICES_SIZE n j i lt nm rc = Ok (j', nm', rc') ->
    let L k := l_surfs (lists rc lt) k in
    j <= j' <= j + Z.of_nat n /\
    surfs rc' = surfs rc /\ lists rc' = lists rc /\ verts rc' = verts rc /\
    num_surfs rc' = num_surfs rc /\ rc_num_verts rc' = rc_num_verts rc /\
    num_indices rc <= num_indices rc' /\
    (num_indices rc' - num_indices rc) mod 3 = 0 /\
    (forall k, j <= k < j' ->
       L k = L i \/ params (surfs rc (L k)) = params (surfs rc (L i))) /\
    (j' < j + Z.of_nat n ->
       L j' <> L i /\ params (surfs rc (L j')) <> params (surfs rc (L i))) /\
    ((forall k, j <= k < j' -> k <> i -> L k <> L i) ->
     nm' = nm + (j' - j) - (if (j <=? i) && (i <? j') then 1 else 0)) /\
    (L j = L i -> n <> O -> j < j').
Proof.
  induction n as [| n IH]; intros j i nm rc j' nm' rc' H L; cbn [merge_run] in H.
  - injection H as <- <- <-. change (Z.of_nat 0) with 0.
    repeat split; try lia; try reflexivity; intros; try lia.
    + rewrite Z.sub_diag. reflexivity.
    + destruct (Z.leb_spec j i), (Z.ltb_spec i j); cbn [andb]; lia.
  - fold (L j) in H. fold (L i) in H.
    destruct (Z.eqb_spec (L j) (L i)) as [Eroot | Nroot]; cbn [negb andb] in H.
    + unfold check in H.
      destruct (Z.ltb_spec (num_indices rc + (num_verts (surfs rc (L j)) - 2) * 3)
                           INDICES_SIZE) as [Hcap | _]; cbn [bind] in H;
        [| discriminate H].
      apply IH in H. cbv zeta in H.
      pose proof (emit_tris_frame (Z.to_nat (num_verts (surfs rc (L j)) - 2)) 0
                    (surfs rc (L j)) rc) as (Fv & Fs & Fl).
      pose proof (emit_tris_num_indices (Z.to_nat (num_verts (surfs rc (L j)) - 2)) 0
                    (surfs rc (L j)) rc) as Fn.
      set (rc1 := emit_tris _ 0 _ rc) in *.
      rewrite Fl, Fs in H. fold L in H.
      destruct H as (Hj & Hs & Hl & Hv & HS & HV & Hle & Hmod & Hin & Hout &
                     Hnm & _).
      assert (Hfr : num_surfs rc1 = num_surfs rc /\ rc_num_verts rc1 = rc_num_verts rc)
        by (subst rc1; apply emit_tris_counts).
      split; [lia |].
      split; [congruence |]. split; [congruence |]. split; [congruence |].
      split; [lia |]. split; [lia |].
      split; [lia |].
      split.
      { replace (num_indices rc' - num_indices rc)
          with ((num_indices rc' - num_indices rc1) +
                Z.of_nat (Z.to_nat (num_verts (surfs rc (L j)) - 2)) * 3) by lia.
        rewrite Z.mod_add by lia. exact Hmod. }
      split.
      { intros k Hk. destruct (Z.eq_dec k j) as [-> | Hne]; [left; exact Eroot |].
        apply Hin. lia. }
      split; [intros Hj'; apply Hout; lia |].
      split.
      { intros Hall. destruct (Z.eq_dec j i) as [Eji | Nji].
        - rewrite Hnm by (intros k Hk; apply Hall; lia). subst j.
          destruct (Z.leb_spec (i + 1) i); [lia |].
          destruct (Z.leb_spec i i); [| lia].
          destruct (Z.ltb_spec i j'); [| lia]. cbn [andb]. lia.
        - exfalso. apply (Hall j); [lia | exact Nji | exact Eroot]. }
      intros _ _. lia.
    + destruct (tr_can_merge_surfs (surfs rc (L i)) (surfs rc (L j))) eqn:Em;
        cbn [negb] in H.
      * unfold check in H.
        destruct (Z.ltb_spec (num_indices rc + (num_verts (surfs rc (L j)) - 2) * 3)
                             INDICES_SIZE) as [Hcap | _]; cbn [bind] in H;
          [| discriminate H].
        apply IH in H. cbv zeta in H.
        pose proof (emit_tris_frame (Z.to_nat (num_verts (surfs rc (L j)) - 2)) 0
                      (surfs rc (L j)) rc) as (Fv & Fs & Fl).
        pose proof (emit_tris_num_indices (Z.to_nat (num_verts (surfs rc (L j)) - 2)) 0
                      (surfs rc (L j)) rc) as Fn.
        set (rc1 := emit_tris _ 0 _ rc) in *.
        rewrite Fl, Fs in H. fold L in H.
        destruct H as (Hj & Hs & Hl & Hv & HS & HV & Hle & Hmod & Hin & Hout &
                       Hnm & _).
        assert (Hfr : num_surfs rc1 = num_surfs rc /\
                      rc_num_verts rc1 = rc_num_verts rc)
          by (subst rc1; apply emit_tris_counts).
        apply can_merge_params in Em.
        split; [lia |].
        split; [congruence |]. split; [congruence |]. split; [congruence |].
        split; [lia |]. split; [lia |].
        split; [lia |].
        split.
        { replace (num_indices rc' - num_indices rc)
            with ((num_indices rc' - num_indices rc1) +
                  Z.of_nat (Z.to_nat (num_verts (surfs rc (L j)) - 2)) * 3) by lia.
          rewrite Z.mod_add by lia. exact Hmod. }
        split.
        { intros k Hk. destruct (Z.eq_dec k j) as [-> | Hne];
            [right; symmetry; exact Em |].
          apply Hin. lia. }
        split; [intros Hj'; apply Hout; lia |].
        split.
        { intros Hall. rewrite Hnm by (intros k Hk; apply Hall; lia).
          assert (j <> i) by (intros ->; apply Nroot; reflexivity).
          destruct (Z.leb_spec (j + 1) i), (Z.leb_spec j i), (Z.ltb_spec i j');
            cbn [andb]; lia. }
        intros Hr. contradiction.
      * injection H as <- <- <-.
        assert (Hnp : params (surfs rc (L j)) <> params (surfs rc (L i))).
        { intros Hp. symmetry in Hp. apply can_merge_params in Hp.
          rewrite Hp in Em. discriminate Em. }
        repeat split; try lia; try reflexivity; try assumption; intros; try lia;
          try contradiction.
        -- rewrite Z.sub_diag. reflexivity.
        -- destruct (Z.leb_spec j i), (Z.ltb_spec i j); cbn [andb]; lia.
Qed.

Lemma last_snoc (l : list Z) (e d : Z) : last (l ++ [e]) d = e.
Proof. apply last_last. Qed.

Lemma group_step (INDICES_SIZE lt : Z) (rc0 : tr_context) (i nm : Z)
    (rc : tr_context) (roots : list Z) (j nm' : Z) (rc1 : tr_context) :
  distinct_entries rc0 lt ->
  group_inv lt rc0 i nm rc roots ->
  i < l_num_surfs (lists rc0 lt) ->
  merge_run INDICES_SIZE (Z.to_nat (l_num_surfs (lists rc lt) - i)) i i lt nm rc
    = Ok (j, nm', rc1) ->
  i < j /\
  group_inv lt rc0 j nm' (close_group lt i j nm' (num_indices rc) rc1)
            (roots ++ [l_surfs (lists rc0 lt) i]).
Proof.
  intros Hd Hinv Hi Hrun.
  unfold group_inv in Hinv. cbv zeta in Hinv.
  destruct Hinv as (Hr & Hnm0 & HN & HO & Hlen & Hent & Hpre & Hsf & Hpos & Hnd & Hpar &
                    Htil & Hadj & Hnext & Hv & HS & HV & Hoth).
  set (N := l_num_surfs (lists rc0 lt)) in *.
  set (L0 := fun k => l_surfs (lists rc0 lt) k) in *.
  rewrite HN in Hrun.
  apply merge_run_spec in Hrun. cbv zeta in Hrun.
  destruct Hrun as (Hj & Fs & Fl & Fv & FS & FV & Hle & Hmod & Hin & Hout & Hnm & Hadv).
  rewrite Z2Nat.id in Hj, Hout by lia.
  assert (Hij : i < j).
  { apply Hadv; [reflexivity | lia]. }
  (* entries at and after [i] are the original ones, with original surfaces *)
  assert (HL : forall k, i <= k < N -> l_surfs (lists rc lt) k = L0 k) by exact Hent.
  assert (Hfresh : forall k, i <= k < N -> ~ In (L0 k) roots).
  { intros k Hk Hin'. destruct (Hpos _ Hin') as (k' & Hk' & Ek').
    assert (k = k') by (apply Hd; fold N; try lia; exact Ek'). lia. }
  assert (Hsurf : forall k, i <= k < N -> surfs rc (L0 k) = surfs rc0 (L0 k)).
  { intros k Hk. apply Hsf. apply Hfresh. exact Hk. }
  assert (Hnm' : nm' = nm + (j - i) - 1).
  { rewrite Hnm.
    - destruct (Z.leb_spec i i), (Z.ltb_spec i j); cbn [andb]; lia.
    - intros k Hk Hne Heq. rewrite !HL in Heq by lia.
      apply Hne. apply Hd; fold N; try lia. exact Heq. }
  split; [exact Hij |].
  unfold group_inv, close_group. cbv zeta. fold N. fold L0.
  rc_simpl. rewrite Fl, Fs. upd_simpl. rc_simpl.
  rewrite (HL i) by lia.
  replace (j - nm' - 1) with (Z.of_nat (length roots)) by lia.
  split; [lia |]. split; [lia |]. split; [exact HN |]. split; [exact HO |].
  split; [rewrite length_app; cbn [length]; lia |].
  split.
  { intros k Hk. rewrite upd_other by lia. apply HL. lia. }
  split.
  { intros q Hq. rewrite length_app in Hq. cbn [length] in Hq.
    destruct (Nat.eq_dec q (length roots)) as [-> | Hne].
    - rewrite upd_same. rewrite app_nth2 by lia. rewrite Nat.sub_diag. reflexivity.
    - rewrite upd_other by lia. rewrite app_nth1 by lia. apply Hpre. lia. }
  split.
  { intros e He. rewrite in_app_iff in He.
    rewrite upd_other.
    - apply Hsf. tauto.
    - intros ->. apply He. right. left. reflexivity. }
  split.
  { intros r Hr'. apply in_app_iff in Hr'. destruct Hr' as [Hr' | [<- | []]].
    - destruct (Hpos _ Hr') as (k & Hk & Ek). exists k. split; [lia | exact Ek].
    - exists i. split; [lia | reflexivity]. }
  split.
  { apply NoDup_app; [exact Hnd | repeat constructor; intros [] | ].
    intros x Hx [<- | []]. apply (Hfresh i); [lia | exact Hx]. }
  split.
  { intros r Hr'. apply in_app_iff in Hr'. destruct Hr' as [Hr' | [<- | []]].
    - rewrite upd_other; [apply Hpar; exact Hr' |].
      intros ->. apply (Hfresh i); [lia | exact Hr'].
    - rewrite upd_same. cbn [params set_num_verts set_first_vert].
      rewrite Hsurf by lia. reflexivity. }
  split.
  { set (sf2 := upd (surfs rc) (L0 i) _).
    assert (Hroot : sf2 (L0 i) =
                    set_num_verts (set_first_vert (surfs rc (L0 i)) (num_indices rc))
                                  (num_indices rc1 - num_indices rc))
      by (unfold sf2; apply upd_same).
    replace (num_indices rc1) with (num_indices rc + num_verts (sf2 (L0 i)))
      by (rewrite Hroot; cbn [num_verts set_num_verts]; lia).
    apply tiled_snoc.
    - apply (tiled_ext (surfs rc)); [| exact Htil].
      intros r Hr'. unfold sf2. rewrite upd_other; [reflexivity |].
      intros ->. apply (Hfresh i); [lia | exact Hr'].
    - rewrite Hroot. reflexivity.
    - rewrite Hroot. cbn [num_verts set_num_verts]. lia.
    - rewrite Hroot. cbn [num_verts set_num_verts]. exact Hmod. }
  split.
  { apply adjacent_differ_snoc; [exact Hadj |].
    intros Hne. apply Hnext; [exact Hne | exact Hi]. }
  split.
  { intros _ HjN. rewrite last_snoc.
    destruct (Hout ltac:(lia)) as [_ Hp].
    rewrite !HL in Hp by lia. rewrite !Hsurf in Hp by lia.
    intros Heq. apply Hp. symmetry. exact Heq. }
  split; [congruence |]. split; [congruence |]. split; [congruence |].
  intros o Ho. rewrite upd_other by exact Ho. apply Hoth. exact Ho.
Qed.

Lemma group_inv_init (lt : Z) (rc : tr_context) :
  0 <= l_num_surfs (lists rc lt) -> group_inv lt rc 0 0 rc [].
Proof.
  intros HN. unfold group_inv. cbv zeta. cbn [length tiled adjacent_differ].
  split; [lia |]. split; [lia |]. split; [reflexivity |]. split; [reflexivity |].
  split; [reflexivity |]. split; [intros k Hk; reflexivity |].
  split; [intros q Hq; inversion Hq |].
  split; [intros e He; reflexivity |].
  split; [intros r [] |]. split; [constructor |].
  split; [intros r [] |]. split; [reflexivity |]. split; [exact I |].
  split; [intros H; contradiction H; reflexivity |].
  repeat split; reflexivity.
Qed.

Lemma generate_groups_not_undef (INDICES_SIZE lt : Z) (fuel : nat) :
  forall (i nm : Z) (rc : tr_context),
    l_num_surfs (lists rc lt) - i <= Z.of_nat fuel ->
    generate_groups INDICES_SIZE fuel i lt nm rc <> Undef.
Proof.
  induction fuel as [| fuel IH]; intros i nm rc Hf; cbn [generate_groups].
  - destruct (Z.ltb_spec i (l_num_surfs (lists rc lt))); [lia | discriminate].
  - destruct (Z.ltb_spec i (l_num_surfs (lists rc lt))) as [Hlt | _]; [| discriminate].
    destruct (merge_run INDICES_SIZE _ i i lt nm rc) as [[[j nm'] rc1] | |] eqn:E;
      cbn [bind];
      [| discriminate | contradiction (merge_run_not_undef _ _ _ _ _ _ _ E)].
    apply merge_run_spec in E. cbv zeta in E.
    destruct E as (Hj & _ & Fl & _ & _ & _ & _ & _ & _ & _ & _ & Hadv).
    apply IH. rc_simpl. upd_simpl. rc_simpl. rewrite Fl.
    assert (i < j) by (apply Hadv; [reflexivity | lia]). lia.
Qed.

(** X17: index generation stops: it returns or aborts on its capacity
    check, for every list and every context. *)
Theorem generate_indices_stops (INDICES_SIZE : Z) (rc : tr_context) (lt : Z) :
  (exists rc', tr_generate_indices INDICES_SIZE rc lt = Ok rc') \/
  tr_generate_indices INDICES_SIZE rc lt = Fatal.
Proof.
  unfold tr_generate_indices.
  pose proof (generate_groups_not_undef INDICES_SIZE lt
                (Z.to_nat (l_num_surfs (lists rc lt))) 0 0 rc ltac:(lia)) as Hn.
  destruct (generate_groups INDICES_SIZE _ 0 lt 0 rc) as [[nm rc1] | |];
    cbn [bind].
  - left. eexists. reflexivity.
  - right. reflexivity.
  - contradiction Hn. reflexivity.
Qed.

(** ** Index generation: what the merging loop emits *)

Lemma tris_before_succ (rc : tr_context) (lt k : Z) :
  0 <= k ->
  tris_before rc lt (k + 1) =
  tris_before rc lt k + strip_tris (surfs rc (l_surfs (lists rc lt) k)).
Proof.
  intros Hk. unfold tris_before.
  replace (Z.to_nat (k + 1)) with (S (Z.to_nat k)) by lia.
  cbn [tris_upto]. rewrite Z2Nat.id by lia. reflexivity.
Qed.

Lemma tris_before_ext (rc rc' : tr_context) (lt k : Z) :
  surfs rc' = surfs rc -> lists rc' = lists rc ->
  tris_before rc' lt k = tris_before rc lt k.
Proof. intros Hs Hl. unfold tris_before. rewrite Hs, Hl. reflexivity. Qed.

Lemma strip_tris_nonneg (s : ta_surface) : 0 <= strip_tris s.
Proof. unfold strip_tris. lia. Qed.

Lemma tris_before_mono (rc : tr_context) (lt : Z) (a b : Z) :
  a <= b -> tris_before rc lt a <= tris_before rc lt b.
Proof.
  intros Hab. unfold tris_before.
  assert (H : (Z.to_nat a <= Z.to_nat b)%nat) by lia.
  induction H as [| m Hm IH]; [lia |].
  cbn [tris_upto].
  pose proof (strip_tris_nonneg (surfs rc (l_surfs (lists rc lt) (Z.of_nat m)))).
  lia.
Qed.

(** One round of the merging loop, unfolded. *)
Lemma merge_run_step (INDICES_SIZE lt : Z) (n : nat) (j i nm : Z) (rc : tr_context)
    (r : Z * Z * tr_context) :
  merge_run INDICES_SIZE (S n) j i lt nm rc = Ok r ->
  let surf := surfs rc (l_surfs (lists rc lt) j) in
  r = (j, nm, rc) \/
  exists nm1,
    merge_run INDICES_SIZE n (j + 1) i lt nm1
              (emit_tris (Z.to_nat (num_verts surf - 2)) 0 surf rc) = Ok r.
Proof.
  intros H. cbv zeta. cbn [merge_run] in H.
  destruct (negb _ && negb _).
  - left. injection H as <-. reflexivity.
  - unfold check in H. destruct (_ <? INDICES_SIZE); cbn [bind] in H;
      [| discriminate H].
    right. eexists. exact H.
Qed.

Lemma merge_run_indices (INDICES_SIZE lt : Z) (n : nat) :
  forall (j i nm : Z) (rc : tr_context) (j' nm' : Z) (rc' : tr_context),
    0 <= j ->
    merge_run INDICES_SIZE n j i lt nm rc = Ok (j', nm', rc') ->
    let L k := l_surfs (lists rc lt) k in
    let T k := tris_before rc lt k in
    num_indices rc' = num_indices rc + 3 * (T j' - T j) /\
    (forall p, p < num_indices rc -> indices rc' p = indices rc p) /\
    (forall k t, j <= k < j' -> 0 <= t < num_verts (surfs rc (L k)) - 2 ->
       index_triple rc' (num_indices rc + 3 * (T k - T j + t)) =
       winding_triple (surfs rc (L k)) t).
Proof.
  induction n as [| n IH]; intros j i nm rc j' nm' rc' Hj H L T.
  - cbn [merge_run] in H. injection H as <- <- <-.
    split; [lia |]. split; [reflexivity |]. intros k t Hk. lia.
  - apply merge_run_step in H. cbv zeta in H.
    destruct H as [H | [nm1 H]].
    + injection H as <- <- <-.
      split; [lia |]. split; [reflexivity |]. intros k t Hk. lia.
    + fold (L j) in H. set (surf := surfs rc (L j)) in *.
      set (m := Z.to_nat (num_verts surf - 2)) in *.
      pose proof (emit_tris_frame m 0 surf rc) as (Fv & Fs & Fl).
      pose proof (emit_tris_num_indices m 0 surf rc) as Fn.
      pose proof (merge_run_spec _ _ _ _ _ _ _ _ _ _ H) as Hsp.
      cbv zeta in Hsp. destruct Hsp as (Hjj & _).
      apply IH in H; [| lia]. cbv zeta in H.
      set (rc1 := emit_tris m 0 surf rc) in *.
      destruct H as (Hnum & Hold & Hnew).
      assert (HT : forall k, tris_before rc1 lt k = T k)
        by (intros k; apply tris_before_ext; assumption).
      rewrite !HT in Hnum. rewrite Fl, Fs in Hnew.
      assert (HTj : T (j + 1) = T j + Z.of_nat m).
      { unfold T. rewrite tris_before_succ by lia. fold (L j). fold surf.
        unfold strip_tris, m. lia. }
      split; [lia |].
      split.
      { intros p Hp. rewrite Hold by lia. apply emit_tris_below. exact Hp. }
      intros k t Hk Ht. destruct (Z.eq_dec k j) as [-> | Hne].
      * replace (T j - T j + t) with t by lia.
        assert (Htm : (Z.to_nat t < m)%nat) by (unfold m; fold surf in Ht; lia).
        pose proof (emit_tris_triple m 0 surf rc (Z.to_nat t) Htm) as Htri.
        rewrite Z2Nat.id in Htri by lia. rewrite Z.add_0_l in Htri.
        fold rc1 in Htri. fold surf. unfold winding_triple. cbv zeta in Htri |- *.
        rewrite <- Htri. unfold index_triple.
        rewrite !Hold by lia. reflexivity.
      * specialize (Hnew k t ltac:(lia) Ht). rewrite !HT in Hnew.
        etransitivity; [| exact Hnew]. f_equal. lia.
Qed.

(** ** Index generation: runs of equal state *)

Lemma runs_head (sf : Z -> ta_surface) (l : list Z) :
  match runs sf l with
  | [] => l = []
  | g :: _ => g <> [] /\ hd 0 g = hd 0 l
  end.
Proof.
  induction l as [| e rest IH]; cbn [runs]; [reflexivity |].
  destruct (runs sf rest) as [| [| h g] rs].
  - split; [discriminate | reflexivity].
  - split; [discriminate | reflexivity].
  - destruct (params_eq_dec _ _); split; try discriminate; reflexivity.
Qed.

Lemma runs_app_group (sf : Z -> ta_surface) (g l : list Z) :
  same_state sf g ->
  match runs sf l with
  | [] => True
  | g' :: _ => params (sf (hd 0 g')) <> params (sf (hd 0 g))
  end ->
  (forall g' rs, runs sf l = g' :: rs -> g' <> []) ->
  runs sf (g ++ l) = g :: runs sf l.
Proof.
  intros [Hne Hsame] Hnext Hnonempty.
  destruct g as [| e0 g]; [contradiction Hne; reflexivity |]. clear Hne.
  cbn [hd] in *.
  assert (Hall : forall e, In e (e0 :: g) -> params (sf e) = params (sf e0))
    by exact Hsame.
  clear Hsame. revert e0 Hnext Hall.
  induction g as [| e2 g IH]; intros e0 Hnext Hall.
  - cbn [app runs].
    destruct (runs sf l) as [| [| h g'] rs] eqn:E.
    + reflexivity.
    + exfalso. apply (Hnonempty [] rs); reflexivity.
    + cbn [hd] in Hnext.
      destruct (params_eq_dec _ _) as [Heq | _]; [| reflexivity].
      exfalso. apply Hnext. symmetry. exact Heq.
  - change ((e0 :: e2 :: g) ++ l) with (e0 :: (e2 :: g) ++ l).
    cbn [runs]. rewrite (IH e2).
    + destruct (params_eq_dec _ _) as [_ | Hneq]; [reflexivity |].
      exfalso. apply Hneq. symmetry. apply Hall. right. left. reflexivity.
    + destruct (runs sf l) as [| g' rs]; [exact I |].
      rewrite (Hall e2 ltac:(right; left; reflexivity)). exact Hnext.
    + intros e He. rewrite (Hall e2 ltac:(right; left; reflexivity)).
      apply Hall. right. exact He.
Qed.

Lemma runs_unique (sf : Z -> ta_surface) (groups : list (list Z)) :
  Forall (same_state sf) groups ->
  adjacent_differ sf (map (hd 0) groups) ->
  runs sf (concat groups) = groups.
Proof.
  induction groups as [| g rest IH]; intros Hok Hadj; [reflexivity |].
  inversion Hok as [| ? ? Hg Hrest]; subst.
  cbn [map adjacent_differ] in Hadj. destruct Hadj as [Hfirst Hadj].
  cbn [concat]. rewrite runs_app_group.
  - rewrite (IH Hrest Hadj). reflexivity.
  - exact Hg.
  - rewrite (IH Hrest Hadj). destruct rest as [| g' rs]; [exact I |].
    cbn [map] in Hfirst. intros Heq. apply Hfirst. symmetry. exact Heq.
  - rewrite (IH Hrest Hadj). intros g' rs E. subst rest.
    inversion Hrest as [| ? ? [Hne _] _]; subst. exact Hne.
Qed.

Lemma group_ranges_ext (sf1 sf2 sf : Z -> ta_surface) (groups : list (list Z)) :
  forall a b,
    (forall g, In g groups -> sf2 (hd 0 g) = sf1 (hd 0 g)) ->
    group_ranges sf1 sf groups a b -> group_ranges sf2 sf groups a b.
Proof.
  induction groups as [| g rest IH]; intros a b Hext H; cbn [group_ranges] in *.
  - exact H.
  - destruct H as [H1 H2]. split.
    + rewrite (Hext g (or_introl eq_refl)). exact H1.
    + apply IH; [| exact H2]. intros g' Hg'. apply Hext. right. exact Hg'.
Qed.

Lemma group_ranges_snoc (sf' sf : Z -> ta_surface) (groups : list (list Z))
    (g : list Z) :
  forall a b,
    group_ranges sf' sf groups a b ->
    sf' (hd 0 g) = set_num_verts (set_first_vert (sf (hd 0 g)) b) (3 * tris_of sf g) ->
    group_ranges sf' sf (groups ++ [g]) a (b + 3 * tris_of sf g).
Proof.
  induction groups as [| g0 rest IH]; intros a b H Hg; cbn [group_ranges app] in *.
  - subst b. split; [exact Hg | reflexivity].
  - destruct H as [H1 H2]. split; [exact H1 |]. apply IH; assumption.
Qed.

Lemma slice_hd (a : Z -> Z) (i j : Z) : i < j -> hd 0 (slice a i j) = a i.
Proof.
  intros H. unfold slice.
  replace (Z.to_nat (j - i)) with (S (Z.to_nat (j - i - 1))) by lia.
  cbn [seq map hd]. f_equal. lia.
Qed.

Lemma slice_In (a : Z -> Z) (i j e : Z) :
  In e (slice a i j) <-> exists k, i <= k < j /\ a k = e.
Proof.
  unfold slice. rewrite in_map_iff. split.
  - intros (q & <- & Hq). apply in_seq in Hq. exists (i + Z.of_nat q).
    split; [lia | reflexivity].
  - intros (k & Hk & <-). exists (Z.to_nat (k - i)). split.
    + f_equal. lia.
    + apply in_seq. lia.
Qed.

Lemma seq_from (n m : nat) : seq n m = map (fun k => (n + k)%nat) (seq 0 m).
Proof.
  induction m as [| m IH]; [reflexivity |].
  rewrite !seq_S, map_app, IH. reflexivity.
Qed.

Lemma read_array_slice (a : Z -> Z) (i j : Z) :
  0 <= i <= j ->
  read_array a (Z.to_nat j) = read_array a (Z.to_nat i) ++ slice a i j.
Proof.
  intros H. unfold read_array, slice.
  replace (Z.to_nat j) with (Z.to_nat i + Z.to_nat (j - i))%nat by lia.
  rewrite seq_app, map_app. f_equal. cbn [Nat.add].
  rewrite (seq_from (Z.to_nat i)), map_map.
  apply map_ext. intros k. f_equal. lia.
Qed.

(** ** Index generation: one group *)

Lemma tris_upto_diff_ext (sf sf0 : Z -> ta_surface) (L L0 : Z -> Z) (a : nat) :
  forall b : nat,
    (a <= b)%nat ->
    (forall q, (a <= q < b)%nat -> sf (L (Z.of_nat q)) = sf0 (L0 (Z.of_nat q))) ->
    tris_upto sf L b - tris_upto sf L a = tris_upto sf0 L0 b - tris_upto sf0 L0 a.
Proof.
  intros b Hab. induction Hab as [| m Hm IH]; intros Hext; [lia |].
  cbn [tris_upto]. rewrite (Hext m) by lia.
  specialize (IH ltac:(intros q Hq; apply Hext; lia)). lia.
Qed.

Lemma tris_of_slice (rc : tr_context) (lt i j : Z) :
  0 <= i <= j ->
  tris_of (surfs rc) (slice (l_surfs (lists rc lt)) i j) =
  tris_before rc lt j - tris_before rc lt i.
Proof.
  intros H. unfold tris_before, slice.
  replace (Z.to_nat j) with (Z.to_nat i + Z.to_nat (j - i))%nat by lia.
  generalize (Z.to_nat (j - i)) as m. intros m.
  induction m as [| m IH].
  - cbn [seq map tris_of fold_right]. rewrite Nat.add_0_r. lia.
  - rewrite seq_S, map_app. unfold tris_of in *. rewrite fold_right_app.
    cbn [map fold_right seq Nat.add].
    replace (Z.to_nat i + S m)%nat with (S (Z.to_nat i + m)) by lia.
    cbn [tris_upto].
    replace (Z.of_nat (Z.to_nat i + m)) with (i + Z.of_nat m) by lia.
    rewrite Z.add_0_r.
    set (x := strip_tris _).
    assert (Hfold : forall (l : list Z) (c : Z),
              fold_right (fun e acc => strip_tris (surfs rc e) + acc) c l =
              fold_right (fun e acc => strip_tris (surfs rc e) + acc) 0 l + c).
    { induction l as [| e l IHl]; intros c; cbn [fold_right]; [lia |].
      rewrite IHl. lia. }
    rewrite Hfold, IH. lia.
Qed.

Lemma tris_before_0 (rc : tr_context) (lt : Z) : tris_before rc lt 0 = 0.
Proof. reflexivity. Qed.

Lemma tris_before_triangle (rc : tr_context) (lt k t i : Z) :
  0 <= k < i -> 0 <= t < num_verts (surfs rc (l_surfs (lists rc lt) k)) - 2 ->
  tris_before rc lt k + t < tris_before rc lt i.
Proof.
  intros Hk Ht.
  pose proof (tris_before_succ rc lt k ltac:(lia)) as Hs.
  pose proof (tris_before_mono rc lt (k + 1) i ltac:(lia)).
  unfold strip_tris in Hs. lia.
Qed.

Lemma gen_step (INDICES_SIZE lt : Z) (rc0 : tr_context) (i nm : Z)
    (rc : tr_context) (groups : list (list Z)) (j nm' : Z) (rc1 : tr_context) :
  distinct_entries rc0 lt ->
  gen_inv lt rc0 i nm rc groups ->
  i < l_num_surfs (lists rc0 lt) ->
  merge_run INDICES_SIZE (Z.to_nat (l_num_surfs (lists rc lt) - i)) i i lt nm rc
    = Ok (j, nm', rc1) ->
  i < j /\
  gen_inv lt rc0 j nm' (close_group lt i j nm' (num_indices rc) rc1)
          (groups ++ [slice (l_surfs (lists rc0 lt)) i j]).
Proof.
  intros Hd Hinv Hi Hrun.
  unfold gen_inv in Hinv. cbv zeta in Hinv.
  destruct Hinv as (Hg & Hcat & Hok & Hrng & Hnum & Hold & Htri).
  destruct (group_step INDICES_SIZE lt rc0 i nm rc _ j nm' rc1 Hd Hg Hi Hrun)
    as [Hij Hg'].
  pose proof Hg as Hgi. unfold group_inv in Hgi. cbv zeta in Hgi.
  destruct Hgi as (Hr & Hnm0 & HN & _ & _ & Hent & _ & Hsf & Hpos & _).
  set (N := l_num_surfs (lists rc0 lt)) in *.
  set (L0 := fun k => l_surfs (lists rc0 lt) k) in *.
  rewrite HN in Hrun.
  pose proof (merge_run_spec _ _ _ _ _ _ _ _ _ _ Hrun) as Hsp. cbv zeta in Hsp.
  destruct Hsp as (Hj & Fs & Fl & _ & _ & _ & _ & _ & Hin & _).
  rewrite Z2Nat.id in Hj by lia.
  pose proof (merge_run_indices INDICES_SIZE lt _ i i nm rc j nm' rc1 ltac:(lia) Hrun)
    as Hix.
  cbv zeta in Hix. destruct Hix as (Inum & Iold & Inew).
  assert (Hfresh : forall k, i <= k < N -> ~ In (L0 k) (map (hd 0) groups)).
  { intros k Hk Hin'. destruct (Hpos _ Hin') as (k' & Hk' & Ek').
    assert (k = k') by (apply Hd; fold N; try lia; exact Ek'). lia. }
  assert (Hsurf : forall k, i <= k < N -> surfs rc (l_surfs (lists rc lt) k) =
                                          surfs rc0 (L0 k)).
  { intros k Hk. rewrite Hent by lia. apply Hsf. apply Hfresh. exact Hk. }
  assert (HT : forall k, i <= k <= N ->
            tris_before rc lt k - tris_before rc lt i =
            tris_before rc0 lt k - tris_before rc0 lt i).
  { intros k Hk. unfold tris_before. apply tris_upto_diff_ext; [lia |].
    intros q Hq. apply Hsurf. lia. }
  assert (Hn0 : num_indices rc0 <= num_indices rc).
  { pose proof (tris_before_mono rc0 lt 0 i ltac:(lia)).
    rewrite tris_before_0 in *. lia. }
  assert (Hsl : tris_of (surfs rc0) (slice L0 i j) =
                tris_before rc0 lt j - tris_before rc0 lt i)
    by (apply tris_of_slice; lia).
  split; [exact Hij |].
  unfold gen_inv. cbv zeta. fold L0.
  split.
  { rewrite map_app. cbn [map]. rewrite slice_hd by exact Hij. exact Hg'. }
  split.
  { rewrite concat_app. cbn [concat]. rewrite app_nil_r, Hcat.
    symmetry. apply read_array_slice. lia. }
  split.
  { apply Forall_app. split; [exact Hok |]. constructor; [| constructor].
    split.
    - intros E. pose proof (slice_hd L0 i j Hij) as Hh.
      assert (Hi' : In (L0 i) (slice L0 i j))
        by (apply slice_In; exists i; split; [lia | reflexivity]).
      rewrite E in Hi'. exact Hi'.
    - intros e He. rewrite slice_hd by exact Hij.
      apply slice_In in He. destruct He as (k & Hk & <-).
      destruct (Hin k ltac:(lia)) as [Heq | Heq].
      + rewrite !Hent in Heq by lia. fold (L0 k) in Heq. fold (L0 i) in Heq.
        rewrite Heq. reflexivity.
      + rewrite !Hsurf in Heq by lia. exact Heq. }
  assert (Hclose_s : surfs (close_group lt i j nm' (num_indices rc) rc1) =
                     upd (surfs rc) (L0 i)
                         (set_num_verts (set_first_vert (surfs rc0 (L0 i)) (num_indices rc))
                                        (3 * tris_of (surfs rc0) (slice L0 i j)))).
  { unfold close_group. cbv zeta. rc_simpl. rewrite Fl, Fs.
    rewrite (Hent i) by lia. fold (L0 i).
    pose proof (Hsurf i ltac:(lia)) as Hsi. rewrite (Hent i) in Hsi by lia.
    fold (L0 i) in Hsi. rewrite Hsi. f_equal. f_equal.
    specialize (HT j ltac:(lia)). lia. }
  assert (Hclose_n : num_indices (close_group lt i j nm' (num_indices rc) rc1) =
                     num_indices rc1) by reflexivity.
  assert (Hclose_i : indices (close_group lt i j nm' (num_indices rc) rc1) =
                     indices rc1) by reflexivity.
  split.
  { rewrite Hclose_s, Hclose_n.
    replace (num_indices rc1)
      with (num_indices rc + 3 * tris_of (surfs rc0) (slice L0 i j))
      by (specialize (HT j ltac:(lia)); lia).
    apply group_ranges_snoc.
    - apply (group_ranges_ext (surfs rc)); [| exact Hrng].
      intros g Hgin. rewrite upd_other; [reflexivity |].
      intros E. apply (Hfresh i ltac:(lia)). rewrite <- E.
      apply in_map. exact Hgin.
    - rewrite slice_hd by exact Hij. apply upd_same. }
  split.
  { rewrite Hclose_n. specialize (HT j ltac:(lia)). lia. }
  split.
  { intros p Hp. rewrite Hclose_i. rewrite Iold by lia. apply Hold. exact Hp. }
  intros k t Hk Ht. unfold index_triple. rewrite Hclose_i.
  destruct (Z_lt_ge_dec k i) as [Hlt | Hge].
  - pose proof (tris_before_triangle rc0 lt k t i ltac:(lia) Ht) as Hb.
    rewrite !Iold by lia. apply (Htri k t); [lia | exact Ht].
  - assert (Hsk : surfs rc (l_surfs (lists rc lt) k) = surfs rc0 (L0 k))
      by (apply Hsurf; lia).
    specialize (Inew k t ltac:(lia)). rewrite Hsk in Inew.
    specialize (Inew Ht). unfold index_triple in Inew.
    replace (num_indices rc0 + 3 * (tris_before rc0 lt k + t))
      with (num_indices rc + 3 * (tris_before rc lt k - tris_before rc lt i + t))
      by (specialize (HT k ltac:(lia)); lia).
    exact Inew.
Qed.

(** ** Index generation: the whole list *)

Lemma gen_inv_init (lt : Z) (rc : tr_context) :
  0 <= l_num_surfs (lists rc lt) -> gen_inv lt rc 0 0 rc [].
Proof.
  intros HN. unfold gen_inv. cbv zeta. cbn [map concat group_ranges].
  split; [apply group_inv_init; exact HN |].
  split; [reflexivity |]. split; [constructor |]. split; [reflexivity |].
  split; [rewrite tris_before_0; lia |]. split; [reflexivity |].
  intros k t Hk. lia.
Qed.

Lemma generate_groups_gen (INDICES_SIZE lt : Z) (rc0 : tr_context) (fuel : nat) :
  forall (i nm : Z) (rc : tr_context) (groups : list (list Z)) (nm_f : Z)
         (rc_f : tr_context),
    distinct_entries rc0 lt ->
    gen_inv lt rc0 i nm rc groups ->
    generate_groups INDICES_SIZE fuel i lt nm rc = Ok (nm_f, rc_f) ->
    exists groups_f,
      gen_inv lt rc0 (l_num_surfs (lists rc0 lt)) nm_f rc_f groups_f.
Proof.
  induction fuel as [| fuel IH]; intros i nm rc groups nm_f rc_f Hd Hinv H;
    cbn [generate_groups] in H;
    pose proof Hinv as (Hg & _); unfold group_inv in Hg; cbv zeta in Hg;
    destruct Hg as (Hr & _ & HN & _).
  - rewrite HN in H.
    destruct (Z.ltb_spec i (l_num_surfs (lists rc0 lt))); [discriminate H |].
    injection H as <- <-. exists groups.
    replace (l_num_surfs (lists rc0 lt)) with i by lia. exact Hinv.
  - destruct (Z.ltb_spec i (l_num_surfs (lists rc lt))) as [Hlt | Hge].
    + destruct_bind H. destruct a as [[j nm'] rc1].
      destruct (gen_step INDICES_SIZE lt rc0 i nm rc groups j nm' rc1 Hd Hinv
                  ltac:(lia) E) as [Hij Hinv'].
      apply (IH _ _ _ _ _ _ Hd Hinv' H).
    + injection H as <- <-. exists groups.
      replace (l_num_surfs (lists rc0 lt)) with i by lia. exact Hinv.
Qed.

(** What index generation leaves behind, in terms of the loop invariant. *)
Lemma generate_indices_facts (INDICES_SIZE : Z) (rc : tr_context) (lt : Z)
    (rc' : tr_context) :
  distinct_entries rc lt ->
  0 <= l_num_surfs (lists rc lt) ->
  tr_generate_indices INDICES_SIZE rc lt = Ok rc' ->
  exists nm rc_f groups,
    gen_inv lt rc (l_num_surfs (lists rc lt)) nm rc_f groups /\
    rc' = set_lists rc_f
            (upd (lists rc_f) lt
                 (mkList (l_surfs (lists rc_f lt))
                         (l_num_surfs (lists rc_f lt) - nm)
                         (l_num_orig_surfs (lists rc_f lt)))) /\
    list_entries rc' lt = map (hd 0) groups /\
    groups = runs (surfs rc) (list_entries rc lt).
Proof.
  intros Hd HN H. unfold tr_generate_indices in H.
  destruct_bind H. destruct a as [nm_f rc_f]. injection H as <-.
  destruct (generate_groups_gen INDICES_SIZE lt rc _ _ _ _ _ _ _ Hd
              (gen_inv_init lt rc HN) E) as (groups & Hinv).
  exists nm_f, rc_f, groups. split; [exact Hinv |]. split; [reflexivity |].
  unfold gen_inv in Hinv. cbv zeta in Hinv.
  destruct Hinv as (Hg & Hcat & Hok & _).
  unfold group_inv in Hg. cbv zeta in Hg.
  destruct Hg as (Hr & Hnm0 & HNf & HO & Hlen & Hent & Hpre & Hsf & Hpos & Hnd &
                  Hpar & Htil & Hadj & _).
  split.
  - unfold list_entries. rc_simpl. upd_simpl. rc_simpl.
    apply (nth_ext _ _ 0 0).
    + rewrite read_array_length. lia.
    + intros q Hq. rewrite read_array_length in Hq.
      rewrite read_array_nth by exact Hq. apply Hpre. lia.
  - transitivity (runs (surfs rc) (concat groups)).
    + symmetry. apply runs_unique; assumption.
    + f_equal. exact Hcat.
Qed.

(** When the list count is negative the generator does nothing. *)
Lemma generate_indices_negative (INDICES_SIZE : Z) (rc : tr_context) (lt : Z)
    (rc' : tr_context) :
  l_num_surfs (lists rc lt) < 0 ->
  tr_generate_indices INDICES_SIZE rc lt = Ok rc' ->
  rc' = set_lists rc (upd (lists rc) lt
                          (mkList (l_surfs (lists rc lt))
                                  (l_num_surfs (lists rc lt) - 0)
                                  (l_num_orig_surfs (lists rc lt)))).
Proof.
  intros HN H. unfold tr_generate_indices in H.
  replace (Z.to_nat (l_num_surfs (lists rc lt))) with O in H by lia.
  cbn [generate_groups] in H.
  destruct (Z.ltb_spec 0 (l_num_surfs (lists rc lt))); [lia |].
  cbn [bind] in H. injection H as <-. reflexivity.
Qed.

(** C3: every triangle that index generation emits from a surface [s] at
    triangle position [j], with [v = s.first_vert + j], is [(v, v+1, v+2)]
    exactly when [s.strip_offset + j] is odd, and [(v, v+2, v+1)]
    otherwise. The generator walks the entries of the list in order and
    emits the triangles of each strip behind those of the entries before
    it: the triangle [j] of entry [k] is the triple at triangle position
    [tris_before k + j] after the old index count, these are all the
    indices that are added, and the indices below the old count stay. *)
Theorem generate_indices_winding (INDICES_SIZE : Z) (rc : tr_context) (lt : Z)
    (rc' : tr_context) :
  distinct_entries rc lt ->
  tr_generate_indices INDICES_SIZE rc lt = Ok rc' ->
  num_indices rc' =
    num_indices rc + 3 * tris_before rc lt (l_num_surfs (lists rc lt)) /\
  (forall p, p < num_indices rc -> indices rc' p = indices rc p) /\
  (forall k j, 0 <= k < l_num_surfs (lists rc lt) ->
     let s := surfs rc (l_surfs (lists rc lt) k) in
     0 <= j < num_verts s - 2 ->
     let v := first_vert s + j in
     let tri := index_triple rc' (num_indices rc + 3 * (tris_before rc lt k + j)) in
     (tri = (v, v + 1, v + 2) <-> Z.odd (strip_offset s + j) = true) /\
     (tri = (v, v + 2, v + 1) <-> Z.odd (strip_offset s + j) = false)).
Proof.
  intros Hd H.
  destruct (Z_lt_ge_dec (l_num_surfs (lists rc lt)) 0) as [Hneg | HN].
  - apply generate_indices_negative in H; [| exact Hneg]. subst rc'.
    rc_simpl. unfold tris_before.
    replace (Z.to_nat (l_num_surfs (lists rc lt))) with O by lia.
    cbn [tris_upto]. split; [lia |]. split; [reflexivity |].
    intros k j Hk. lia.
  - destruct (generate_indices_facts _ _ _ _ Hd ltac:(lia) H)
      as (nm & rc_f & groups & Hinv & -> & _).
    unfold gen_inv in Hinv. cbv zeta in Hinv.
    destruct Hinv as (_ & _ & _ & _ & Hnum & Hold & Htri).
    rc_simpl. split; [exact Hnum |]. split; [exact Hold |].
    intros k j Hk. cbv zeta. intros Hj.
    unfold index_triple in Htri |- *. rc_simpl.
    rewrite (Htri k j Hk Hj). unfold winding_triple. cbv zeta.
    destruct (Z.odd _); split; split;
      intros H'; try reflexivity; try discriminate; injection H'; lia.
Qed.

Lemma generate_indices_winding_witness :
  exists rc',
    tr_generate_indices 64 ex_rc_three TA_LIST_OPAQUE = Ok rc' /\
    num_indices rc' = 12 /\
    (index_triple rc' 3 = (1, 2, 3) <-> Z.odd 1 = true) /\
    (index_triple rc' 6 = (4, 6, 5) <-> Z.odd 0 = false).
Proof.
  destruct (tr_generate_indices 64 ex_rc_three TA_LIST_OPAQUE) as [rc' | |] eqn:E;
    [| vm_compute in E; discriminate E | vm_compute in E; discriminate E].
  exists rc'. split; [reflexivity |].
  destruct (generate_indices_winding 64 ex_rc_three TA_LIST_OPAQUE rc') as
    (Hnum & _ & Htri).
  - intros k1 k2 Hk1 Hk2 Hk. exact Hk.
  - exact E.
  - split; [exact Hnum |]. split.
    + apply (Htri 0 1); cbn; lia.
    + apply (Htri 1 0); cbn; lia.
Defined.

(** X16: index generation on a list of pairwise different surfaces. The
    list is compacted to the first entries of its maximal runs of equal
    state, in list order. Each of them is rewritten to the range of the
    index array that holds the triangles of its whole run and keeps its
    other fields; the ranges follow one another from the old to the new
    index count and hold whole triangles, so their sizes add up to the
    number of indices emitted; neighbours in the compacted list differ in
    state, and every surface that does not head a run is left as it was,
    like the vertices and the other lists. *)
Theorem generate_indices_groups (INDICES_SIZE : Z) (rc : tr_context) (lt : Z)
    (rc' : tr_context) :
  distinct_entries rc lt ->
  tr_generate_indices INDICES_SIZE rc lt = Ok rc' ->
  let groups := runs (surfs rc) (list_entries rc lt) in
  let roots := list_entries rc' lt in
  roots = map (hd 0) groups /\
  group_ranges (surfs rc') (surfs rc) groups (num_indices rc) (num_indices rc') /\
  (forall r, In r roots ->
     In r (list_entries rc lt) /\
     params (surfs rc' r) = params (surfs rc r) /\
     num_verts (surfs rc' r) mod 3 = 0 /\
     num_indices rc <= first_vert (surfs rc' r) /\
     first_vert (surfs rc' r) + num_verts (surfs rc' r) <= num_indices rc') /\
  (forall e, ~ In e roots -> surfs rc' e = surfs rc e) /\
  tiled (surfs rc') roots (num_indices rc) (num_indices rc') /\
  total_verts (surfs rc') roots = num_indices rc' - num_indices rc /\
  adjacent_differ (surfs rc') roots /\
  (length roots <= length (list_entries rc lt))%nat /\
  l_num_orig_surfs (lists rc' lt) = l_num_orig_surfs (lists rc lt) /\
  verts rc' = verts rc /\ num_surfs rc' = num_surfs rc /\
  (forall o, o <> lt -> lists rc' o = lists rc o).
Proof.
  intros Hd H groups roots.
  destruct (Z_lt_ge_dec (l_num_surfs (lists rc lt)) 0) as [Hneg | HN].
  - apply generate_indices_negative in H; [| exact Hneg].
    assert (Hroots : roots = []).
    { subst roots rc'. unfold list_entries. rc_simpl. upd_simpl. rc_simpl.
      replace (Z.to_nat (l_num_surfs (lists rc lt) - 0)) with O by lia.
      reflexivity. }
    assert (Hgroups : groups = []).
    { subst groups. unfold list_entries.
      replace (Z.to_nat (l_num_surfs (lists rc lt))) with O by lia.
      reflexivity. }
    rewrite Hroots, Hgroups. subst rc'. rc_simpl. upd_simpl. rc_simpl.
    cbn [map group_ranges tiled total_verts fold_right adjacent_differ length].
    split; [reflexivity |]. split; [reflexivity |].
    split; [intros r [] |]. split; [reflexivity |]. split; [reflexivity |].
    split; [lia |]. split; [exact I |]. split; [lia |].
    split; [reflexivity |]. split; [reflexivity |]. split; [reflexivity |].
    intros o Ho. rewrite upd_other by exact Ho. reflexivity.
  - destruct (generate_indices_facts _ _ _ _ Hd ltac:(lia) H)
      as (nm & rc_f & groups_f & Hinv & Hrc' & Hroots & Hgroups).
    fold groups in Hgroups. fold roots in Hroots. subst groups_f.
    unfold gen_inv in Hinv. cbv zeta in Hinv.
    destruct Hinv as (Hg & _ & _ & Hrng & _).
    unfold group_inv in Hg. cbv zeta in Hg. rewrite <- Hroots in Hg.
    destruct Hg as (Hr & Hnm0 & HNf & HO & Hlen & Hent & Hpre & Hsf & Hpos & Hnd &
                    Hpar & Htil & Hadj & _ & Hv & HS & HV & Hoth).
    assert (Es : surfs rc' = surfs rc_f) by (rewrite Hrc'; reflexivity).
    assert (En : num_indices rc' = num_indices rc_f) by (rewrite Hrc'; reflexivity).
    assert (Ev : verts rc' = verts rc_f) by (rewrite Hrc'; reflexivity).
    assert (ES : num_surfs rc' = num_surfs rc_f) by (rewrite Hrc'; reflexivity).
    rewrite Es, En, Ev, ES.
    pose proof (tiled_bounds _ _ _ _ Htil) as (_ & Hsum & Hb).
    split; [exact Hroots |]. split; [exact Hrng |].
    split.
    { intros r Hin. destruct (Hpos r Hin) as (k & Hk & ->).
      destruct (Hb _ Hin) as (B1 & B2 & B3 & B4).
      split; [unfold list_entries; apply read_array_In; exists k;
              split; [lia | reflexivity] |].
      split; [apply Hpar; exact Hin |]. repeat split; assumption. }
    split; [exact Hsf |]. split; [exact Htil |]. split; [exact Hsum |].
    split; [apply (adjacent_differ_ext (surfs rc)); assumption |].
    split; [unfold list_entries; rewrite read_array_length; lia |].
    rewrite Hrc'. rc_simpl. upd_simpl. rc_simpl.
    split; [exact HO |]. split; [exact Hv |]. split; [exact HS |].
    intros o Ho. rewrite upd_other by exact Ho. apply Hoth. exact Ho.
Qed.

Lemma generate_indices_groups_witness :
  exists rc',
    tr_generate_indices 64 ex_rc_three TA_LIST_OPAQUE = Ok rc' /\
    runs (surfs ex_rc_three) (list_entries ex_rc_three TA_LIST_OPAQUE) = [[0; 1]; [2]] /\
    list_entries rc' TA_LIST_OPAQUE = [0; 2] /\
    group_ranges (surfs rc') (surfs ex_rc_three) [[0; 1]; [2]] 0 (num_indices rc') /\
    num_indices rc' = 12.
Proof.
  destruct (tr_generate_indices 64 ex_rc_three TA_LIST_OPAQUE) as [rc' | |] eqn:E;
    [| vm_compute in E; discriminate E | vm_compute in E; discriminate E].
  exists rc'. split; [reflexivity |].
  destruct (generate_indices_groups 64 ex_rc_three TA_LIST_OPAQUE rc') as
    (Hroots & Hrng & _).
  - intros k1 k2 Hk1 Hk2 Hk. exact Hk.
  - exact E.
  - split; [vm_compute; reflexivity |].
    split; [exact Hroots |]. split; [exact Hrng |].
    vm_compute in E. injection E as <-. vm_compute. reflexivity.
Defined.

(** ** Surface commit: the entries of a list are different surfaces *)

Lemma lists_wf_push (rc rc1 : tr_context) (lt : Z) :
  lists_wf rc -> lists rc1 = lists rc -> num_surfs rc1 = num_surfs rc ->
  lists_wf (set_num_surfs (list_push rc1 lt) (num_surfs rc1 + 1)).
Proof.
  intros [HS Hwf] Hl Hn. unfold lists_wf, list_push, distinct_entries.
  rc_simpl. rewrite Hl, Hn. split; [lia |].
  intros o Hr. destruct (Z.eq_dec o lt) as [-> | Ho].
  - upd_simpl. rc_simpl. destruct (Hwf lt Hr) as (H0 & Hb & Hd).
    split; [lia |]. split.
    + intros k Hk. destruct (Z.eq_dec k (l_num_surfs (lists rc lt))) as [-> | Hne].
      * rewrite upd_same. lia.
      * rewrite upd_other by exact Hne. specialize (Hb k ltac:(lia)). lia.
    + intros k1 k2 Hk1 Hk2.
      destruct (Z.eq_dec k1 (l_num_surfs (lists rc lt))) as [-> | N1];
        destruct (Z.eq_dec k2 (l_num_surfs (lists rc lt))) as [-> | N2];
        upd_simpl; intros E.
      * reflexivity.
      * specialize (Hb k2 ltac:(lia)). lia.
      * specialize (Hb k1 ltac:(lia)). lia.
      * apply Hd; [lia | lia | exact E].
  - rewrite upd_other by exact Ho. destruct (Hwf o Hr) as (H0 & Hb & Hd).
    split; [exact H0 |]. split.
    + intros k Hk. specialize (Hb k Hk). lia.
    + exact Hd.
Qed.

Lemma lists_wf_ext (rc rc1 : tr_context) :
  lists_wf rc ->
  num_surfs rc1 = num_surfs rc ->
  (forall lt, l_surfs (lists rc1 lt) = l_surfs (lists rc lt) /\
              l_num_surfs (lists rc1 lt) = l_num_surfs (lists rc lt)) ->
  lists_wf rc1.
Proof.
  intros [HS Hwf] Hn Hl. unfold lists_wf, distinct_entries. rewrite Hn.
  split; [exact HS |]. intros lt Hr. destruct (Hl lt) as [-> ->].
  apply Hwf. exact Hr.
Qed.

Lemma commit_tris_wf (SURFS_SIZE lt : Z) (k : nat) :
  forall (i : Z) (rc rc' : tr_context),
    lists_wf rc ->
    commit_tris SURFS_SIZE k i lt rc = Ok rc' ->
    lists_wf rc'.
Proof.
  induction k as [| k IH]; intros i rc rc' Hwf H; cbn [commit_tris] in H.
  - injection H as <-. exact Hwf.
  - destruct_bind H. rename a into rc1.
    assert (Hf : lists rc1 = lists rc /\ num_surfs rc1 = num_surfs rc).
    { destruct (i =? 0).
      - injection E as <-. split; reflexivity.
      - apply reserve_surf_frame in E. tauto. }
    destruct Hf as [Hl Hn].
    apply IH in H; [exact H |].
    pose proof (lists_wf_push rc rc1 lt Hwf Hl Hn) as Hp.
    eapply lists_wf_ext; [exact Hp | reflexivity |].
    intros o. split; reflexivity.
Qed.

(** Committing a strip keeps the lists well formed: every entry that is
    pushed is the index of the surface committed with it. *)
Lemma commit_surf_wf (SURFS_SIZE : Z) (t : tr) (rc rc' : tr_context) :
  lists_wf rc ->
  tr_commit_surf SURFS_SIZE t rc = Ok rc' ->
  lists_wf rc'.
Proof.
  intros Hwf H. unfold tr_commit_surf in H.
  set (rc0 := set_lists rc _) in H.
  assert (Hwf0 : lists_wf rc0).
  { apply (lists_wf_ext rc); [exact Hwf | reflexivity |].
    intros o. unfold rc0. rc_simpl.
    destruct (Z.eq_dec o (list_type t)) as [-> | Ho].
    - rewrite upd_same. split; reflexivity.
    - rewrite upd_other by exact Ho. split; reflexivity. }
  destruct ((list_type t =? TA_LIST_TRANSLUCENT) ||
            (list_type t =? TA_LIST_PUNCH_THROUGH)).
  - destruct_bind H. injection H as <-.
    apply commit_tris_wf in E; [| exact Hwf0].
    apply (lists_wf_ext a); [exact E | reflexivity |].
    intros o. split; reflexivity.
  - injection H as <-.
    pose proof (lists_wf_push rc0 rc0 (list_type t) Hwf0 eq_refl eq_refl) as Hp.
    eapply lists_wf_ext; [exact Hp | reflexivity |].
    intros o. split; reflexivity.
Qed.

Lemma reset_lists_wf (rc : tr_context) : lists_wf (snd (tr_reset rc)).
Proof.
  unfold lists_wf, tr_reset, distinct_entries, reset_list. cbn [snd]. rc_simpl.
  split; [lia |]. intros lt Hr.
  destruct (Z.leb_spec 0 lt); [| lia]. destruct (Z.ltb_spec lt TA_NUM_LISTS); [| lia].
  cbn [andb]. rc_simpl. split; [lia |]. split; intros; lia.
Qed.

(** ** The lists stay well formed through a conversion *)

Section ListsProps.

Variables SURFS_SIZE VERTS_SIZE : Z.
Variable fe : frontend.
Variable vm : vecmath.

Lemma same_lists_refl (rc : tr_context) : same_lists rc rc.
Proof. split; reflexivity. Qed.

Lemma same_lists_trans (a b c : tr_context) :
  same_lists a b -> same_lists b c -> same_lists a c.
Proof. intros [H1 H2] [H3 H4]. split; congruence. Qed.

Lemma same_lists_wf (rc rc' : tr_context) :
  same_lists rc rc' -> lists_wf rc -> lists_wf rc'.
Proof.
  intros [Hl Hn] Hwf. apply (lists_wf_ext rc); [exact Hwf | exact Hn |].
  intros lt. rewrite Hl. split; reflexivity.
Qed.

Lemma reserve_surf_lists (rc rc' : tr_context) (copy : bool) :
  tr_reserve_surf SURFS_SIZE rc copy = Ok rc' -> same_lists rc rc'.
Proof.
  unfold tr_reserve_surf. intros H. destruct_bind H. destruct_bind H.
  injection H as <-. split; reflexivity.
Qed.

Lemma reserve_vert_lists (rc rc' : tr_context) (i : Z) :
  tr_reserve_vert VERTS_SIZE rc = Ok (rc', i) -> same_lists rc rc'.
Proof.
  intros H. apply reserve_vert_spec in H. destruct H as (_ & _ & ->).
  split; reflexivity.
Qed.

Lemma emit_vert_lists (rc rc' : tr_context) (v : ta_vertex) :
  emit_vert VERTS_SIZE rc v = Ok rc' -> same_lists rc rc'.
Proof.
  unfold emit_vert. intros H. destruct_bind H. destruct a as [rc1 i].
  apply reserve_vert_lists in E. injection H as <-.
  destruct E as [E1 E2]. split; [exact E1 | exact E2].
Qed.

Lemma parse_sprite_lists (t : tr) (rc rc' : tr_context) (data : ta_param)
    (reached : bool) :
  parse_sprite VERTS_SIZE vm t rc data = Ok (rc', reached) -> same_lists rc rc'.
Proof.
  unfold parse_sprite. intros H.
  destruct_bind H.
  destruct_bind H. destruct a0 as [rc1 ia]. apply reserve_vert_lists in E0.
  destruct_bind H. destruct a0 as [rc2 ib]. apply reserve_vert_lists in E1.
  destruct_bind H. destruct a0 as [rc3 id]. apply reserve_vert_lists in E2.
  destruct_bind H. destruct a0 as [rc4 ic]. apply reserve_vert_lists in E3.
  assert (H4 : same_lists rc rc4).
  { eapply same_lists_trans; [exact E0 |].
    eapply same_lists_trans; [exact E1 |].
    eapply same_lists_trans; [exact E2 | exact E3]. }
  cbv zeta in H.
  destruct (vec3_normalize vm _) as [n len].
  destruct (_ || _); injection H as <- _; destruct H4 as [H5 H6];
    split; cbn [store_vert set_verts lists num_surfs]; assumption.
Qed.

Lemma vert_switch_lists (t : tr) (rc rc' : tr_context) (data : ta_param)
    (reached : bool) :
  parse_vert_switch VERTS_SIZE vm t rc data = Ok (rc', reached) -> same_lists rc rc'.
Proof.
  intros H.
  destruct (Z_le_dec 0 (vert_type t)) as [H0 | H0];
    [destruct (Z_le_dec (vert_type t) 8) as [H8 | H8] |].
  - apply vert_switch_single in H; [| lia].
    destruct H as (_ & v & Hv & _). apply emit_vert_lists in Hv. exact Hv.
  - destruct (Z.eq_dec (vert_type t) 15) as [E15 | N15].
    { unfold parse_vert_switch in H. rewrite E15 in H.
      apply parse_sprite_lists in H. exact H. }
    destruct (Z.eq_dec (vert_type t) 16) as [E16 | N16].
    { unfold parse_vert_switch in H. rewrite E16 in H.
      apply parse_sprite_lists in H. exact H. }
    destruct (Z.eq_dec (vert_type t) 17) as [E17 | N17].
    { unfold parse_vert_switch in H. rewrite E17 in H. discriminate H. }
    rewrite vert_switch_unsupported in H; [discriminate H |].
    unfold supported_vert_type.
    destruct (Z.leb_spec (vert_type t) 8); [lia |].
    destruct (Z.eqb_spec (vert_type t) 15); [lia |].
    destruct (Z.eqb_spec (vert_type t) 16); [lia |].
    destruct (Z.eqb_spec (vert_type t) 17); [lia |].
    rewrite andb_false_r. reflexivity.
  - rewrite vert_switch_unsupported in H; [discriminate H |].
    unfold supported_vert_type.
    destruct (Z.leb_spec 0 (vert_type t)); [lia |].
    destruct (Z.eqb_spec (vert_type t) 15); [lia |].
    destruct (Z.eqb_spec (vert_type t) 16); [lia |].
    destruct (Z.eqb_spec (vert_type t) 17); [lia |]. reflexivity.
Qed.

Lemma vert_param_wf (t t' : tr) (rc rc' : tr_context) (data : ta_param) :
  tr_parse_vert_param SURFS_SIZE VERTS_SIZE vm t rc data = Ok (t', rc') ->
  lists_wf rc -> lists_wf rc'.
Proof.
  unfold tr_parse_vert_param. intros H Hwf.
  destruct (vert_type t =? 17); [injection H as _ <-; exact Hwf |].
  destruct_bind H. rename a into rc1.
  assert (H1 : same_lists rc rc1).
  { destruct (last_vertex t) as [lv |]; [destruct (end_of_strip (p_pcw lv)) |].
    - apply reserve_surf_lists in E. exact E.
    - injection E as <-. apply same_lists_refl.
    - injection E as <-. apply same_lists_refl. }
  destruct_bind H. destruct a as [rc2 reached].
  apply vert_switch_lists in E0.
  assert (Hwf2 : lists_wf rc2)
    by (apply (same_lists_wf rc1); [exact E0 |];
        apply (same_lists_wf rc); assumption).
  destruct (reached && end_of_strip (p_pcw data)).
  - destruct_bind H. injection H as _ <-.
    apply (commit_surf_wf _ _ _ _ Hwf2 E1).
  - injection H as _ <-. exact Hwf2.
Qed.

Lemma poly_param_lists (w w' : world) (t t' : tr) (ctx : ta_context)
    (rc rc' : tr_context) (data : ta_param) :
  tr_parse_poly_param SURFS_SIZE fe w t ctx rc data = Ok (w', t', rc') ->
  same_lists rc rc'.
Proof.
  unfold tr_parse_poly_param. intros H.
  destruct (ta_poly_type fe (p_pcw data) =? 6);
    [injection H as _ _ <-; apply same_lists_refl |].
  destruct_bind H. destruct_bind H. rename a0 into rc1.
  apply reserve_surf_lists in E0.
  do 5 destruct_bind H. destruct_bind H. destruct a5 as [w1 tex].
  injection H as _ _ <-. destruct E0 as [H1 H2].
  split; cbn [set_surfs lists num_surfs]; assumption.
Qed.

Lemma parse_bg_wf (w w' : world) (t t' : tr) (ctx : ta_context)
    (rc rc' : tr_context) :
  tr_parse_bg SURFS_SIZE VERTS_SIZE fe vm w t ctx rc = Ok (w', t', rc') ->
  lists_wf rc -> lists_wf rc'.
Proof.
  unfold tr_parse_bg. intros H Hwf.
  destruct_bind H. rename a into rc1. apply reserve_surf_lists in E.
  destruct_bind H. destruct a as [w1 tex].
  destruct_bind H. destruct_bind H.
  destruct_bind H. destruct a1 as [rc2 ia]. apply reserve_vert_lists in E3.
  destruct_bind H. destruct a1 as [rc3 ib]. apply reserve_vert_lists in E4.
  destruct_bind H. destruct a1 as [rc4 ic]. apply reserve_vert_lists in E5.
  destruct_bind H. destruct a1 as [rc5 id]. apply reserve_vert_lists in E6.
  assert (H5 : same_lists rc rc5).
  { eapply same_lists_trans; [exact E |].
    eapply same_lists_trans; [| exact E6].
    eapply same_lists_trans; [| exact E5].
    eapply same_lists_trans; [| exact E4].
    eapply same_lists_trans; [| exact E3].
    split; reflexivity. }
  destruct (tr_parse_bg_vert ctx 0 _) as [o1 va].
  destruct (tr_parse_bg_vert ctx o1 _) as [o2 vb].
  destruct (tr_parse_bg_vert ctx o2 _) as [o3 vc].
  destruct_bind H. injection H as _ _ <-.
  apply (commit_surf_wf _ _ _ _) in E7; [exact E7 |].
  apply (same_lists_wf rc5); [split; reflexivity |].
  apply (same_lists_wf rc); assumption.
Qed.

Lemma walk_params_wf (ps : list ta_param) :
  forall (offset : Z) (w : world) (t : tr) (ctx : ta_context) (rc : tr_context)
         (w' : world) (t' : tr) (rc' : tr_context),
    walk_params SURFS_SIZE VERTS_SIZE fe vm ps offset w t ctx rc = Ok (w', t', rc') ->
    lists_wf rc -> lists_wf rc'.
Proof.
  induction ps as [| data rest IH]; intros offset w t ctx rc w' t' rc' H Hwf.
  - cbn [walk_params] in H. injection H as _ _ <-. exact Hwf.
  - cbn [walk_params] in H. cbv zeta in H.
    destruct_bind H. destruct a as [[w1 t1] rc1].
    assert (Hstep : lists_wf rc1).
    { destruct (para_type (p_pcw data)) as [| q | q].
      - injection E as _ _ <-. exact Hwf.
      - do 3 (try (destruct q as [q | q |]));
          try (injection E as _ _ <-; exact Hwf);
          try discriminate E;
          try (apply poly_param_lists in E; apply (same_lists_wf rc); assumption).
        destruct_bind E. destruct a as [t2 rc2]. injection E as _ _ <-.
        apply (vert_param_wf _ _ _ _ _ E0 Hwf).
      - injection E as _ _ <-. exact Hwf. }
    clear E. apply IH in H; [exact H |].
    apply (same_lists_wf rc1); [split; reflexivity | exact Hstep].
Qed.

End ListsProps.

(** *** Sorting and index generation *)

Lemma wf_list_iff (rc : tr_context) (lt : Z) :
  0 <= l_num_surfs (lists rc lt) ->
  ((forall k, 0 <= k < l_num_surfs (lists rc lt) ->
      0 <= l_surfs (lists rc lt) k < num_surfs rc) /\
   distinct_entries rc lt) <->
  (NoDup (list_entries rc lt) /\
   forall e, In e (list_entries rc lt) -> 0 <= e < num_surfs rc).
Proof.
  intros HN. unfold list_entries, distinct_entries. split.
  - intros [Hb Hd]. split.
    + apply (NoDup_nth _ 0). intros i j Hi Hj E.
      rewrite read_array_length in Hi, Hj.
      rewrite !read_array_nth in E by assumption.
      apply Hd in E; lia.
    + intros e He. apply read_array_In in He. destruct He as (k & Hk & <-).
      apply Hb. lia.
  - intros [Hnd Hb]. split.
    + intros k Hk. apply Hb. apply read_array_In. exists k. split; [lia | reflexivity].
    + intros k1 k2 Hk1 Hk2 E.
      pose proof (proj1 (NoDup_nth _ 0) Hnd (Z.to_nat k1) (Z.to_nat k2)) as Hinj.
      rewrite read_array_length in Hinj.
      rewrite !read_array_nth in Hinj by lia.
      rewrite !Z2Nat.id in Hinj by lia.
      specialize (Hinj ltac:(lia) ltac:(lia) E). lia.
Qed.

Lemma sort_surfaces_wf (sort_minz mz : Z -> float) (rc rc' : tr_context) (lt : Z) :
  tr_sort_surfaces sort_minz rc lt = Ok (mz, rc') ->
  lists_wf rc -> lists_wf rc'.
Proof.
  intros H [HS Hwf]. unfold tr_sort_surfaces in H. destruct_bind H.
  injection H as _ <-.
  pose proof (sort_entries a rc lt) as Hent. cbv zeta in Hent.
  set (rc' := set_lists rc _) in *.
  assert (Hperm : Permutation (list_entries rc' lt) (list_entries rc lt))
    by (rewrite Hent; apply msort_halves_perm).
  split; [exact HS |]. intros o Ho.
  destruct (Z.eq_dec o lt) as [-> | Hne].
  - destruct (Hwf lt Ho) as (H0 & Hb & Hd).
    assert (HN : l_num_surfs (lists rc' lt) = l_num_surfs (lists rc lt))
      by (unfold rc'; rc_simpl; upd_simpl; reflexivity).
    split; [lia |].
    apply (wf_list_iff rc' lt); [lia |].
    destruct (proj1 (wf_list_iff rc lt H0) (conj Hb Hd)) as [Hnd Hin].
    split.
    + apply (Permutation_NoDup (Permutation_sym Hperm)). exact Hnd.
    + intros e He. apply Hin. apply (Permutation_in _ Hperm). exact He.
  - unfold distinct_entries. unfold rc'. rc_simpl. rewrite upd_other by exact Hne.
    apply Hwf. exact Ho.
Qed.

Lemma generate_indices_wf (INDICES_SIZE : Z) (rc rc' : tr_context) (lt : Z) :
  0 <= lt < TA_NUM_LISTS ->
  tr_generate_indices INDICES_SIZE rc lt = Ok rc' ->
  lists_wf rc -> lists_wf rc'.
Proof.
  intros Hlt H [HS Hwf].
  destruct (Hwf lt Hlt) as (H0 & Hb & Hd).
  destruct (generate_indices_facts _ _ _ _ Hd H0 H)
    as (nm & rc_f & groups & Hinv & Hrc' & Hroots & _).
  unfold gen_inv in Hinv. cbv zeta in Hinv. destruct Hinv as (Hg & _).
  unfold group_inv in Hg. cbv zeta in Hg. rewrite <- Hroots in Hg.
  destruct Hg as (Hr & Hnm0 & HNf & HO & Hlen & Hent & Hpre & Hsf & Hpos & Hnd &
                  Hpar & Htil & Hadj & _ & Hv & HSf & HV & Hoth).
  assert (En : num_surfs rc' = num_surfs rc) by (rewrite Hrc'; exact HSf).
  split; [lia |]. intros o Ho.
  destruct (Z.eq_dec o lt) as [-> | Hne].
  - assert (HN : l_num_surfs (lists rc' lt) = Z.of_nat (length (list_entries rc' lt))).
    { rewrite Hlen. rewrite Hrc'. rc_simpl. upd_simpl. rc_simpl. lia. }
    split; [lia |].
    apply (wf_list_iff rc' lt); [lia |].
    split; [exact Hnd |].
    intros e He. destruct (Hpos e He) as (k & Hk & ->).
    rewrite En. apply Hb. lia.
  - assert (El : lists rc' o = lists rc o).
    { rewrite Hrc'. rc_simpl. rewrite upd_other by exact Hne. apply Hoth. exact Hne. }
    unfold distinct_entries. rewrite El, En. apply Hwf. exact Ho.
Qed.

Lemma generate_all_wf (INDICES_SIZE : Z) (n : nat) :
  forall (i : Z) (rc rc' : tr_context),
    0 <= i -> i + Z.of_nat n <= TA_NUM_LISTS ->
    generate_all INDICES_SIZE n i rc = Ok rc' ->
    lists_wf rc -> lists_wf rc'.
Proof.
  induction n as [| n IH]; intros i rc rc' Hi Hn H Hwf; cbn [generate_all] in H.
  - injection H as <-. exact Hwf.
  - destruct_bind H.
    apply (IH (i + 1) a rc'); [lia | lia | exact H |].
    apply (generate_indices_wf INDICES_SIZE rc a i); [lia | exact E | exact Hwf].
Qed.

(** X2: a conversion that returns leaves well formed lists: every entry of
    every list is the index of a committed surface, and no list names a
    surface twice. The lists are empty after the reset; every commit
    pushes the index of the surface it commits; the sort permutes a list
    and index generation keeps the first entry of every run. Index
    generation therefore always runs on lists of pairwise different
    surfaces. *)
Theorem convert_lists_wf (SURFS_SIZE VERTS_SIZE INDICES_SIZE : Z) (fe : frontend)
    (vm : vecmath) (w : world) (sort_minz : Z -> float) (ctx : ta_context)
    (rc : tr_context) (w' : world) (mz' : Z -> float) (rc' : tr_context) :
  tr_convert_context SURFS_SIZE VERTS_SIZE INDICES_SIZE fe vm w sort_minz ctx rc
    = Ok (w', mz', rc') ->
  lists_wf rc'.
Proof.
  unfold tr_convert_context. intros H.
  pose proof (reset_lists_wf rc) as Hwf0.
  destruct (tr_reset rc) as [t0 rc0]. cbn [snd] in Hwf0.
  destruct_bind H. destruct a as [[w1 t1] rc1].
  apply parse_bg_wf in E;
    [| apply (same_lists_wf rc0); [split; reflexivity | exact Hwf0]].
  destruct_bind H. destruct a as [[w2 t2] rc2].
  apply walk_params_wf in E0; [| exact E].
  destruct_bind H. destruct a as [mz3 rc3].
  assert (Hwf3 : lists_wf rc3).
  { destruct (autosort ctx).
    - destruct_bind E1. destruct a as [mz4 rc4].
      apply sort_surfaces_wf in E2; [| exact E0].
      apply sort_surfaces_wf in E1; [exact E1 | exact E2].
    - injection E1 as _ <-. exact E0. }
  destruct_bind H. injection H as _ _ <-.
  apply (generate_all_wf INDICES_SIZE (Z.to_nat TA_NUM_LISTS) 0 rc3 a);
    [lia | | exact E2 | exact Hwf3].
  rewrite Z2Nat.id; unfold TA_NUM_LISTS; lia.
Qed.

Lemma convert_lists_wf_witness :
  exists w' mz' rc',
    tr_convert_context 16 64 64 hw_frontend f32_vecmath ex_world (fun _ => F32.zero)
                       (ex_ctx true ex_stream_quad) ex_rc_prior = Ok (w', mz', rc') /\
    list_entries rc' TA_LIST_OPAQUE = [0] /\
    list_entries rc' TA_LIST_TRANSLUCENT = [1] /\
    lists_wf rc'.
Proof.
  destruct (tr_convert_context 16 64 64 hw_frontend f32_vecmath ex_world
              (fun _ => F32.zero) (ex_ctx true ex_stream_quad) ex_rc_prior)
    as [[[w' mz'] rc'] | |] eqn:E;
    [| vm_compute in E; discriminate E | vm_compute in E; discriminate E].
  exists w', mz', rc'. split; [reflexivity |].
  pose proof (convert_lists_wf _ _ _ _ _ _ _ _ _ _ _ _ E) as Hwf.
  split; [| split; [| exact Hwf]];
    vm_compute in E; injection E as _ _ <-; vm_compute; reflexivity.
Defined.
